(** * tetra3_pipeline: a shallow embedding of the batch orchestration

    The development follows [src/tetra3_pipeline.py].  The program is
    effectful: it probes and writes the filesystem, changes the working
    directory, prints to the console, calls the external [tetra3] library
    and leaves through exceptions ([sys.exit] raises [SystemExit]).  All of
    that is made explicit here:

    - a [World] holds the working directory, the filesystem, the table of
      open file handles and an append-only log of every observable action;
    - a command is a function [World -> result A * World], composed with a
      small state-and-exception monad;
    - the external library is an interface ([Tetra3Lib]) over which every
      statement quantifies.

    The command-line grammar ([build_parser]) is not modelled: the commands
    take the namespace that [argparse] produces.

    What the model leaves out: paths follow the POSIX flavour of [pathlib]
    on a case-sensitive filesystem without symbolic links, so that [..] is
    resolved lexically; [print], [close] and a write to an open file do not
    fail; nobody else changes the filesystem while a command runs, the
    library apart, whose only effect on the world is the database file it
    saves; the text that [print] and [csv] make of a float is not computed,
    lines and rows keep the values themselves. *)

From Stdlib Require Import Floats ZArith Ascii String.
From stdpp Require Import gmap strings list sorting.

Open Scope string_scope.
Open Scope list_scope.

(** ** Python values *)

(** The values that travel through the program: what [argparse] stores in the
    namespace, what the solver puts in its response, what goes in a CSV cell. *)
Inductive pyval :=
| VNone
| VBool (b : bool)
| VInt (z : Z)
| VFloat (f : float)
| VStr (s : string).

(** [bool(v)] *)
Definition truthy (v : pyval) : bool :=
  match v with
  | VNone => false
  | VBool b => b
  | VInt z => negb (z =? 0)%Z
  | VFloat f => negb (PrimFloat.eqb f 0%float)
  | VStr s => negb (String.eqb s "")
  end.

(** A [dict] with string keys; [d.get(k, dflt)]. *)
Abbreviation dict := (gmap string pyval).

Definition dict_get (d : dict) (k : string) (dflt : pyval) : pyval :=
  default dflt (d !! k).

(** What [csv.writer] receives in one [writerow] call.  The writer renders
    [None] and the empty string as an empty cell, everything else through
    [str]; [cell_empty] tells the two apart without formatting floats. *)
Abbreviation row := (list pyval).

Definition cell_empty (v : pyval) : bool :=
  match v with
  | VNone => true
  | VStr s => String.eqb s ""
  | _ => false
  end.

(** ** Exceptions *)

(** [Exception kind msg] stands for every subclass of Python's [Exception];
    the other three constructors are [BaseException]s that an
    [except Exception] clause lets through. *)
Inductive exn :=
| Exception (kind msg : string)
| KeyboardInterrupt
| SystemExit (code : Z)
| BaseExc (kind : string).

Inductive result (A : Type) :=
| Ok (a : A)
| Raise (e : exn).
Arguments Ok {A} a.
Arguments Raise {A} e.

Definition is_Exception (e : exn) : bool :=
  match e with Exception _ _ => true | _ => false end.

(** ** Paths (pathlib, POSIX flavour) *)

Record Path := mkPath { p_abs : bool; p_parts : list string }.

Fixpoint split_on (c : ascii) (s : string) : list string :=
  match s with
  | EmptyString => [EmptyString]
  | String a s' =>
      if Ascii.eqb a c then EmptyString :: split_on c s'
      else match split_on c s' with
           | [] => [String a EmptyString]
           | x :: r => String a x :: r
           end
  end.

Definition starts_with_slash (s : string) : bool :=
  match s with String a _ => Ascii.eqb a "/" | EmptyString => false end.

(** [Path(s)]: empty and [.] components are dropped, [..] is kept. *)
Definition Path_of (s : string) : Path :=
  mkPath (starts_with_slash s)
         (filter (fun c => c <> "" /\ c <> ".") (split_on "/" s)).

Fixpoint join (sep : string) (l : list string) : string :=
  match l with
  | [] => ""
  | [x] => x
  | x :: r => x +:+ sep +:+ join sep r
  end.

(** [str(p)] *)
Definition path_str (p : Path) : string :=
  if p_abs p then "/" +:+ join "/" (p_parts p)
  else match p_parts p with [] => "." | _ => join "/" (p_parts p) end.

(** [p / s] *)
Definition joinpath (p : Path) (s : string) : Path :=
  let q := Path_of s in
  if p_abs q then q else mkPath (p_abs p) (p_parts p ++ p_parts q).

(** A directory entry as [glob] yields it: the name is appended unparsed. *)
Definition child (p : Path) (name : string) : Path :=
  mkPath (p_abs p) (p_parts p ++ [name]).

(** [p.parent] *)
Definition parent (p : Path) : Path :=
  mkPath (p_abs p) (removelast (p_parts p)).

(** Lexical treatment of [..]: the filesystem has no symbolic links. *)
Definition normalize (parts : list string) : list string :=
  reverse (foldl (fun acc c => if decide (c = "..") then tail acc else c :: acc)
                 [] parts).

(** The order [sorted] uses on paths: component lists compared
    lexicographically, components by code point, an absolute path carrying its
    root as first component. *)
Fixpoint parts_leb (a b : list string) : bool :=
  match a, b with
  | [], _ => true
  | _ :: _, [] => false
  | x :: a', y :: b' =>
      match String.compare x y with
      | Lt => true
      | Gt => false
      | Eq => parts_leb a' b'
      end
  end.

Definition cparts (p : Path) : list string :=
  if p_abs p then "/" :: p_parts p else p_parts p.

Definition path_le (p q : Path) : Prop := parts_leb (cparts p) (cparts q) = true.

#[global] Instance Path_eq_dec : EqDecision Path.
Proof. solve_decision. Defined.

#[global] Instance path_le_dec p q : Decision (path_le p q) :=
  decide (parts_leb (cparts p) (cparts q) = true).

(** [sorted(paths)] *)
Definition sorted (l : list Path) : list Path := merge_sort path_le l.

(** [fnmatch(name, "*" + ext)] on a case-sensitive filesystem: the name
    ends with the extension. *)
Definition ends_with (ext name : string) : bool :=
  bool_decide (list_ascii_of_string ext `suffix_of` list_ascii_of_string name).

(** ** The world *)

(** A filesystem entry.  A file's content is kept as the sequence of records
    written to it (for the CSV log: header and data rows). *)
Inductive node :=
| Dir
| File (content : list row).

(** The call [generate_database(min_fov=, max_fov=, star_catalog=,
    star_max_magnitude=, save_as=)] *)
Record gen_call := mkGenCall {
  gc_min_fov : float;
  gc_max_fov : float;
  gc_star_catalog : string;
  gc_star_max_magnitude : float;
  gc_save_as : string }.

(** The call [solve_from_image(image, fov_estimate=, fov_max_error=,
    extract_dict=)]; the dictionary is kept in insertion order. *)
Record solve_call := mkSolveCall {
  sc_image : string;
  sc_fov_estimate : float;
  sc_fov_max_error : float;
  sc_extract_dict : option (list (string * pyval)) }.

(** A fragment of a printed line: literal text, or an interpolated value
    that [print] formats itself. *)
Inductive piece :=
| Txt (s : string)
| Val (v : pyval)
| DictRepr (d : list (string * pyval)).

(** Every action that leaves the process, in the order it happened.
    Locations are absolute, normalized component lists. *)
Inductive event :=
| EvPrint (line : list piece)
| EvExists (loc : list string)
| EvIsDir (loc : list string)
| EvGlob (loc : list string) (ext : string)
| EvMkdir (loc : list string)
| EvChdir (loc : list string)
| EvOpen (fd : nat) (loc : list string)
| EvWriteRow (fd : nat) (r : row)
| EvClose (fd : nat)
| EvTetra3 (load_database : option string)
| EvGenerate (at_cwd : list string) (c : gen_call) (failed : option exn)
| EvSolve (c : solve_call) (out : result dict).

Record World := mkWorld {
  cwd : list string;                 (* os.getcwd() *)
  homes : gmap string (list string); (* home directories, "" is the user's own *)
  clock : string;                    (* datetime.now().isoformat(timespec='seconds') *)
  fs : gmap (list string) node;
  fds : gmap nat (list string);      (* open file objects *)
  next_fd : nat;
  log : list event }.

Definition set_cwd (d : list string) (w : World) : World :=
  mkWorld d (homes w) (clock w) (fs w) (fds w) (next_fd w) (log w).
Definition set_fs (f : gmap (list string) node) (w : World) : World :=
  mkWorld (cwd w) (homes w) (clock w) f (fds w) (next_fd w) (log w).
Definition set_fds (t : gmap nat (list string)) (n : nat) (w : World) : World :=
  mkWorld (cwd w) (homes w) (clock w) (fs w) t n (log w).
Definition emit (e : event) (w : World) : World :=
  mkWorld (cwd w) (homes w) (clock w) (fs w) (fds w) (next_fd w) (log w ++ [e]).

(** Several events at once *)
Definition emits (evs : list event) (w : World) : World :=
  mkWorld (cwd w) (homes w) (clock w) (fs w) (fds w) (next_fd w) (log w ++ evs).

(** The root always exists. *)
Definition fs_get (f : gmap (list string) node) (loc : list string) : option node :=
  match loc with
  | [] => Some Dir
  | _ => f !! loc
  end.

Definition is_dir_at (f : gmap (list string) node) (loc : list string) : bool :=
  match fs_get f loc with Some Dir => true | _ => false end.

(** Where a path points, seen from the working directory [wd] *)
Definition locate (wd : list string) (p : Path) : list string :=
  normalize (if p_abs p then p_parts p else wd ++ p_parts p).

Definition strip_prefix (d k : list string) : option (list string) :=
  if decide (take (length d) k = d) then Some (drop (length d) k) else None.

(** The names directly under [d] *)
Definition listdir (f : gmap (list string) node) (d : list string) : list string :=
  omap (fun kv => match strip_prefix d kv.1 with
                  | Some [name] => Some name
                  | _ => None
                  end) (map_to_list f).

(** ** The monad: state passing with exceptions *)

Definition M (A : Type) : Type := World -> result A * World.

Definition ret {A} (a : A) : M A := fun w => (Ok a, w).
Definition raise {A} (e : exn) : M A := fun w => (Raise e, w).
Definition bind {A B} (m : M A) (k : A -> M B) : M B :=
  fun w => match m w with
           | (Ok a, w1) => k a w1
           | (Raise e, w1) => (Raise e, w1)
           end.

Declare Scope m_scope.
Delimit Scope m_scope with M.
Notation "x <- m ;; k" := (bind m (fun x => k))
  (at level 20, m at level 99, k at level 200, only parsing) : m_scope.
Notation "m ;; k" := (bind m (fun _ => k))
  (at level 100, k at level 200, only parsing, right associativity) : m_scope.
Open Scope m_scope.

(** [try: body finally: fin].  An exception of the finalizer replaces the
    one in flight. *)
Definition try_finally {A} (body : M A) (fin : M unit) : M A :=
  fun w => match body w with
           | (r, w1) => match fin w1 with
                        | (Ok _, w2) => (r, w2)
                        | (Raise e, w2) => (Raise e, w2)
                        end
           end.

(** [try: body except Exception as e: handler(e)] *)
Definition try_except {A} (body : M A) (handler : string -> string -> M A) : M A :=
  fun w => match body w with
           | (Raise (Exception kind msg), w1) => handler kind msg w1
           | other => other
           end.

(** ** Primitives *)

Definition print (line : list piece) : M unit :=
  fun w => (Ok tt, emit (EvPrint line) w).

(** [sys.exit(code)] *)
Definition sys_exit {A} (code : Z) : M A := raise (SystemExit code).

(** [Path.cwd()] *)
Definition Path_cwd : M Path := fun w => (Ok (mkPath true (cwd w)), w).

(** [datetime.now().isoformat(timespec='seconds')] *)
Definition now_iso : M string := fun w => (Ok (clock w), w).

(** [p.exists()] *)
Definition exists_ (p : Path) : M bool :=
  fun w => let loc := locate (cwd w) p in
           (Ok (bool_decide (is_Some (fs_get (fs w) loc))), emit (EvExists loc) w).

(** [p.is_dir()] *)
Definition is_dir (p : Path) : M bool :=
  fun w => let loc := locate (cwd w) p in
           (Ok (is_dir_at (fs w) loc), emit (EvIsDir loc) w).

(** [p.glob("*" + ext)]: the entries come in the order the filesystem
    gives them. *)
Definition glob_entries (f : gmap (list string) node) (wd : list string)
    (p : Path) (ext : string) : list Path :=
  match fs_get f (locate wd p) with
  | Some Dir => child p <$> filter (fun n => ends_with ext n = true) (listdir f (locate wd p))
  | _ => []
  end.

Definition glob (p : Path) (ext : string) : M (list Path) :=
  fun w => (Ok (glob_entries (fs w) (cwd w) p ext), emit (EvGlob (locate (cwd w) p) ext) w).

(** [p.expanduser()] *)
Definition expanduser (p : Path) : M Path :=
  fun w => match p_abs p, p_parts p with
           | false, String "~" user :: rest =>
               match homes w !! user with
               | Some h => (Ok (mkPath true (h ++ rest)), w)
               | None => (Raise (Exception "RuntimeError" "Could not determine home directory."), w)
               end
           | _, _ => (Ok p, w)
           end.

(** [p.resolve()] *)
Definition resolve (p : Path) : M Path :=
  fun w => (Ok (mkPath true (locate (cwd w) p)), w).

(** [Path(s).expanduser().resolve()] *)
Definition resolved (s : string) : M Path :=
  p <- expanduser (Path_of s);; resolve p.

(** [os.mkdir] along the ancestors of [loc], as
    [mkdir(parents=True, exist_ok=True)] does: existing directories are kept,
    a file in the way is an error. *)
Fixpoint mkdir_from (f : gmap (list string) node) (base todo : list string)
  : result (gmap (list string) node) :=
  match todo with
  | [] => Ok f
  | c :: rest =>
      let here := base ++ [c] in
      match f !! here with
      | Some Dir => mkdir_from f here rest
      | Some (File _) =>
          Raise (Exception (match rest with [] => "FileExistsError" | _ => "NotADirectoryError" end)
                           (join "/" here))
      | None => mkdir_from (<[here := Dir]> f) here rest
      end
  end.

(** [p.mkdir(parents=True, exist_ok=True)] *)
Definition mkdir_p (p : Path) : M unit :=
  fun w => let loc := locate (cwd w) p in
           match mkdir_from (fs w) [] loc with
           | Ok f => (Ok tt, emit (EvMkdir loc) (set_fs f w))
           | Raise e => (Raise e, w)
           end.

(** [os.chdir(p)] *)
Definition chdir (p : Path) : M unit :=
  fun w => let loc := locate (cwd w) p in
           match fs_get (fs w) loc with
           | Some Dir => (Ok tt, emit (EvChdir loc) (set_cwd loc w))
           | Some (File _) => (Raise (Exception "NotADirectoryError" (path_str p)), w)
           | None => (Raise (Exception "FileNotFoundError" (path_str p)), w)
           end.

(** [open(p, "w", newline="", encoding="utf-8")]: creates or truncates. *)
Definition open_w (p : Path) : M nat :=
  fun w => let loc := locate (cwd w) p in
           match fs_get (fs w) loc with
           | Some Dir => (Raise (Exception "IsADirectoryError" (path_str p)), w)
           | _ =>
               match fs_get (fs w) (removelast loc) with
               | Some Dir =>
                   let fd := next_fd w in
                   (Ok fd, emit (EvOpen fd loc)
                             (set_fds (<[fd := loc]> (fds w)) (S fd)
                                (set_fs (<[loc := File []]> (fs w)) w)))
               | Some (File _) => (Raise (Exception "NotADirectoryError" (path_str p)), w)
               | None => (Raise (Exception "FileNotFoundError" (path_str p)), w)
               end
           end.

(** [csv.writer(f).writerow(r)] *)
Definition writerow (fd : nat) (r : row) : M unit :=
  fun w => match fds w !! fd with
           | None => (Raise (Exception "ValueError" "I/O operation on closed file."), w)
           | Some loc =>
               let f := match fs w !! loc with
                        | Some (File c) => <[loc := File (c ++ [r])]> (fs w)
                        | _ => fs w
                        end in
               (Ok tt, emit (EvWriteRow fd r) (set_fs f w))
           end.

(** [f.close()] *)
Definition close (fd : nat) : M unit :=
  fun w => (Ok tt, emit (EvClose fd) (set_fds (delete fd (fds w)) (next_fd w) w)).

(** ** The external library *)

(** [tetra3] is an opaque collaborator: its constructor, its database
    generator and its solver may depend on everything in the world and may
    raise anything. *)
Class Tetra3Lib := {
  t3_handle : Type;
  Tetra3 : option string -> World -> result t3_handle;
  generate_database : t3_handle -> gen_call -> World -> result (list row);
  solve_from_image : t3_handle -> solve_call -> World -> result dict }.

Section Pipeline.
Context `{lib : Tetra3Lib}.

(** [tetra3.Tetra3(load_database=...)] *)
Definition new_Tetra3 (load_database : option string) : M t3_handle :=
  fun w => (Tetra3 load_database w, emit (EvTetra3 load_database) w).

(** [t3.generate_database(...)]: on success the database is saved at
    [save_as]. *)
Definition call_generate_database (t3 : t3_handle) (c : gen_call) : M unit :=
  fun w => match generate_database t3 c w with
           | Ok content =>
               let loc := locate (cwd w) (Path_of (gc_save_as c)) in
               if is_dir_at (fs w) loc
               then let e := Exception "IsADirectoryError" (gc_save_as c) in
                    (Raise e, emit (EvGenerate (cwd w) c (Some e)) w)
               else (Ok tt, emit (EvGenerate (cwd w) c None)
                              (set_fs (<[loc := File content]> (fs w)) w))
           | Raise e => (Raise e, emit (EvGenerate (cwd w) c (Some e)) w)
           end.

(** [t3.solve_from_image(...)] *)
Definition call_solve_from_image (t3 : t3_handle) (c : solve_call) : M dict :=
  fun w => let out := solve_from_image t3 c w in (out, emit (EvSolve c out) w).

(** ** The argparse namespaces *)

Record gen_args := mkGenArgs {
  star_catalog : string;
  catalog_dir : option string;
  min_fov : float;
  max_fov : float;
  star_max_magnitude : float;
  output : string }.

Record solve_args := mkSolveArgs {
  images : list string;
  database : string;
  fov_estimate : float;
  fov_max_error : float;
  min_sum : option Z;
  max_axis_ratio : option float;
  min_distance : option Z;
  csv : option string }.

(** [x if x else None] on an optional string: the empty string is falsy. *)
Definition if_set (o : option string) : option string :=
  match o with
  | Some s => if String.eqb s "" then None else Some s
  | None => None
  end.

Definition nl : string := String (ascii_of_nat 10) "".

(** The statuses handed to [sys.exit] (lines 53, 75, 131, 145) and returned
    by [main] (lines 241, 244). *)
Definition exit_ok : Z := 0.
Definition exit_unsupported_catalog : Z := 2.
Definition exit_catalog_missing : Z := 3.
Definition exit_database_missing : Z := 4.
Definition exit_no_images : Z := 5.
Definition exit_interrupted : Z := 130.

Definition exit_codes : list Z :=
  [exit_ok; exit_unsupported_catalog; exit_catalog_missing;
   exit_database_missing; exit_no_images; exit_interrupted].

(** ** [pushd] (lines 31-38) *)

Definition pushd {A} (new_dir : Path) (body : M A) : M A :=
  prev <- Path_cwd;;
  chdir new_dir;;
  try_finally body (chdir prev).

(** ** [ensure_catalog_available] (lines 41-75) *)

Definition required : list (string * string) :=
  [("hip_main", "hip_main.dat"); ("tyc_main", "tyc_main.dat"); ("bsc5", "bsc5.dat")].

Fixpoint assoc (k : string) (l : list (string * string)) : option string :=
  match l with
  | [] => None
  | (k', v) :: r => if String.eqb k k' then Some v else assoc k r
  end.

(** [for d in search_dirs: if (d / filename).exists(): return] *)
Fixpoint probe (search_dirs : list Path) (filename : string) : M bool :=
  match search_dirs with
  | [] => ret false
  | d :: r =>
      b <- exists_ (joinpath d filename);;
      if b then ret true else probe r filename
  end.

Definition print_hint (star_catalog : string) : M unit :=
  if String.eqb star_catalog "hip_main" then
    print [Txt "Download HIPPARCOS 'hip_main.dat' from:"];;
    print [Txt "  https://cdsarc.cds.unistra.fr/ftp/cats/I/239/hip_main.dat"]
  else if String.eqb star_catalog "bsc5" then
    print [Txt "Download the BSC5 byte-format file from:"];;
    print [Txt "  http://tdc-www.harvard.edu/catalogs/bsc5.html"]
  else
    print [Txt "Ensure you have the correct Tycho-2 main file and rename it to 'tyc_main.dat'."].

Definition ensure_catalog_available (star_catalog : string) (catalog_dir : option Path)
  : M unit :=
  match assoc star_catalog required with
  | None =>
      print [Txt ("ERROR: Unsupported star_catalog '" +:+ star_catalog
                  +:+ "'. Use one of: " +:+ join ", " (required.*1))];;
      sys_exit exit_unsupported_catalog
  | Some filename =>
      here <- Path_cwd;;
      let search_dirs := match catalog_dir with Some d => [d] | None => [] end ++ [here] in
      found <- probe search_dirs filename;;
      if found then ret tt
      else
        where_ <- match catalog_dir with
                  | Some d => ret (path_str d)
                  | None => c <- Path_cwd;; ret (path_str c)
                  end;;
        print [Txt ("ERROR: Required catalog file '" +:+ filename +:+ "' not found in '"
                    +:+ where_ +:+ "' or current directory.")];;
        print_hint star_catalog;;
        sys_exit exit_catalog_missing
  end.

(** ** [_generate_db_core] (lines 104-112) and [cmd_generate_db] (lines 78-101) *)

Definition _generate_db_core (args : gen_args) (out_path : Path) : M unit :=
  t3 <- new_Tetra3 None;;
  call_generate_database t3
    (mkGenCall (min_fov args) (max_fov args) (star_catalog args)
               (star_max_magnitude args) (path_str out_path)).

Definition cmd_generate_db (args : gen_args) : M unit :=
  out_path <- resolved (output args);;
  mkdir_p (parent out_path);;
  catalog_dir <- match if_set (catalog_dir args) with
                 | Some s => d <- resolved s;; ret (Some d)
                 | None => ret None
                 end;;
  ensure_catalog_available (star_catalog args) catalog_dir;;
  t <- now_iso;;
  print [Txt ("[" +:+ t +:+ "] Generating database...")];;
  print [Txt ("  star_catalog     : " +:+ star_catalog args)];;
  print [Txt ("  catalog_dir      : "
              +:+ match catalog_dir with Some d => path_str d | None => "(current dir)" end)];;
  print [Txt "  FOV range (deg)  : "; Val (VFloat (min_fov args));
         Txt " -> "; Val (VFloat (max_fov args))];;
  print [Txt "  mag limit        : "; Val (VFloat (star_max_magnitude args))];;
  print [Txt ("  output db        : " +:+ path_str out_path)];;
  match catalog_dir with
  | Some d => pushd d (_generate_db_core args out_path)
  | None => _generate_db_core args out_path
  end;;
  print [Txt ("[OK] Database created: " +:+ path_str out_path)].

(** ** [parse_extract_dict] (lines 115-123) *)

Definition parse_extract_dict (args : solve_args) : list (string * pyval) :=
  match min_sum args with Some n => [("min_sum", VInt n)] | None => [] end
  ++ match max_axis_ratio args with Some r => [("max_axis_ratio", VFloat r)] | None => [] end
  ++ match min_distance args with Some n => [("min_distance", VInt n)] | None => [] end.

(** ** [cmd_solve] (lines 126-198) *)

Definition image_exts : list string :=
  [".jpg"; ".jpeg"; ".png"; ".tif"; ".tiff"; ".bmp"; ".fits"].

(** [[*pth.glob("*.jpg"), *pth.glob("*.jpeg"), ...]] *)
Fixpoint glob_all (pth : Path) (exts : list string) : M (list Path) :=
  match exts with
  | [] => ret []
  | e :: r => a <- glob pth e;; b <- glob_all pth r;; ret (a ++ b)
  end.

(** One turn of the loop of lines 134-141 *)
Definition expand_one (p : string) : M (list Path) :=
  pth <- expanduser (Path_of p);;
  d <- is_dir pth;;
  if d then l <- glob_all pth image_exts;; ret (sorted l)
  else ret [pth].

Fixpoint expand_images (args : list string) (images : list Path) : M (list Path) :=
  match args with
  | [] => ret images
  | p :: r => l <- expand_one p;; expand_images r (images ++ l)
  end.

Definition csv_header : row :=
  [VStr "image"; VStr "success"; VStr "ra_deg"; VStr "dec_deg";
   VStr "rotation_deg"; VStr "fov_deg"].

(** The row of line 178, [img] being [str(img)] *)
Definition error_row (img : string) : row :=
  [VStr img; VBool false; VStr ""; VStr ""; VStr ""; VStr ""].

(** The row of lines 181-185 and 193 *)
Definition result_row (img : string) (res : dict) : row :=
  [VStr img;
   VBool (truthy (dict_get res "success" (VBool false)));
   dict_get res "ra_deg" (VStr "");
   dict_get res "dec_deg" (VStr "");
   dict_get res "rotation_deg" (VStr "");
   dict_get res "fov_deg" (VStr "")].

(** What lines 127-163 leave behind for the loop *)
Record setup := mkSetup {
  s_images : list Path;
  s_t3 : t3_handle;
  s_extract_dict : list (string * pyval);
  s_csv : option (nat * Path) }. (* csv_file, csv_path *)

(** Lines 127-153: database check, image expansion, database load *)
Definition solve_preflight (args : solve_args)
  : M (list Path * t3_handle * list (string * pyval)) :=
  db_path <- resolved (database args);;
  ex <- exists_ db_path;;
  (if ex then ret tt
   else print [Txt ("ERROR: Database file not found: " +:+ path_str db_path)];;
        print [Txt "Generate it first with the 'generate-db' command."];;
        sys_exit exit_database_missing);;
  imgs <- expand_images (images args) [];;
  match imgs with
  | [] => print [Txt "ERROR: No images to solve."];; sys_exit exit_no_images
  | _ => ret tt
  end;;
  t <- now_iso;;
  print [Txt ("[" +:+ t +:+ "] Loading database: " +:+ path_str db_path)];;
  t3 <- new_Tetra3 (Some (path_str db_path));;
  let extract_dict := parse_extract_dict args in
  print [Txt "FOV estimate: "; Val (VFloat (fov_estimate args));
         Txt " deg  |  FOV max error: "; Val (VFloat (fov_max_error args)); Txt " deg"];;
  match extract_dict with
  | [] => ret tt
  | _ => print [Txt "extract_dict: "; DictRepr extract_dict]
  end;;
  ret (imgs, t3, extract_dict).

(** Lines 155-163: the CSV destination, opened with its header *)
Definition open_csv (args : solve_args) : M (option (nat * Path)) :=
  match if_set (csv args) with
  | Some s =>
      csv_path <- resolved s;;
      mkdir_p (parent csv_path);;
      csv_file <- open_w csv_path;;
      writerow csv_file csv_header;;
      ret (Some (csv_file, csv_path))
  | None => ret None
  end.

Definition solve_setup (args : solve_args) : M setup :=
  pre <- solve_preflight args;;
  c <- open_csv args;;
  ret (mkSetup pre.1.1 pre.1.2 pre.2 c).

(** The arguments of the call of lines 169-174 *)
Definition call_for (args : solve_args) (s : setup) (img : Path) : solve_call :=
  mkSolveCall (path_str img) (fov_estimate args) (fov_max_error args)
              (match s_extract_dict s with [] => None | d => Some d end).

(** The body of the [for] loop, lines 167-193.  [None] is the [continue]
    of line 179. *)
Definition solve_one (args : solve_args) (s : setup) (img : Path) : M unit :=
  print [Txt (nl +:+ "Solving: " +:+ path_str img)];;
  r <- try_except
         (res <- call_solve_from_image (s_t3 s) (call_for args s img);;
          ret (Some res))
         (fun _ msg =>
            print [Txt ("  ERROR during solve: " +:+ msg)];;
            match s_csv s with
            | Some (fd, _) => writerow fd (error_row (path_str img))
            | None => ret tt
            end;;
            ret None);;
  match r with
  | None => ret tt
  | Some res =>
      (if truthy (dict_get res "success" (VBool false))
       then print [Txt "  SUCCESS  RA="; Val (dict_get res "ra_deg" (VStr ""));
                   Txt "  DEC="; Val (dict_get res "dec_deg" (VStr ""));
                   Txt "  ROT="; Val (dict_get res "rotation_deg" (VStr ""));
                   Txt "  FOV="; Val (dict_get res "fov_deg" (VStr ""))]
       else print [Txt "  FAILED"]);;
      match s_csv s with
      | Some (fd, _) => writerow fd (result_row (path_str img) res)
      | None => ret tt
      end
  end.

Fixpoint solve_loop (args : solve_args) (s : setup) (imgs : list Path) : M unit :=
  match imgs with
  | [] => ret tt
  | img :: rest => solve_one args s img;; solve_loop args s rest
  end.

(** Lines 165-198: the loop under its [finally]. *)
Definition solve_batch (args : solve_args) (s : setup) : M unit :=
  try_finally
    (solve_loop args s (s_images s))
    (match s_csv s with
     | Some (fd, csv_path) =>
         close fd;;
         print [Txt (nl +:+ "[OK] Results saved to CSV: " +:+ path_str csv_path)]
     | None => ret tt
     end).

Definition cmd_solve (args : solve_args) : M unit :=
  s <- solve_setup args;;
  solve_batch args s.

(** ** [main] (lines 236-244) and the script entry (line 248) *)

Inductive command :=
| GenerateDb (args : gen_args)
| Solve (args : solve_args).

Definition func (c : command) : M unit :=
  match c with
  | GenerateDb args => cmd_generate_db args
  | Solve args => cmd_solve args
  end.

Definition main (c : command) : M Z :=
  fun w => match func c w with
           | (Ok _, w1) => (Ok exit_ok, w1)
           | (Raise KeyboardInterrupt, w1) =>
               (print [Txt (nl +:+ "Interrupted.")];; ret exit_interrupted) w1
           | (Raise e, w1) => (Raise e, w1)
           end.

(** [sys.exit(main())]: the status the process ends with.  An exception
    that nothing catches ends it with a traceback and status 1. *)
Definition exit_status (c : command) (w : World) : Z * World :=
  match main c w with
  | (Ok n, w1) => (n, w1)
  | (Raise (SystemExit n), w1) => (n, w1)
  | (Raise _, w1) => (1%Z, w1)
  end.

End Pipeline.

(** * Vocabulary of the statements *)

(** ** Observations on the log *)

(** The solver calls of a run, with their outcomes, in call order. *)
Definition solved (evs : list event) : list (solve_call * result dict) :=
  omap (fun e => match e with EvSolve c out => Some (c, out) | _ => None end) evs.

(** The locations probed with [exists()], in probe order. *)
Definition probed (evs : list event) : list (list string) :=
  omap (fun e => match e with EvExists loc => Some loc | _ => None end) evs.

(** The rows handed to a CSV writer, in order. *)
Definition written (evs : list event) : list row :=
  omap (fun e => match e with EvWriteRow _ r => Some r | _ => None end) evs.

(** The lines printed, in order. *)
Definition printed (evs : list event) : list (list piece) :=
  omap (fun e => match e with EvPrint l => Some l | _ => None end) evs.

(** The working-directory changes, library constructions and generator
    calls, in order. *)
Definition scope_trace (evs : list event) : list event :=
  omap (fun e => match e with
                 | EvChdir _ | EvTetra3 _ | EvGenerate _ _ _ => Some e
                 | _ => None
                 end) evs.

(** ** Well-formed worlds *)

(** The working directory is the canonical path of a directory that exists,
    as the operating system keeps it. *)
Definition world_ok (w : World) : Prop :=
  normalize (cwd w) = cwd w /\ is_dir_at (fs w) (cwd w) = true.

(** Every directory of [f] is still one in [f']. *)
Definition dirs_kept (f f' : gmap (list string) node) : Prop :=
  forall k, is_dir_at f k = true -> is_dir_at f' k = true.

(** ** The course of the solve loop *)

Section Traces.
Context `{lib : Tetra3Lib}.

(** How a run of the loop over [imgs] can go: the solver calls made, the
    rows handed to the CSV writer, and the way the loop ends.  A call that
    returns, or raises an [Exception], yields a row and lets the loop go
    on; any other exception ends the loop at that image. *)
Inductive loop_trace (args : solve_args) (s : setup)
  : list Path -> list (solve_call * result dict) -> list row -> result unit -> Prop :=
| trace_done : loop_trace args s [] [] [] (Ok tt)
| trace_solved img imgs res calls rows r w :
    solve_from_image (s_t3 s) (call_for args s img) w = Ok res ->
    loop_trace args s imgs calls rows r ->
    loop_trace args s (img :: imgs) ((call_for args s img, Ok res) :: calls)
               (result_row (path_str img) res :: rows) r
| trace_caught img imgs kind msg calls rows r w :
    solve_from_image (s_t3 s) (call_for args s img) w = Raise (Exception kind msg) ->
    loop_trace args s imgs calls rows r ->
    loop_trace args s (img :: imgs) ((call_for args s img, Raise (Exception kind msg)) :: calls)
               (error_row (path_str img) :: rows) r
| trace_aborted img imgs e w :
    solve_from_image (s_t3 s) (call_for args s img) w = Raise e ->
    is_Exception e = false ->
    loop_trace args s (img :: imgs) [(call_for args s img, Raise e)] [] (Raise e).

(** What the loop prints around one solver call (lines 167, 176, 188, 190) *)
Definition console_lines (call : solve_call * result dict) : list (list piece) :=
  [Txt (nl +:+ "Solving: " +:+ sc_image call.1)] ::
  match call.2 with
  | Ok res =>
      if truthy (dict_get res "success" (VBool false))
      then [[Txt "  SUCCESS  RA="; Val (dict_get res "ra_deg" (VStr ""));
             Txt "  DEC="; Val (dict_get res "dec_deg" (VStr ""));
             Txt "  ROT="; Val (dict_get res "rotation_deg" (VStr ""));
             Txt "  FOV="; Val (dict_get res "fov_deg" (VStr ""))]]
      else [[Txt "  FAILED"]]
  | Raise (Exception _ msg) => [[Txt ("  ERROR during solve: " +:+ msg)]]
  | Raise _ => []
  end.

(** The CSV handle of the setup is open on a file holding [content]. *)
Definition csv_ready (s : setup) (w : World) (content : list row) : Prop :=
  match s_csv s with
  | Some (fd, pth) =>
      fds w !! fd = Some (locate (cwd w) pth) /\
      fs w !! locate (cwd w) pth = Some (File content)
  | None => True
  end.

(** The row that the loop writes for a call *)
Definition row_logged (call : solve_call * result dict) (r : row) : Prop :=
  match call.2 with
  | Ok res => r = result_row (sc_image call.1) res
  | Raise _ => r = error_row (sc_image call.1)
  end.

End Traces.

(** * A concrete world

    A small filesystem and a stand-in for the library, on which the
    statements below are exercised. *)

Module Example.

Definition stale : list row := [[VStr "image"; VStr "old"]; [VStr "x.png"; VStr "yes"]].

Definition files : gmap (list string) node :=
  list_to_map
    [(["cat"], Dir); (["cat"; "hip_main.dat"], File []);
     (["home"], Dir); (["home"; "u"], Dir); (["home"; "u"; "hip_main.dat"], File []);
     (["data"], Dir); (["data"; "b.png"], File []); (["data"; "a.jpg"], File []);
     (["data"; "c.fits"], File []); (["data"; "d.txt"], File []);
     (["empty"], Dir);
     (["db.npz"], File []);
     (["out"], Dir); (["out"; "r.csv"], File stale)].

Definition world : World :=
  mkWorld ["home"; "u"] {[ "" := ["home"; "u"] ]} "2024-03-01T21:15:00" files ∅ 3 [].

(** A solver that cannot read [b.png], finds no match in [c.fits] and still
    reports a right ascension for it, and solves everything else. *)
Definition solver (c : solve_call) : result dict :=
  if String.eqb (sc_image c) "/data/b.png"
  then Raise (Exception "ValueError" "cannot identify image file")
  else if String.eqb (sc_image c) "/data/c.fits"
  then Ok {[ "success" := VBool false; "ra_deg" := VFloat 10.5 ]}
  else Ok {[ "success" := VBool true; "ra_deg" := VFloat 201.25; "dec_deg" := VFloat (-11.5);
             "rotation_deg" := VFloat 90; "fov_deg" := VFloat 34.5 ]}.

#[local] Instance lib : Tetra3Lib := {|
  t3_handle := unit;
  Tetra3 := fun _ _ => Ok tt;
  generate_database := fun _ _ _ => Ok [];
  solve_from_image := fun _ c _ => solver c |}.

(** A library interrupted in mid-work: the generator always, the solver on
    [b.png]. *)
Definition interrupted_lib : Tetra3Lib := {|
  t3_handle := unit;
  Tetra3 := fun _ _ => Ok tt;
  generate_database := fun _ _ _ => Raise KeyboardInterrupt;
  solve_from_image := fun _ c _ =>
    if String.eqb (sc_image c) "/data/b.png" then Raise KeyboardInterrupt else solver c |}.

Definition solve_data : solve_args :=
  mkSolveArgs ["/data"] "/db.npz" 35 1.5 (Some 500%Z) (Some 1.5%float) (Some 4%Z)
              (Some "/out/r.csv").

Definition cat : Path := mkPath true ["cat"].

Definition csv_path : Path := mkPath true ["out"; "r.csv"].

(** The preparation of the loop for [solve_data], under either library *)
Definition prepared (l : Tetra3Lib) : result (@setup l) * World :=
  @solve_setup l solve_data world.

Definition prepared_setup (l : Tetra3Lib) (dflt : @t3_handle l) : @setup l :=
  match (prepared l).1 with
  | Ok s => s
  | Raise _ => mkSetup [] dflt [] None
  end.

(** The same run without CSV logging *)
Definition solve_console : solve_args :=
  mkSolveArgs ["/data"] "/db.npz" 35 1.5 (Some 500%Z) (Some 1.5%float) (Some 4%Z) None.

(** An empty directory as only argument, with and without a database *)
Definition solve_empty : solve_args :=
  mkSolveArgs ["/empty"] "/db.npz" 35 1.5 None None None None.

Definition solve_empty_no_database : solve_args :=
  mkSolveArgs ["/empty"] "/missing.npz" 35 1.5 None None None None.

Definition generate : gen_args :=
  mkGenArgs "hip_main" (Some "/cat") 30 36 8 "/out/db.npz".

End Example.

(** * Further vocabulary *)

(** ** Proper names *)

(** A path component as the operating system accepts it *)
Definition name_ok (c : string) : Prop :=
  c <> "" /\ c <> "." /\ "/"%char ∉ list_ascii_of_string c.

(** The working directory and the home directories are made of such
    components. *)
Definition names_ok (w : World) : Prop :=
  Forall name_ok (cwd w) /\ map_Forall (fun _ h => Forall name_ok h) (homes w).

#[global] Instance name_ok_dec c : Decision (name_ok c).
Proof. unfold name_ok. apply _. Defined.

#[global] Instance names_ok_dec w : Decision (names_ok w).
Proof. unfold names_ok. apply _. Defined.

(** ** The conduct of the library, the banner of generate-db *)

Section Conduct.
Context `{lib : Tetra3Lib}.

(** The library raises nothing but [Exception]s. *)
Definition raises_only_exceptions : Prop :=
  (forall o w e, Tetra3 o w = Raise e -> is_Exception e = true) /\
  (forall t c w e, generate_database t c w = Raise e -> is_Exception e = true) /\
  (forall t c w e, solve_from_image t c w = Raise e -> is_Exception e = true).

(** What lines 88-93 print *)
Definition generate_banner (args : gen_args) (t : string) (cd : option Path) (out : Path)
  : list (list piece) :=
  [[Txt ("[" +:+ t +:+ "] Generating database...")];
   [Txt ("  star_catalog     : " +:+ star_catalog args)];
   [Txt ("  catalog_dir      : "
          +:+ match cd with Some d => path_str d | None => "(current dir)" end)];
   [Txt "  FOV range (deg)  : "; Val (VFloat (min_fov args));
    Txt " -> "; Val (VFloat (max_fov args))];
   [Txt "  mag limit        : "; Val (VFloat (star_max_magnitude args))];
   [Txt ("  output db        : " +:+ path_str out)]].

End Conduct.

(** ** Ways out of a command *)

(** A result that is a value, an [Exception], or [SystemExit] with one of
    the given statuses. *)
Definition allowed (codes : list Z) {A} (r : result A) : Prop :=
  match r with
  | Ok _ => True
  | Raise (Exception _ _) => True
  | Raise (SystemExit n) => n ∈ codes
  | Raise _ => False
  end.

(** A computation that ends in no other way, whatever the world. *)
Definition leaves_by (codes : list Z) {A} (m : M A) : Prop :=
  forall w, allowed codes (m w).1.

(** ** What a command leaves alone *)

(** Between [w] and [w'] the open files are the same and no entry of the
    filesystem has changed, the one at [loc] apart. *)
Definition only_at (loc : list string) (w w' : World) : Prop :=
  fds w' = fds w /\ forall k, k <> loc -> fs w' !! k = fs w !! k.

(** ** More cases on the concrete world *)

Module Cases.

(** A body that moves elsewhere and leaves through [sys.exit] *)
Definition wanders : M unit := chdir (mkPath true ["data"]);; sys_exit 7.

(** A body that removes the directory it was started from *)
Definition removes_start : M unit :=
  fun w => (Ok tt, set_fs (delete ["home"; "u"] (fs w)) w).

(** generate-db with the catalog in the working directory *)
Definition generate_here : gen_args :=
  mkGenArgs "hip_main" None 30 36 8 "out/db.npz".

(** generate-db with a catalog directory and a relative output path *)
Definition generate_relative : gen_args :=
  mkGenArgs "hip_main" (Some "/cat") 30 36 8 "out/db.npz".

(** generate-db for a catalog that is not in the table *)
Definition generate_unsupported : gen_args :=
  mkGenArgs "gaia_dr3" (Some "/cat") 30 36 8 "/new/dir/db.npz".

(** generate-db with a catalog directory that does not exist, the catalog
    lying in the working directory *)
Definition generate_nowhere : gen_args :=
  mkGenArgs "hip_main" (Some "/nocat") 30 36 8 "/out/db.npz".

(** A text file and an empty directory as image arguments *)
Definition solve_text : solve_args :=
  mkSolveArgs ["/data/d.txt"; "/empty"] "/db.npz" 35 1.5 None None None None.

End Cases.

(** * Properties *)

Ltac by_evaluation := apply (bool_decide_unpack _); vm_compute; exact I.

Ltac no_solver_call H :=
  unfold solved in *; cbn; repeat (rewrite omap_app; cbn); rewrite ?H; cbn; done.


Section Properties.
Context `{lib : Tetra3Lib}.

(** ** The definitions at work on small inputs *)

Example Path_of_drops_empty_and_dot :
  Path_of "a//b/./c/" = mkPath false ["a"; "b"; "c"].
Proof. reflexivity. Qed.

Example path_str_of_Path_of : path_str (Path_of "/data/a.jpg") = "/data/a.jpg".
Proof. reflexivity. Qed.

Example normalize_at_root : normalize ["a"; ".."; ".."; "b"] = ["b"].
Proof. reflexivity. Qed.

Example ends_with_is_case_sensitive :
  ends_with ".jpg" "a.jpg" = true /\ ends_with ".jpg" "a.jpeg" = false
  /\ ends_with ".jpg" "A.JPG" = false.
Proof. by vm_compute. Qed.

Example truthy_of_values :
  truthy (VFloat 0) = false /\ truthy (VStr "") = false /\ truthy VNone = false
  /\ truthy (VInt 1) = true /\ truthy (VStr "no") = true.
Proof. by vm_compute. Qed.

Example sorted_orders_by_name :
  sorted [mkPath true ["d"; "b.png"]; mkPath true ["d"; "a.jpg"]; mkPath true ["d"; "B.png"]]
  = [mkPath true ["d"; "B.png"]; mkPath true ["d"; "a.jpg"]; mkPath true ["d"; "b.png"]].
Proof. by vm_compute. Qed.

(** ** Exit statuses *)

Lemma exit_codes_distinct : NoDup exit_codes.
Proof. by_evaluation. Qed.

(** ** The path order, the log, directory listings *)

Lemma parts_leb_total a b : parts_leb a b = true \/ parts_leb b a = true.
Proof.
  revert b. induction a as [|x a IH]; intros [|y b]; simpl; auto.
  rewrite (String.compare_antisym x y).
  destruct (String.compare y x); simpl; auto.
Qed.

#[local] Instance path_le_total : Total path_le.
Proof. intros p q. apply parts_leb_total. Qed.

Lemma compare_refl x : String.compare x x = Eq.
Proof.
  pose proof (String.compare_antisym x x) as H.
  destruct (String.compare x x); simpl in H; congruence.
Qed.

Lemma compare_Lt_trans x y z :
  String.compare x y = Lt -> String.compare y z = Lt -> String.compare x z = Lt.
Proof.
  intros Hxy Hyz.
  assert (Hle : String.le x z).
  { transitivity y; unfold String.le, String.leb; [by rewrite Hxy | by rewrite Hyz]. }
  unfold String.le, String.leb in Hle.
  destruct (String.compare x z) eqn:Hxz; [|done|done].
  apply String.compare_eq_iff in Hxz as ->.
  rewrite String.compare_antisym, Hyz in Hxy. discriminate.
Qed.

Lemma parts_leb_trans a : forall b c,
  parts_leb a b = true -> parts_leb b c = true -> parts_leb a c = true.
Proof.
  induction a as [|x a IH]; intros [|y b] [|z c]; simpl; try done.
  destruct (String.compare x y) eqn:Hxy; [| |done];
    destruct (String.compare y z) eqn:Hyz; try done.
  - apply String.compare_eq_iff in Hxy as ->. apply String.compare_eq_iff in Hyz as ->.
    rewrite compare_refl. apply IH.
  - apply String.compare_eq_iff in Hxy as ->. by rewrite Hyz.
  - apply String.compare_eq_iff in Hyz as <-. by rewrite Hxy.
  - by rewrite (compare_Lt_trans x y z).
Qed.

Lemma parts_leb_common_prefix l n n' :
  parts_leb (l ++ [n]) (l ++ [n']) = String.leb n n'.
Proof.
  induction l as [|x l IH]; simpl.
  - unfold String.leb. by destruct (String.compare n n').
  - by rewrite compare_refl.
Qed.

(** Within one directory the path order is the order of the names. *)
Lemma path_le_child pth n n' :
  path_le (child pth n) (child pth n') <-> String.leb n n' = true.
Proof.
  unfold path_le, cparts, child. cbn [p_abs p_parts].
  destruct (p_abs pth).
  - change ("/" :: p_parts pth ++ [n]) with (("/" :: p_parts pth) ++ [n]).
    change ("/" :: p_parts pth ++ [n']) with (("/" :: p_parts pth) ++ [n']).
    by rewrite parts_leb_common_prefix.
  - by rewrite parts_leb_common_prefix.
Qed.

#[local] Instance path_le_trans : Transitive path_le.
Proof. intros p q r. apply parts_leb_trans. Qed.


Lemma emits_emits evs1 evs2 w : emits evs2 (emits evs1 w) = emits (evs1 ++ evs2) w.
Proof. unfold emits. simpl. by rewrite <- app_assoc. Qed.

Lemma emits_nil w : emits [] w = w.
Proof. destruct w. unfold emits. simpl. by rewrite app_nil_r. Qed.

Lemma glob_all_spec pth exts w :
  glob_all pth exts w =
    (Ok (mjoin ((fun e => glob_entries (fs w) (cwd w) pth e) <$> exts)),
     emits (EvGlob (locate (cwd w) pth) <$> exts) w).
Proof.
  revert w. induction exts as [|e exts IH]; intros w.
  - simpl. unfold ret. by rewrite emits_nil.
  - simpl. unfold bind at 1. unfold glob at 1. unfold bind at 1.
    rewrite IH. simpl. unfold ret. f_equal.
    change (emit ?e w) with (emits [e] w).
    by rewrite emits_emits.
Qed.

Lemma expanduser_state p w : (expanduser p w).2 = w.
Proof. unfold expanduser. repeat case_match; done. Qed.

Lemma expanduser_emits p evs w : (expanduser p (emits evs w)).1 = (expanduser p w).1.
Proof. unfold expanduser. simpl. repeat case_match; done. Qed.

Lemma expand_one_spec p pth w :
  (expanduser (Path_of p) w).1 = Ok pth ->
  expand_one p w =
    if is_dir_at (fs w) (locate (cwd w) pth)
    then (Ok (sorted (mjoin ((fun e => glob_entries (fs w) (cwd w) pth e) <$> image_exts))),
          emits (EvIsDir (locate (cwd w) pth) :: (EvGlob (locate (cwd w) pth) <$> image_exts)) w)
    else (Ok [pth], emit (EvIsDir (locate (cwd w) pth)) w).
Proof.
  intros He. unfold expand_one, bind at 1.
  pose proof (expanduser_state (Path_of p) w) as Hs.
  destruct (expanduser (Path_of p) w) as [r w1]. simpl in He, Hs. subst r w1.
  unfold bind at 1, is_dir at 1.
  destruct (is_dir_at (fs w) (locate (cwd w) pth)); [|done].
  unfold bind. rewrite glob_all_spec. unfold ret. cbn [fs cwd emit]. f_equal.
  change (emit ?e w) with (emits [e] w). by rewrite emits_emits.
Qed.

Lemma expand_one_raise p e w :
  (expanduser (Path_of p) w).1 = Raise e -> expand_one p w = (Raise e, w).
Proof.
  intros He. unfold expand_one, bind at 1.
  pose proof (expanduser_state (Path_of p) w) as Hs.
  destruct (expanduser (Path_of p) w) as [r w1]. simpl in He, Hs. by subst r w1.
Qed.

Lemma expand_one_emits p evs w : (expand_one p (emits evs w)).1 = (expand_one p w).1.
Proof.
  destruct ((expanduser (Path_of p) w).1) as [pth|e] eqn:He.
  - rewrite (expand_one_spec p pth w He).
    rewrite (expand_one_spec p pth (emits evs w)); [|by rewrite expanduser_emits].
    cbn [fs cwd emits]. by destruct (is_dir_at _ _).
  - rewrite (expand_one_raise p e w He).
    by rewrite (expand_one_raise p e (emits evs w)); [|by rewrite expanduser_emits].
Qed.

Lemma expand_one_log p w :
  exists evs, (expand_one p w).2 = emits evs w /\
              solved evs = [] /\ scope_trace evs = [] /\ printed evs = [].
Proof.
  destruct ((expanduser (Path_of p) w).1) as [pth|e] eqn:He.
  - rewrite (expand_one_spec p pth w He). destruct (is_dir_at _ _); eexists; (split; [reflexivity|done]).
  - exists []. rewrite (expand_one_raise p e w He). by rewrite emits_nil.
Qed.

Lemma expand_images_spec args : forall acc w,
  exists evs, (expand_images args acc w).2 = emits evs w /\
    solved evs = [] /\ scope_trace evs = [] /\ printed evs = [] /\
    forall imgs, (expand_images args acc w).1 = Ok imgs ->
      exists chunks, imgs = acc ++ mjoin chunks /\
        Forall2 (fun p chunk => (expand_one p w).1 = Ok chunk) args chunks.
Proof.
  induction args as [|p args IH]; intros acc w.
  - exists []. simpl. rewrite emits_nil. repeat split; try done.
    intros imgs [= <-]. exists []. by rewrite app_nil_r.
  - simpl. unfold bind.
    destruct (expand_one_log p w) as (evs1 & Hw1 & Hs1 & Ht1 & Hp1).
    destruct (expand_one p w) as [[l|e] w1] eqn:Hone; simpl in Hw1; subst w1.
    + destruct (IH (acc ++ l) (emits evs1 w)) as (evs2 & Hw2 & Hs2 & Ht2 & Hp2 & Himgs).
      exists (evs1 ++ evs2). rewrite Hw2, emits_emits.
      unfold solved, scope_trace, printed in *. rewrite !omap_app, Hs1, Hs2, Ht1, Ht2, Hp1, Hp2.
      repeat split; try done.
      intros imgs Hi. destruct (Himgs imgs Hi) as (chunks & -> & HF).
      exists (l :: chunks). simpl. rewrite app_assoc. split; [done|].
      constructor; [by rewrite Hone|].
      eapply Forall2_impl; [exact HF|]. intros q c Hq. cbv beta in Hq. by rewrite expand_one_emits in Hq.
    + exists evs1. simpl. repeat split; try done.
Qed.


Lemma ends_with_suffix e n :
  ends_with e n = true <-> list_ascii_of_string e `suffix_of` list_ascii_of_string n.
Proof. unfold ends_with. by rewrite bool_decide_eq_true. Qed.

Lemma image_exts_exclusive e e' n :
  e ∈ image_exts -> e' ∈ image_exts ->
  ends_with e n = true -> ends_with e' n = true -> e = e'.
Proof.
  intros He He' H1 H2. apply ends_with_suffix in H1, H2.
  assert (Hall : Forall (fun a => Forall (fun b =>
            list_ascii_of_string a `suffix_of` list_ascii_of_string b -> a = b) image_exts)
            image_exts) by by_evaluation.
  rewrite Forall_forall in Hall.
  destruct (suffix_weak_total _ _ _ H1 H2) as [H|H].
  - specialize (Hall e He). rewrite Forall_forall in Hall. by apply Hall.
  - specialize (Hall e' He'). rewrite Forall_forall in Hall. symmetry. by apply Hall.
Qed.

#[local] Instance child_inj pth : Inj (=) (=) (child pth).
Proof. intros a b [= H]. by apply app_inv_head in H as [= ->]. Qed.

Lemma strip_prefix_name d k name : strip_prefix d k = Some [name] -> k = d ++ [name].
Proof.
  unfold strip_prefix. case_decide as Ht; [|done]. intros [= Hd].
  by rewrite <- (take_drop (length d) k), Ht, Hd.
Qed.

Lemma listdir_spec f d name : name ∈ listdir f d <-> is_Some (f !! (d ++ [name])).
Proof.
  unfold listdir. rewrite list_elem_of_omap. split.
  - intros ([k v] & Hin & Hg). simpl in Hg.
    destruct (strip_prefix d k) as [[|n [|]]|] eqn:Hs; try done.
    injection Hg as ->. apply strip_prefix_name in Hs as ->.
    apply elem_of_map_to_list in Hin. eauto.
  - intros [v Hv]. exists (d ++ [name], v). split; [by apply elem_of_map_to_list|].
    simpl. unfold strip_prefix. rewrite take_app_length, decide_True by done.
    by rewrite drop_app_length.
Qed.

Lemma listdir_NoDup f d : NoDup (listdir f d).
Proof.
  unfold listdir.
  assert (Hinj : forall x y z, x ∈ map_to_list f -> y ∈ map_to_list f ->
            match strip_prefix d x.1 with Some [n] => Some n | _ => None end = Some z ->
            match strip_prefix d y.1 with Some [n] => Some n | _ => None end = Some z ->
            x = y).
  { intros [k1 v1] [k2 v2] z H1 H2 G1 G2. simpl in *.
    destruct (strip_prefix d k1) as [[|n1 [|]]|] eqn:S1; try done.
    destruct (strip_prefix d k2) as [[|n2 [|]]|] eqn:S2; try done.
    injection G1 as ->. injection G2 as ->.
    apply strip_prefix_name in S1 as ->. apply strip_prefix_name in S2 as ->.
    apply elem_of_map_to_list in H1, H2. congruence. }
  pose proof (NoDup_map_to_list f) as Hnd.
  induction Hnd as [|x l Hx Hnd IH]; [constructor|].
  simpl. destruct (strip_prefix d x.1) as [[|n [|]]|] eqn:Sx;
    try (apply IH; intros; eapply Hinj; eauto using list_elem_of_further).
  constructor.
  - rewrite list_elem_of_omap. intros (y & Hy & Gy).
    assert (x = y) as <-; [|done].
    eapply (Hinj x y n); [left|by right| by rewrite Sx|done].
  - apply IH. intros; eapply Hinj; eauto using list_elem_of_further.
Qed.

Lemma glob_entries_spec f wd pth ext q :
  q ∈ glob_entries f wd pth ext <->
  is_dir_at f (locate wd pth) = true /\
  exists name, q = child pth name /\ name ∈ listdir f (locate wd pth) /\ ends_with ext name = true.
Proof.
  unfold glob_entries, is_dir_at.
  destruct (fs_get f (locate wd pth)) as [[|c]|].
  2,3: split; [by intros ?%elem_of_nil | by intros [? _]].
  rewrite list_elem_of_fmap. split.
  - intros (n & -> & Hn). apply list_elem_of_filter in Hn as [Hend Hn]. eauto.
  - intros (_ & n & -> & Hn & Hend). exists n. split; [done|]. by apply list_elem_of_filter.
Qed.

Lemma glob_entries_NoDup f wd pth ext : NoDup (glob_entries f wd pth ext).
Proof.
  unfold glob_entries. destruct (fs_get f (locate wd pth)) as [[|c]|]; try constructor.
  apply NoDup_fmap; [apply _|]. apply NoDup_filter, listdir_NoDup.
Qed.

Lemma globs_NoDup f wd pth exts :
  NoDup exts -> exts ⊆ image_exts ->
  NoDup (mjoin ((fun e => glob_entries f wd pth e) <$> exts)).
Proof.
  induction 1 as [|e exts He Hnd IH]; intros Hsub; [constructor|].
  simpl. apply NoDup_app. split; [apply glob_entries_NoDup|]. split.
  - intros q Hq Hq'. apply glob_entries_spec in Hq as (_ & n & -> & _ & Hn).
    apply list_elem_of_join in Hq' as (chunk & Hq' & Hc).
    apply list_elem_of_fmap in Hc as (e' & -> & He').
    apply glob_entries_spec in Hq' as (_ & n' & Heq & _ & Hn').
    apply (inj _) in Heq as <-.
    assert (e = e') as <-; [|done].
    eapply image_exts_exclusive; eauto; apply Hsub; set_solver.
  - apply IH. set_solver.
Qed.

(** ** Image expansion *)

Lemma sorted_globs_NoDup f wd pth :
  NoDup (sorted (mjoin ((fun e => glob_entries f wd pth e) <$> image_exts))).
Proof.
  unfold sorted. rewrite merge_sort_Permutation.
  apply globs_NoDup; [by_evaluation | done].
Qed.

Lemma expand_one_NoDup p w chunk : (expand_one p w).1 = Ok chunk -> NoDup chunk.
Proof.
  destruct ((expanduser (Path_of p) w).1) as [pth|e] eqn:He.
  - rewrite (expand_one_spec p pth w He).
    destruct (is_dir_at _ _); intros [= <-].
    + apply sorted_globs_NoDup.
    + apply NoDup_singleton.
  - by rewrite (expand_one_raise p e w He).
Qed.

(** C6.  For a directory argument the expansion is sorted by the path order
    (every path is below all that follow it), which within a directory is
    the lexicographic order of the names; it holds no path twice, and holds
    exactly the entries of that directory whose name ends with one of the
    seven whitelisted extensions: every other entry is left out.  On the
    directory with [b.png], [a.jpg], [c.fits] and [d.txt] it is [a.jpg],
    [b.png], [c.fits]. *)
Theorem directory_expansion_sorted_whitelist (p : string) (pth : Path) (w : World) :
  (expanduser (Path_of p) w).1 = Ok pth ->
  is_dir_at (fs w) (locate (cwd w) pth) = true ->
  (exists imgs w',
    expand_one p w = (Ok imgs, w') /\
    StronglySorted path_le imgs /\ NoDup imgs /\
    (forall n n', path_le (child pth n) (child pth n') <-> String.leb n n' = true) /\
    forall q, q ∈ imgs <->
      exists name, q = child pth name /\
                   name ∈ listdir (fs w) (locate (cwd w) pth) /\
                   exists e, e ∈ image_exts /\ ends_with e name = true)
  /\ (expand_images ["/data"] [] Example.world).1 =
       Ok [mkPath true ["data"; "a.jpg"]; mkPath true ["data"; "b.png"];
           mkPath true ["data"; "c.fits"]].
Proof.
  intros He Hd. split; [|by vm_compute].
  rewrite (expand_one_spec p pth w He), Hd.
  do 2 eexists. split; [reflexivity|]. split; [apply (StronglySorted_merge_sort path_le)|].
  split; [apply sorted_globs_NoDup|]. split; [apply path_le_child|].
  intros q. unfold sorted. rewrite merge_sort_Permutation, list_elem_of_join. split.
  - intros (chunk & Hq & Hc). apply list_elem_of_fmap in Hc as (e & -> & Hin).
    apply glob_entries_spec in Hq as (_ & n & -> & Hn & Hend). eauto 10.
  - intros (n & -> & Hn & e & Hin & Hend).
    exists (glob_entries (fs w) (cwd w) pth e). split.
    + apply glob_entries_spec. eauto.
    + apply list_elem_of_fmap. eauto.
Qed.

(** C7, as the code has it.  The expanded sequence is the concatenation, in
    argument order, of what each argument expands to on its own; each of
    these pieces is free of repetitions, and nothing is removed when two
    pieces share a path. *)
Theorem expansion_concatenates_arguments (args : list string) (w : World) (imgs : list Path) :
  (expand_images args [] w).1 = Ok imgs ->
  exists chunks,
    imgs = mjoin chunks /\
    Forall2 (fun p chunk => (expand_one p w).1 = Ok chunk /\ NoDup chunk) args chunks.
Proof.
  intros Hi. destruct (expand_images_spec args [] w) as (_ & _ & _ & _ & _ & H).
  destruct (H imgs Hi) as (chunks & -> & HF). exists chunks. split; [done|].
  eapply Forall2_impl; [exact HF|]. intros q c Hq. cbv beta in Hq. split; [exact Hq|]. by eapply expand_one_NoDup.
Qed.

(** ** The catalog check *)

Lemma assoc_unsupported name :
  name <> "hip_main" -> name <> "tyc_main" -> name <> "bsc5" ->
  assoc name required = None.
Proof.
  intros H1 H2 H3. simpl.
  destruct (String.eqb_spec name "hip_main"); [done|].
  destruct (String.eqb_spec name "tyc_main"); [done|].
  destruct (String.eqb_spec name "bsc5"); [done|]. done.
Qed.

(** C5.  A catalog name other than hip_main, tyc_main and bsc5 makes the
    catalog check leave with [SystemExit] of the unsupported-catalog status
    (2, which no other path of the program uses), after one printed line
    that lists the valid names; nothing else happens: the log gains this
    line only, so no existence probe is made, and the rest of the world is
    untouched. *)
Theorem unsupported_catalog_rejected_before_probe
    (name : string) (cd : option Path) (w : World) :
  name <> "hip_main" -> name <> "tyc_main" -> name <> "bsc5" ->
  ensure_catalog_available name cd w =
    (Raise (SystemExit exit_unsupported_catalog),
     emit (EvPrint [Txt ("ERROR: Unsupported star_catalog '" +:+ name
                         +:+ "'. Use one of: hip_main, tyc_main, bsc5")]) w)
  /\ exit_unsupported_catalog = 2%Z
  /\ (exit_unsupported_catalog ∉ [exit_ok; exit_catalog_missing; exit_database_missing;
                                   exit_no_images; exit_interrupted])
  /\ probed (log (ensure_catalog_available name cd w).2) = probed (log w).
Proof.
  intros H1 H2 H3. unfold ensure_catalog_available.
  rewrite (assoc_unsupported name H1 H2 H3).
  split; [reflexivity|]. split; [reflexivity|]. split.
  - by_evaluation.
  - cbn. unfold probed. rewrite omap_app. cbn. by rewrite app_nil_r.
Qed.

(** C4.  For a supported catalog the check probes the catalog directory
    (when one is given) and then the working directory, and stops at the
    first that holds the file: the probes logged are exactly the search
    directories up to and including the first hit, so a file in the catalog
    directory is found without the working directory being looked at.  When
    no directory holds the file the check leaves with [SystemExit] of the
    catalog-missing status (3, used nowhere else), after the error line and
    the hint of that catalog: the download address for hip_main and bsc5,
    the renaming instruction for tyc_main. *)
Theorem catalog_search_first_match
    (name filename : string) (cd : option Path) (w : World) :
  (name, filename) ∈ required ->
  let here := mkPath true (cwd w) in
  let dirs := match cd with Some d => [d] | None => [] end ++ [here] in
  let loc := fun d => locate (cwd w) (joinpath d filename) in
  let has := fun d => bool_decide (is_Some (fs_get (fs w) (loc d))) in
  exists r w',
    ensure_catalog_available name cd w = (r, w') /\
    fs w' = fs w /\ cwd w' = cwd w /\
    match list_find (fun d => has d = true) dirs with
    | Some (i, _) =>
        r = Ok tt /\
        log w' = log w ++ ((fun d => EvExists (loc d)) <$> take (S i) dirs)
    | None =>
        r = Raise (SystemExit exit_catalog_missing) /\
        exit_catalog_missing = 3%Z /\
        (exit_catalog_missing ∉ [exit_ok; exit_unsupported_catalog; exit_database_missing;
                                 exit_no_images; exit_interrupted]) /\
        exists hint,
          log w' = log w ++ ((fun d => EvExists (loc d)) <$> dirs)
                     ++ [EvPrint [Txt ("ERROR: Required catalog file '" +:+ filename
                                       +:+ "' not found in '" +:+ path_str (default here cd)
                                       +:+ "' or current directory.")]]
                     ++ (EvPrint <$> hint) /\
          (name = "hip_main" ->
             hint = [[Txt "Download HIPPARCOS 'hip_main.dat' from:"];
                     [Txt "  https://cdsarc.cds.unistra.fr/ftp/cats/I/239/hip_main.dat"]]) /\
          (name = "bsc5" ->
             hint = [[Txt "Download the BSC5 byte-format file from:"];
                     [Txt "  http://tdc-www.harvard.edu/catalogs/bsc5.html"]]) /\
          (name = "tyc_main" ->
             hint = [[Txt "Ensure you have the correct Tycho-2 main file and rename it to 'tyc_main.dat'."]])
    end.
Proof.
  intros Hin here dirs loc has.
  assert (Hcases : (name, filename) = ("hip_main", "hip_main.dat")
                   \/ (name, filename) = ("tyc_main", "tyc_main.dat")
                   \/ (name, filename) = ("bsc5", "bsc5.dat")).
  { apply list_elem_of_In in Hin. simpl in Hin. intuition. }
  destruct Hcases as [[= -> ->]|[[= -> ->]|[= -> ->]]].
  all: destruct cd as [d|]; subst dirs has loc here;
    unfold ensure_catalog_available, bind, exists_, print, ret, sys_exit, raise, Path_cwd;
    cbn -[locate joinpath path_str String.append];
    unfold bind, exists_, print, ret, sys_exit, raise, Path_cwd;
    cbn -[locate joinpath path_str String.append].
  all: repeat match goal with
       | |- context [bool_decide ?P] =>
           destruct (bool_decide P) eqn:?; cbn -[locate joinpath path_str String.append]
       end.
  all: do 2 eexists; (split; [reflexivity|]); (split; [reflexivity|]); (split; [reflexivity|]).
  all: repeat case_decide; try done.
  all: cbn -[locate joinpath path_str String.append].
  all: try (split; [reflexivity
                   | cbn -[locate joinpath path_str String.append]; by rewrite <- ?app_assoc]).
  all: split; [reflexivity|]; split; [reflexivity|]; split; [by_evaluation|].
  all: match goal with
       | |- context [EvPrint [Txt "Download HIPPARCOS 'hip_main.dat' from:"] ] =>
           exists [[Txt "Download HIPPARCOS 'hip_main.dat' from:"];
                   [Txt "  https://cdsarc.cds.unistra.fr/ftp/cats/I/239/hip_main.dat"]]
       | |- context [EvPrint [Txt "Download the BSC5 byte-format file from:"] ] =>
           exists [[Txt "Download the BSC5 byte-format file from:"];
                   [Txt "  http://tdc-www.harvard.edu/catalogs/bsc5.html"]]
       | _ =>
           exists [[Txt "Ensure you have the correct Tycho-2 main file and rename it to 'tyc_main.dat'."]]
       end.
  all: split; [cbn -[locate joinpath path_str String.append]; by rewrite <- ?app_assoc|].
  all: repeat split; intros; done.
Qed.

(** ** The solve loop *)

Lemma writerow_spec fd loc c r w :
  fds w !! fd = Some loc -> fs w !! loc = Some (File c) ->
  writerow fd r w =
    (Ok tt, emit (EvWriteRow fd r) (set_fs (<[loc := File (c ++ [r])]> (fs w)) w)).
Proof. intros H1 H2. unfold writerow. by rewrite H1, H2. Qed.

Lemma solve_one_spec args s img w c :
  csv_ready s w c ->
  exists r w' evs out rows,
    solve_one args s img w = (r, w') /\
    log w' = log w ++ evs /\
    solved evs = [(call_for args s img, out)] /\
    printed evs = console_lines (call_for args s img, out) /\
    (exists w0, solve_from_image (s_t3 s) (call_for args s img) w0 = out) /\
    cwd w' = cwd w /\ fds w' = fds w /\
    csv_ready s w' (c ++ rows) /\
    (s_csv s = None -> fs w' = fs w) /\
    match out with
    | Ok res => r = Ok tt /\ rows = [result_row (path_str img) res]
    | Raise (Exception _ _) => r = Ok tt /\ rows = [error_row (path_str img)]
    | Raise e => r = Raise e /\ rows = []
    end.
Proof.
  intros Hready. unfold solve_one, bind at 1, print at 1.
  unfold bind at 1, try_except, bind at 1, call_solve_from_image.
  set (w1 := emit _ w).
  assert (Hstep : forall (w2 : World) (r0 : row),
             cwd w2 = cwd w -> fds w2 = fds w -> fs w2 = fs w ->
             exists w3 ev,
               match s_csv s with
               | Some (fd, _) => writerow fd r0
               | None => ret tt
               end w2 = (Ok tt, w3) /\ log w3 = log w2 ++ ev /\ solved ev = [] /\ printed ev = [] /\
               cwd w3 = cwd w /\ fds w3 = fds w /\
               csv_ready s w3 (c ++ [r0]) /\ (s_csv s = None -> fs w3 = fs w)).
  { intros w2 r0 Hc Hf Hs. unfold csv_ready in *.
    destruct (s_csv s) as [[fd pth]|].
    - destruct Hready as [H1 H2].
      erewrite writerow_spec; [|by rewrite Hf; exact H1|by rewrite Hs; exact H2].
      do 2 eexists. split; [reflexivity|]. cbn [log cwd fds fs emit set_fs].
      rewrite Hc. split; [reflexivity|]. split; [done|]. split; [done|]. split; [done|]. split; [done|].
      split; [|done]. split; [by rewrite Hf|]. by rewrite lookup_insert_eq.
    - exists w2, []. unfold ret. rewrite app_nil_r. by rewrite Hs. }
  destruct (solve_from_image (s_t3 s) (call_for args s img) w1) as [res|e] eqn:Hout.
  - unfold ret at 1. unfold bind at 1.
    destruct (truthy (dict_get res "success" (VBool false))) eqn:Ht; unfold print at 1.
    all: match goal with
         | |- context [emit (EvPrint ?l) (emit (EvSolve ?c ?o) ?w0)] =>
             edestruct (Hstep (emit (EvPrint l) (emit (EvSolve c o) w0))
                          (result_row (path_str img) res))
               as (w3 & ev & Hrun & Hlog & Hsol & Hpr & Hc3 & Hf3 & Hr3 & Hn3); [done..|]
         end.
    all: rewrite Hrun; exists (Ok tt), w3; eexists;
      exists (Ok res), [result_row (path_str img) res].
    all: split; [reflexivity|]; split;
      [rewrite Hlog; subst w1; cbn [log emit]; rewrite <- !app_assoc; reflexivity|].
    all: split; [cbn; unfold solved in Hsol; by rewrite Hsol|].
    all: split; [unfold console_lines; cbn [fst snd]; rewrite Ht; cbn;
                 unfold printed in Hpr; by rewrite Hpr|].
    all: eauto 10.
  - destruct e as [kind msg| | |].
    + unfold bind at 1, print at 1. unfold bind at 1. unfold bind at 1.
      edestruct (Hstep (emit (EvPrint [Txt ("  ERROR during solve: " +:+ msg)])
                         (emit (EvSolve (call_for args s img) (Raise (Exception kind msg))) w1))
                       (error_row (path_str img)))
        as (w3 & ev & Hrun & Hlog & Hsol & Hpr & Hc3 & Hf3 & Hr3 & Hn3); [done..|].
      rewrite Hrun. unfold ret.
      exists (Ok tt), w3. eexists. exists (Raise (Exception kind msg)), [error_row (path_str img)].
      split; [reflexivity|]. split.
      { rewrite Hlog. subst w1. cbn [log emit]. rewrite <- !app_assoc. reflexivity. }
      split. { cbn. unfold solved in Hsol. by rewrite Hsol. }
      split. { cbn. unfold printed in Hpr. by rewrite Hpr. }
      eauto 10.
    + do 2 eexists. exists [EvPrint [Txt (nl +:+ "Solving: " +:+ path_str img)];
                              EvSolve (call_for args s img) (Raise KeyboardInterrupt)].
      exists (Raise KeyboardInterrupt), []. split; [reflexivity|].
      subst w1. cbn [log emit cwd fds fs]. rewrite <- !app_assoc, app_nil_r.
      repeat split; eauto.
    + do 2 eexists. exists [EvPrint [Txt (nl +:+ "Solving: " +:+ path_str img)];
                              EvSolve (call_for args s img) (Raise (SystemExit code))].
      exists (Raise (SystemExit code)), []. split; [reflexivity|].
      subst w1. cbn [log emit cwd fds fs]. rewrite <- !app_assoc, app_nil_r.
      repeat split; eauto.
    + do 2 eexists. exists [EvPrint [Txt (nl +:+ "Solving: " +:+ path_str img)];
                              EvSolve (call_for args s img) (Raise (BaseExc kind))].
      exists (Raise (BaseExc kind)), []. split; [reflexivity|].
      subst w1. cbn [log emit cwd fds fs]. rewrite <- !app_assoc, app_nil_r.
      repeat split; eauto.
Qed.

Lemma printed_app a b : printed (a ++ b) = printed a ++ printed b.
Proof. apply omap_app. Qed.

Lemma solved_app a b : solved (a ++ b) = solved a ++ solved b.
Proof. apply omap_app. Qed.

Lemma solve_loop_spec args s imgs : forall w c,
  csv_ready s w c ->
  exists r w' evs rows,
    solve_loop args s imgs w = (r, w') /\
    log w' = log w ++ evs /\
    loop_trace args s imgs (solved evs) rows r /\
    printed evs = mjoin (console_lines <$> solved evs) /\
    cwd w' = cwd w /\ fds w' = fds w /\
    csv_ready s w' (c ++ rows) /\
    (s_csv s = None -> fs w' = fs w).
Proof.
  induction imgs as [|img imgs IH]; intros w c Hready.
  - exists (Ok tt), w, [], []. rewrite !app_nil_r. repeat split; try done. constructor.
  - destruct (solve_one_spec args s img w c Hready)
      as (r1 & w1 & evs1 & out & rows1 & Hrun & Hlog & Hsol & Hpr & [w0 Hw0]
          & Hc & Hf & Hr & Hn & Hout).
    cbn [solve_loop]. unfold bind. rewrite Hrun.
    destruct out as [res|e]; [|destruct (is_Exception e) eqn:He].
    + destruct Hout as [-> ->].
      destruct (IH w1 _ Hr)
        as (r & w' & evs2 & rows2 & Hrun2 & Hlog2 & Htr & Hpr2 & Hc2 & Hf2 & Hr2 & Hn2).
      exists r, w', (evs1 ++ evs2), (result_row (path_str img) res :: rows2).
      rewrite Hrun2, Hlog2, Hlog, Hc2, Hf2, <- app_assoc, solved_app, printed_app, Hsol, Hpr, Hpr2.
      rewrite <- app_assoc in Hr2.
      repeat split; try done.
      * by eapply trace_solved.
      * intros Hnone. by rewrite Hn2, Hn.
    + destruct e; try done. destruct Hout as [-> ->].
      destruct (IH w1 _ Hr)
        as (r & w' & evs2 & rows2 & Hrun2 & Hlog2 & Htr & Hpr2 & Hc2 & Hf2 & Hr2 & Hn2).
      exists r, w', (evs1 ++ evs2), (error_row (path_str img) :: rows2).
      rewrite Hrun2, Hlog2, Hlog, Hc2, Hf2, <- app_assoc, solved_app, printed_app, Hsol, Hpr, Hpr2.
      rewrite <- app_assoc in Hr2.
      repeat split; try done.
      * by eapply trace_caught.
      * intros Hnone. by rewrite Hn2, Hn.
    + assert (r1 = Raise e /\ rows1 = []) as [-> ->] by (by destruct e).
      exists (Raise e), w1, evs1, []. rewrite Hsol, Hpr.
      repeat split; try done.
      * by eapply trace_aborted.
      * cbn. by rewrite app_nil_r.
Qed.

Lemma solve_batch_spec args s w c :
  csv_ready s w c ->
  exists r w' evs rows,
    solve_batch args s w = (r, w') /\
    log w' = log w ++ evs /\
    loop_trace args s (s_images s) (solved evs) rows r /\
    cwd w' = cwd w /\
    match s_csv s with
    | Some (fd, pth) =>
        fds w' !! fd = None /\
        fs w' !! locate (cwd w) pth = Some (File (c ++ rows)) /\
        printed evs = mjoin (console_lines <$> solved evs)
                      ++ [[Txt (nl +:+ "[OK] Results saved to CSV: " +:+ path_str pth)]] /\
        exists evs', evs = evs' ++ [EvClose fd;
                       EvPrint [Txt (nl +:+ "[OK] Results saved to CSV: " +:+ path_str pth)]]
    | None => fs w' = fs w /\ fds w' = fds w /\
              printed evs = mjoin (console_lines <$> solved evs)
    end.
Proof.
  intros Hready.
  destruct (solve_loop_spec args s (s_images s) w c Hready)
    as (r & w1 & evs & rows & Hrun & Hlog & Htr & Hpr & Hc & Hf & Hr & Hn).
  unfold solve_batch, try_finally. rewrite Hrun. unfold csv_ready in Hr.
  destruct (s_csv s) as [[fd pth]|].
  - unfold bind, close, print. cbn [fst snd].
    exists r. eexists. exists (evs ++ [EvClose fd;
                       EvPrint [Txt (nl +:+ "[OK] Results saved to CSV: " +:+ path_str pth)]]), rows.
    split; [reflexivity|]. cbn [log emit set_fds cwd fds fs].
    rewrite Hlog, <- !app_assoc, solved_app, printed_app, Hpr. split; [done|].
    split. { cbn. by rewrite app_nil_r. }
    split; [done|]. split; [by rewrite lookup_delete_eq|].
    split; [rewrite <- Hc; apply Hr|]. split; [|by eauto].
    cbn. by rewrite app_nil_r.
  - exists r, w1, evs, rows. unfold ret. repeat split; auto.
Qed.

(** ** Preparation of the loop *)

Lemma resolved_spec s w r w' :
  resolved s w = (r, w') -> w' = w.
Proof.
  unfold resolved, bind, resolve. pose proof (expanduser_state (Path_of s) w) as Hs.
  destruct (expanduser (Path_of s) w) as [[p|e] w1]; simpl in Hs; subst w1; by intros [= _ <-].
Qed.

Lemma mkdir_from_spec todo : forall f base f',
  mkdir_from f base todo = Ok f' ->
  (forall k, f !! k = Some Dir -> f' !! k = Some Dir) /\
  (forall k c, f' !! k = Some (File c) -> f !! k = Some (File c)) /\
  (forall q, base `prefix_of` q -> q `prefix_of` base ++ todo -> q <> base -> f' !! q = Some Dir).
Proof.
  induction todo as [|c todo IH]; intros f base f' H; simpl in H.
  - injection H as <-. repeat split; try done.
    intros q H1 H2 Hne. rewrite app_nil_r in H2. destruct Hne. by apply (anti_symm prefix).
  - assert (Hstep : forall f1, (forall k, f !! k = Some Dir -> f1 !! k = Some Dir) ->
               (forall k c, f1 !! k = Some (File c) -> f !! k = Some (File c)) ->
               f1 !! (base ++ [c]) = Some Dir ->
               mkdir_from f1 (base ++ [c]) todo = Ok f' ->
               (forall k, f !! k = Some Dir -> f' !! k = Some Dir) /\
               (forall k c, f' !! k = Some (File c) -> f !! k = Some (File c)) /\
               (forall q, base `prefix_of` q -> q `prefix_of` base ++ c :: todo -> q <> base ->
                          f' !! q = Some Dir)).
    { intros f1 Hd Hf Hhere Hrec. destruct (IH _ _ _ Hrec) as (I1 & I2 & I3).
      split; [by auto|]. split; [by eauto|].
      intros q H1 H2 Hne.
      destruct (decide (q = base ++ [c])) as [->|Hq]; [by apply I1|].
      apply I3; [|by rewrite <- app_assoc|done].
      destruct H1 as [k ->]. destruct k as [|x k]; [by rewrite app_nil_r in Hne|].
      destruct H2 as [k' H2]. rewrite <- !app_assoc in H2. apply app_inv_head in H2.
      injection H2 as Hx _. subst x. rewrite (cons_middle c base k), app_assoc. by apply prefix_app_r. }
    destruct (f !! (base ++ [c])) as [[|content]|] eqn:Hhere; [| done |].
    + by apply (Hstep f).
    + apply (Hstep (<[base ++ [c] := Dir]> f)); [| |by rewrite lookup_insert_eq|done].
      * intros k Hk. rewrite lookup_insert_ne; [done|]. congruence.
      * intros k c0. rewrite lookup_insert. case_decide; [done|]. done.
Qed.

Lemma open_csv_spec args w c w' :
  open_csv args w = (Ok c, w') ->
  cwd w' = cwd w /\
  match c with
  | Some (fd, pth) =>
      log w' = log w ++ [EvMkdir (locate (cwd w) (parent pth));
                         EvOpen fd (locate (cwd w) pth); EvWriteRow fd csv_header] /\
      fds w' !! fd = Some (locate (cwd w) pth) /\
      fs w' !! locate (cwd w) pth = Some (File [csv_header]) /\
      (forall q, q <> [] -> q `prefix_of` locate (cwd w) (parent pth) ->
                 fs w' !! q = Some Dir) /\
      (forall k, fs w !! k = Some Dir -> fs w' !! k = Some Dir)
  | None => w' = w
  end.
Proof.
  unfold open_csv. destruct (if_set (csv args)) as [s0|]; [|by intros [= <- <-]].
  unfold bind at 1. destruct (resolved s0 w) as [[pth|e] w1] eqn:Hres;
    apply resolved_spec in Hres as ->; [|done].
  unfold bind at 1, mkdir_p at 1.
  destruct (mkdir_from (fs w) [] (locate (cwd w) (parent pth))) as [f|e] eqn:Hmk; [|done].
  apply mkdir_from_spec in Hmk as (Hkeep & _ & Hdirs).
  unfold bind at 1, open_w. cbn [fs cwd emit set_fs fds next_fd].
  set (loc := locate (cwd w) pth).
  assert (Hloc : forall q, q `prefix_of` locate (cwd w) (parent pth) ->
                 fs_get f q = Some Dir).
  { intros q Hq. destruct q as [|x q]; [done|]. simpl. apply Hdirs; [apply prefix_nil|done..]. }
  destruct (fs_get f loc) as [[|c0]|] eqn:Hat; [done| |].
  all: destruct (fs_get f (removelast loc)) as [[|c1]|]; try done.
  all: unfold bind, writerow; cbn [fs cwd emit set_fs set_fds fds next_fd log].
  all: rewrite !lookup_insert_eq; intros [= <- <-]; cbn [fs cwd emit set_fs set_fds fds next_fd log].
  all: split; [reflexivity|]; rewrite <- !app_assoc, insert_insert_eq, !lookup_insert_eq.
  all: do 3 (split; [reflexivity|]).
  all: assert (Hne : forall k, f !! k = Some Dir -> k <> loc)
         by (intros k Hk ->; destruct loc; [done|]; simpl in Hat; congruence).
  all: split; [intros q Hq Hp; rewrite lookup_insert_ne;
                 [specialize (Hloc q Hp); by destruct q
                 |intros <-; specialize (Hloc loc Hp); congruence]
              | intros k Hk; rewrite lookup_insert_ne; [by apply Hkeep|];
                intros <-; by eapply Hne; [apply Hkeep|]].
Qed.

Lemma emit_emits e evs w : emit e (emits evs w) = emits (evs ++ [e]) w.
Proof. change (emit e ?x) with (emits [e] x). apply emits_emits. Qed.

Lemma solve_preflight_frame args w r w' :
  solve_preflight args w = (r, w') ->
  exists evs, w' = emits evs w /\ solved evs = [].
Proof.
  unfold solve_preflight. unfold bind at 1.
  destruct (resolved (database args) w) as [[db|e] w1] eqn:Hres;
    apply resolved_spec in Hres as ->;
    [|intros [= _ <-]; exists []; by rewrite emits_nil].
  unfold bind at 1, exists_ at 1.
  change (emit ?e w) with (emits [e] w).
  destruct (bool_decide _).
  2: { unfold bind, print, sys_exit, raise. rewrite !emit_emits. intros [= _ <-].
       eexists; split; [done|]. done. }
  unfold bind at 1, ret at 1. unfold bind at 1.
  destruct (expand_images_spec (images args) [] (emits [EvExists (locate (cwd w) db)] w))
    as (evs & Hw & Hs & _).
  destruct (expand_images (images args) [] _) as [[imgs|e] w2]; simpl in Hw; subst w2;
    rewrite emits_emits; [|intros [= _ <-]; eexists; split; [done|]].
  2: { no_solver_call Hs. }
  destruct imgs as [|img imgs].
  { unfold bind, print, sys_exit, raise. rewrite !emit_emits. intros [= _ <-].
    eexists; split; [done|]. no_solver_call Hs. }
  unfold bind at 1, ret at 1. unfold bind at 1, now_iso at 1. unfold bind at 1, print at 1.
  unfold bind at 1, new_Tetra3 at 1. rewrite !emit_emits.
  destruct (Tetra3 _ _) as [t3|e].
  2: { intros [= _ <-]. eexists; split; [done|]. no_solver_call Hs. }
  unfold bind at 1, print at 1. rewrite !emit_emits.
  destruct (parse_extract_dict args); unfold bind, ret, print; rewrite ?emit_emits;
    intros [= _ <-]; (eexists; split; [done|]); no_solver_call Hs.
Qed.

Lemma solve_setup_ready args w s w1 :
  solve_setup args w = (Ok s, w1) ->
  exists w0 pre,
    w0 = emits pre w /\ solved pre = [] /\
    open_csv args w0 = (Ok (s_csv s), w1) /\
    cwd w1 = cwd w /\
    csv_ready s w1 [csv_header].
Proof.
  unfold solve_setup, bind at 1.
  destruct (solve_preflight args w) as [[pre|e] w0] eqn:Hpre; [|done].
  apply solve_preflight_frame in Hpre as (evs & -> & Hs).
  unfold bind. destruct (open_csv args _) as [[c|e] w2] eqn:Hopen; [|done].
  unfold ret. intros [= <- <-]. cbn [s_csv].
  exists (emits evs w), evs. do 3 (split; [done|]).
  apply open_csv_spec in Hopen as [Hc Hrest]. cbn [cwd emits] in *.
  split; [done|]. unfold csv_ready. cbn [s_csv].
  destruct c as [[fd pth]|]; [|done]. rewrite Hc. by destruct Hrest as (_ & ? & ? & _).
Qed.

Lemma cmd_solve_after_setup args w s w1 :
  solve_setup args w = (Ok s, w1) -> cmd_solve args w = solve_batch args s w1.
Proof. intros H. unfold cmd_solve, bind. by rewrite H. Qed.

(** ** The solve command *)

Lemma loop_trace_sound args s imgs calls rows r :
  loop_trace args s imgs calls rows r ->
  Forall (fun call => exists w, solve_from_image (s_t3 s) call.1 w = call.2) calls.
Proof. induction 1; repeat constructor; eauto. Qed.

Lemma loop_trace_rows args s imgs calls rows r :
  loop_trace args s imgs calls rows r ->
  exists completed,
    Forall2 row_logged completed rows /\
    match r with
    | Ok _ => calls = completed /\ calls.*1 = call_for args s <$> imgs
    | Raise e => is_Exception e = false /\
                 (exists c, calls = completed ++ [(c, Raise e)]) /\
                 calls.*1 `prefix_of` (call_for args s <$> imgs)
    end.
Proof.
  induction 1 as [|img imgs res calls rows r w Hw Htr IH
                  |img imgs kind msg calls rows r w Hw Htr IH
                  |img imgs e w Hw He].
  - exists []. by repeat split.
  - destruct IH as (completed & HF & Hr).
    exists ((call_for args s img, Ok res) :: completed). split; [by constructor|].
    destruct r as [[]|e].
    + destruct Hr as [-> Hc]. split; [done|]. cbn. by rewrite Hc.
    + destruct Hr as (He & [c ->] & Hp). split; [done|]. split; [by eexists|].
      cbn. by apply prefix_cons.
  - destruct IH as (completed & HF & Hr).
    exists ((call_for args s img, Raise (Exception kind msg)) :: completed).
    split; [by constructor|].
    destruct r as [[]|e].
    + destruct Hr as [-> Hc]. split; [done|]. cbn. by rewrite Hc.
    + destruct Hr as (He & [c ->] & Hp). split; [done|]. split; [by eexists|].
      cbn. by apply prefix_cons.
  - exists []. split; [constructor|]. split; [done|]. split; [by eexists|].
    cbn. apply prefix_cons, prefix_nil.
Qed.

Lemma exit_status_solve args w :
  exit_status (Solve args) w =
    match cmd_solve args w with
    | (Ok _, w') => (exit_ok, w')
    | (Raise KeyboardInterrupt, w') =>
        (exit_interrupted, emit (EvPrint [Txt (nl +:+ "Interrupted.")]) w')
    | (Raise (SystemExit n), w') => (n, w')
    | (Raise _, w') => (1%Z, w')
    end.
Proof.
  unfold exit_status, main. cbn [func].
  destruct (cmd_solve args w) as [[[]|[]] w']; reflexivity.
Qed.

(** C1, as the code has it.  Once the preparation of the loop has succeeded,
    and with a solver that raises nothing but [Exception]s, the process ends
    with status 0 whatever the solver raises and for whichever images; the
    solver is called once per image, in the order of the expanded sequence;
    every call that raised is reported on the console; with CSV logging the
    file holds, after the header, one row per call in that order, the row of
    a call that raised being the image, [False] and four empty fields;
    without CSV logging no row is kept anywhere: the filesystem is left as
    it was. *)
Theorem solver_errors_are_isolated (args : solve_args) (w0 : World) (s : setup) (w1 : World) :
  solve_setup args w0 = (Ok s, w1) ->
  (forall c w e, solve_from_image (s_t3 s) c w = Raise e -> is_Exception e = true) ->
  exists w2 evs,
    exit_status (Solve args) w0 = (exit_ok, w2) /\ exit_ok = 0%Z /\
    log w2 = log w1 ++ evs /\
    (solved evs).*1 = call_for args s <$> s_images s /\
    sc_image <$> (solved evs).*1 = path_str <$> s_images s /\
    (forall c kind msg, (c, Raise (Exception kind msg)) ∈ solved evs ->
       [Txt ("  ERROR during solve: " +:+ msg)] ∈ printed evs) /\
    match s_csv s with
    | Some (fd, pth) =>
        exists rows,
          fs w2 !! locate (cwd w1) pth = Some (File (csv_header :: rows)) /\
          Forall2 (fun call r =>
                     match call.2 with
                     | Ok res => r = result_row (sc_image call.1) res
                     | Raise _ => r = [VStr (sc_image call.1); VBool false;
                                       VStr ""; VStr ""; VStr ""; VStr ""]
                     end) (solved evs) rows
    | None => fs w2 = fs w1
    end.
Proof.
  intros Hsetup Hsolver.
  destruct (solve_setup_ready args w0 s w1 Hsetup) as (w' & pre & _ & _ & _ & _ & Hready).
  destruct (solve_batch_spec args s w1 _ Hready) as (r & w2 & evs & rows & Hrun & Hlog & Htr & _ & Hcsv).
  pose proof (loop_trace_sound _ _ _ _ _ _ Htr) as Hsound.
  destruct (loop_trace_rows _ _ _ _ _ _ Htr) as (completed & Hrows & Hr).
  assert (r = Ok tt /\ solved evs = completed
          /\ (solved evs).*1 = call_for args s <$> s_images s) as (-> & <- & Hcalls).
  { destruct r as [[]|e]; [by destruct Hr|]. exfalso.
    destruct Hr as (He & [c Hc] & _). rewrite Hc, Forall_app, Forall_singleton in Hsound.
    destruct Hsound as [_ [w Hw]]. apply Hsolver in Hw. congruence. }
  exists w2, evs. rewrite exit_status_solve, (cmd_solve_after_setup _ _ _ _ Hsetup), Hrun.
  do 4 (split; [done|]). split.
  { rewrite Hcalls, <- list_fmap_compose. done. }
  split.
  { intros c kind msg Hin.
    assert (Hpr : printed evs = mjoin (console_lines <$> solved evs)
                  \/ exists l, printed evs = mjoin (console_lines <$> solved evs) ++ l).
    { destruct (s_csv s) as [[fd pth]|]; [right|left]; [|by destruct Hcsv as (_ & _ & ?)].
      destruct Hcsv as (_ & _ & -> & _). eauto. }
    assert (Hline : [Txt ("  ERROR during solve: " +:+ msg)]
                    ∈ mjoin (console_lines <$> solved evs)).
    { apply list_elem_of_join. exists (console_lines (c, Raise (Exception kind msg))).
      split; [cbn; apply list_elem_of_further, list_elem_of_here|]. apply list_elem_of_fmap. eauto. }
    destruct Hpr as [->|[l ->]]; [done|]. apply elem_of_app. by left. }
  destruct (s_csv s) as [[fd pth]|]; [|by destruct Hcsv].
  exists rows. destruct Hcsv as (_ & Hfile & _). split; [exact Hfile|exact Hrows].
Qed.

(** C2.  With CSV logging the file is opened by the preparation, before the
    first turn of the loop, and holds the header row only; whatever way the
    loop ends, by reaching the end or by an exception that escapes it, the
    handle is closed, and the file holds the header followed by one row per
    image processed, in processing order, error rows included. *)
Theorem csv_opened_first_closed_always
    (args : solve_args) (w0 : World) (s : setup) (w1 : World) (fd : nat) (pth : Path) :
  solve_setup args w0 = (Ok s, w1) ->
  s_csv s = Some (fd, pth) ->
  (* opened before the loop, with the header and nothing else *)
  (exists pre, log w1 = pre ++ [EvOpen fd (locate (cwd w1) pth); EvWriteRow fd csv_header]) /\
  fds w1 !! fd = Some (locate (cwd w1) pth) /\
  fs w1 !! locate (cwd w1) pth = Some (File [csv_header]) /\
  csv_header = [VStr "image"; VStr "success"; VStr "ra_deg"; VStr "dec_deg";
                VStr "rotation_deg"; VStr "fov_deg"] /\
  (* the loop, however it ends *)
  exists r w2 evs rows completed,
    cmd_solve args w0 = (r, w2) /\
    log w2 = log w1 ++ evs /\
    (* closed *)
    fds w2 !! fd = None /\ EvClose fd ∈ evs /\
    (* one row per image that was processed, in order *)
    fs w2 !! locate (cwd w1) pth = Some (File (csv_header :: rows)) /\
    Forall2 row_logged completed rows /\
    match r with
    | Ok _ => solved evs = completed /\ completed.*1 = call_for args s <$> s_images s
    | Raise e => is_Exception e = false /\
                 (exists c, solved evs = completed ++ [(c, Raise e)]) /\
                 (solved evs).*1 `prefix_of` (call_for args s <$> s_images s)
    end.
Proof.
  intros Hsetup Hcsv.
  destruct (solve_setup_ready args w0 s w1 Hsetup) as (w' & pre & -> & _ & Hopen & Hcwd & Hready).
  apply open_csv_spec in Hopen as [_ Hopen]. rewrite Hcsv in Hopen.
  cbn [cwd emits log] in Hopen. rewrite <- Hcwd in Hopen.
  destruct Hopen as (Hlog1 & Hfd & Hfile & _).
  split. { exists ((log w0 ++ pre) ++ [EvMkdir (locate (cwd w1) (parent pth))]).
           by rewrite Hlog1, <- !app_assoc. }
  do 3 (split; [done|]).
  destruct (solve_batch_spec args s w1 _ Hready)
    as (r & w2 & evs & rows & Hrun & Hlog & Htr & _ & Hend).
  rewrite Hcsv in Hend. destruct Hend as (Hclosed & Hcontent & _ & evs' & Hevs).
  destruct (loop_trace_rows _ _ _ _ _ _ Htr) as (completed & Hrows & Hr).
  exists r, w2, evs, rows, completed.
  rewrite (cmd_solve_after_setup _ _ _ _ Hsetup).
  do 3 (split; [done|]). split; [rewrite Hevs; apply elem_of_app; right; apply list_elem_of_here|].
  do 2 (split; [done|]).
  destruct r as [[]|e]; [|done]. destruct Hr as [-> Hc]. done.
Qed.

(** C9, as the code has it.  In a CSV row whose success cell is [False] the
    four positional cells are empty when the row comes from a caught
    exception; when it comes from a response of the solver they are that
    response's own values under the four keys (empty string for a missing
    key), hence empty when the response leaves the keys out or gives [None]
    for them: the loop itself blanks nothing. *)
Theorem failed_rows_keep_solver_fields
    (args : solve_args) (w0 : World) (s : setup) (w1 : World) (fd : nat) (pth : Path) :
  solve_setup args w0 = (Ok s, w1) ->
  s_csv s = Some (fd, pth) ->
  exists r w2 evs rows,
    cmd_solve args w0 = (r, w2) /\
    log w2 = log w1 ++ evs /\
    fs w2 !! locate (cwd w1) pth = Some (File (csv_header :: rows)) /\
    forall i call r,
      solved evs !! i = Some call -> rows !! i = Some r ->
      r !! 1%nat = Some (VBool false) ->
      match call.2 with
      | Raise _ => drop 2 r = [VStr ""; VStr ""; VStr ""; VStr ""]
      | Ok res =>
          truthy (dict_get res "success" (VBool false)) = false /\
          drop 2 r = [dict_get res "ra_deg" (VStr ""); dict_get res "dec_deg" (VStr "");
                      dict_get res "rotation_deg" (VStr ""); dict_get res "fov_deg" (VStr "")] /\
          ((forall k, k ∈ ["ra_deg"; "dec_deg"; "rotation_deg"; "fov_deg"] ->
                      res !! k = None \/ res !! k = Some VNone) ->
           Forall (fun v => cell_empty v = true) (drop 2 r))
      end.
Proof.
  intros Hsetup Hcsv.
  destruct (solve_setup_ready args w0 s w1 Hsetup) as (w' & pre & _ & _ & _ & _ & Hready).
  destruct (solve_batch_spec args s w1 _ Hready)
    as (r & w2 & evs & rows & Hrun & Hlog & Htr & _ & Hend).
  rewrite Hcsv in Hend. destruct Hend as (_ & Hcontent & _).
  destruct (loop_trace_rows _ _ _ _ _ _ Htr) as (completed & Hrows & Hr).
  exists r, w2, evs, rows. rewrite (cmd_solve_after_setup _ _ _ _ Hsetup).
  do 3 (split; [done|]).
  intros i call r0 Hcall Hrow Hflag.
  assert (Hi : completed !! i = Some call).
  { destruct r as [[]|e]; [by destruct Hr as [<- _]|].
    destruct Hr as (_ & [c Hc] & _). rewrite Hc in Hcall.
    apply lookup_app_Some in Hcall as [?|[Hge Hc']]; [done|].
    apply Forall2_length in Hrows. apply lookup_lt_Some in Hrow. lia. }
  pose proof (Forall2_lookup_lr _ _ _ _ _ _ Hrows Hi Hrow) as Hlogged.
  unfold row_logged in Hlogged. destruct (call.2) as [res|e]; subst r0; [|done].
  change (Some (VBool (truthy (dict_get res "success" (VBool false)))) = Some (VBool false))
    in Hflag.
  injection Hflag as Hflag. split; [exact Hflag|]. split; [reflexivity|].
  intros Habsent. unfold result_row. cbn [drop].
  assert (Hcell : forall k, k ∈ ["ra_deg"; "dec_deg"; "rotation_deg"; "fov_deg"] ->
                            cell_empty (dict_get res k (VStr "")) = true).
  { intros k Hk. unfold dict_get. by destruct (Habsent k Hk) as [->| ->]. }
  repeat constructor; apply Hcell; by_evaluation.
Qed.

(** C10.  When the CSV path names a file that exists, the preparation first
    creates the missing ancestors of the path, then opens the file for
    writing: before the loop starts the file holds the header only, and at
    the end it holds the header and the rows of this run, nothing of the
    former content. *)
Theorem csv_truncated_after_parents_created
    (args : solve_args) (w0 : World) (s : setup) (w1 : World) (fd : nat) (pth : Path)
    (old : list row) :
  solve_setup args w0 = (Ok s, w1) ->
  s_csv s = Some (fd, pth) ->
  fs w0 !! locate (cwd w0) pth = Some (File old) ->
  (* parents first, then the open in write mode *)
  (exists pre, log w1 = pre ++ [EvMkdir (locate (cwd w0) (parent pth));
                                EvOpen fd (locate (cwd w0) pth); EvWriteRow fd csv_header]) /\
  (forall q, q <> [] -> q `prefix_of` locate (cwd w0) (parent pth) -> fs w1 !! q = Some Dir) /\
  (* the old content is gone before the loop starts *)
  fs w1 !! locate (cwd w0) pth = Some (File [csv_header]) /\
  (* and the file ends up holding this run's rows only *)
  exists r w2 evs rows completed,
    cmd_solve args w0 = (r, w2) /\
    log w2 = log w1 ++ evs /\
    fs w2 !! locate (cwd w0) pth = Some (File (csv_header :: rows)) /\
    Forall2 row_logged completed rows /\
    completed `prefix_of` solved evs.
Proof.
  intros Hsetup Hcsv _.
  destruct (solve_setup_ready args w0 s w1 Hsetup) as (w' & pre & -> & _ & Hopen & Hcwd & Hready).
  apply open_csv_spec in Hopen as [_ Hopen]. rewrite Hcsv in Hopen.
  cbn [cwd emits log fs] in Hopen.
  destruct Hopen as (Hlog1 & Hfd & Hfile & Hdirs & _).
  split. { rewrite Hlog1. by eexists. }
  do 2 (split; [done|]).
  destruct (solve_batch_spec args s w1 _ Hready)
    as (r & w2 & evs & rows & Hrun & Hlog & Htr & _ & Hend).
  rewrite Hcsv, Hcwd in Hend. destruct Hend as (_ & Hcontent & _).
  destruct (loop_trace_rows _ _ _ _ _ _ Htr) as (completed & Hrows & Hr).
  exists r, w2, evs, rows, completed. rewrite (cmd_solve_after_setup _ _ _ _ Hsetup).
  do 4 (split; [done|]).
  destruct r as [[]|e]; [by destruct Hr as [-> _]|].
  destruct Hr as (_ & [c ->] & _). by apply prefix_app_r.
Qed.


Lemma expand_one_state p w : exists evs, (expand_one p w).2 = emits evs w.
Proof. destruct (expand_one_log p w) as (evs & H & _). eauto. Qed.

Lemma expand_images_emits args : forall acc evs w,
  (expand_images args acc (emits evs w)).1 = (expand_images args acc w).1.
Proof.
  induction args as [|p args IH]; intros acc evs w; [done|].
  cbn [expand_images]. unfold bind.
  pose proof (expand_one_emits p evs w) as H1.
  destruct (expand_one_state p (emits evs w)) as (e1 & Hs1).
  destruct (expand_one_state p w) as (e2 & Hs2).
  destruct (expand_one p (emits evs w)) as [r1 w1].
  destruct (expand_one p w) as [r2 w2]. simpl in *. subst.
  destruct r2 as [l|e]; [|done].
  by rewrite emits_emits, !IH.
Qed.

Lemma scope_trace_app a b : scope_trace (a ++ b) = scope_trace a ++ scope_trace b.
Proof. apply omap_app. Qed.

(** C8, as the code has it.  When the database file exists and the
    arguments expand to no image, the solve command prints the no-images
    error and leaves with [SystemExit] of the no-images status (5, used
    nowhere else), which is the status of the process; nothing else is
    printed and the library is never constructed, so no database is
    loaded. *)
Theorem no_images_aborts_before_database_load
    (args : solve_args) (w : World) (db : Path) :
  (resolved (database args) w).1 = Ok db ->
  is_Some (fs_get (fs w) (locate (cwd w) db)) ->
  (expand_images (images args) [] w).1 = Ok [] ->
  exists w' evs,
    cmd_solve args w = (Raise (SystemExit exit_no_images), w') /\
    exit_status (Solve args) w = (exit_no_images, w') /\
    exit_no_images = 5%Z /\
    (exit_no_images ∉ [exit_ok; exit_unsupported_catalog; exit_catalog_missing;
                       exit_database_missing; exit_interrupted]) /\
    log w' = log w ++ evs /\
    printed evs = [[Txt "ERROR: No images to solve."]] /\
    forall load, EvTetra3 load ∉ evs.
Proof.
  intros Hdb Hex Hempty.
  assert (Hrun : exists w' evs,
             solve_preflight args w = (Raise (SystemExit exit_no_images), w') /\
             log w' = log w ++ evs /\
             printed evs = [[Txt "ERROR: No images to solve."]] /\
             scope_trace evs = []).
  { unfold solve_preflight, bind at 1.
    destruct (resolved (database args) w) as [r w1] eqn:Hres.
    pose proof (resolved_spec _ _ _ _ Hres) as ->. simpl in Hdb. subst r.
    unfold bind at 1, exists_ at 1. rewrite bool_decide_eq_true_2 by done.
    unfold bind at 1, ret at 1. unfold bind at 1.
    change (emit ?e w) with (emits [e] w).
    pose proof (expand_images_emits (images args) [] [EvExists (locate (cwd w) db)] w) as Hsame.
    destruct (expand_images_spec (images args) [] (emits [EvExists (locate (cwd w) db)] w))
      as (evs & Hw & _ & Hscope & Hpr & _).
    destruct (expand_images (images args) [] (emits [EvExists (locate (cwd w) db)] w))
      as [r2 w2]. simpl in Hw, Hsame. subst w2.
    rewrite Hempty in Hsame. subst r2.
    unfold bind, print, sys_exit, raise. rewrite emits_emits, emit_emits.
    do 2 eexists. split; [reflexivity|]. split; [reflexivity|].
    rewrite !printed_app, !scope_trace_app, Hscope, Hpr. done. }
  destruct Hrun as (w' & evs & Hrun & Hlog & Hpr & Hscope).
  assert (Hcmd : cmd_solve args w = (Raise (SystemExit exit_no_images), w')).
  { unfold cmd_solve, solve_setup, bind. by rewrite Hrun. }
  exists w', evs. split; [done|].
  split; [by rewrite exit_status_solve, Hcmd|].
  split; [done|]. split; [by_evaluation|]. do 2 (split; [done|]).
  intros load Hin.
  assert (EvTetra3 load ∈ scope_trace evs) as Hin'.
  { apply list_elem_of_omap. by exists (EvTetra3 load). }
  rewrite Hscope in Hin'. by apply elem_of_nil in Hin'.
Qed.

(** ** The generate-db command *)

Ltac collect_emits :=
  repeat match goal with
         | |- context [emit ?e ?x] => change (emit e x) with (emits [e] x)
         end;
  rewrite ?emits_emits.

Lemma ensure_catalog_available_frame name cd w :
  exists evs, (ensure_catalog_available name cd w).2 = emits evs w /\ scope_trace evs = [].
Proof.
  unfold ensure_catalog_available.
  destruct (assoc name required) as [filename|].
  2: { unfold bind, print, sys_exit, raise. cbn [snd]. collect_emits. by eexists. }
  unfold print_hint.
  destruct cd as [d|]; cbn [app probe];
    unfold bind, exists_, ret, print, sys_exit, raise, Path_cwd; cbn [fs cwd emit].
  all: repeat match goal with
       | |- context [bool_decide ?P] => destruct (bool_decide P)
       | |- context [String.eqb ?a ?b] => destruct (String.eqb a b)
       end.
  all: unfold bind, print; cbn [snd]; collect_emits; by eexists.
Qed.


Lemma dirs_kept_insert_file f loc c :
  is_dir_at f loc = false -> dirs_kept f (<[loc := File c]> f).
Proof.
  intros Hloc k Hk. unfold is_dir_at, fs_get in *.
  destruct k as [|x k]; [done|].
  rewrite lookup_insert_ne; [done|]. intros ->. congruence.
Qed.

Lemma dirs_kept_refl f : dirs_kept f f.
Proof. by intros k Hk. Qed.

Lemma generate_db_core_spec args out w :
  exists r w' evs,
    _generate_db_core args out w = (r, w') /\
    log w' = log w ++ evs /\ cwd w' = cwd w /\ dirs_kept (fs w) (fs w') /\
    (r <> Ok tt /\ evs = [EvTetra3 None] \/
     exists c failed, evs = [EvTetra3 None; EvGenerate (cwd w) c failed] /\
                      r = match failed with Some e => Raise e | None => Ok tt end).
Proof.
  unfold _generate_db_core, bind, new_Tetra3.
  destruct (Tetra3 None w) as [t3|e].
  2: { do 3 eexists. split; [reflexivity|]. cbn. split; [done|]. split; [done|].
       split; [apply dirs_kept_refl|]. left. done. }
  unfold call_generate_database. cbn [fs cwd emit log].
  destruct (generate_database t3 _ _) as [content|e].
  - destruct (is_dir_at (fs w) _) eqn:Hd.
    + do 3 eexists. split; [reflexivity|]. cbn [fs cwd emit log].
      rewrite <- app_assoc. split; [done|]. split; [done|]. split; [apply dirs_kept_refl|].
      right. by do 2 eexists.
    + do 3 eexists. split; [reflexivity|]. cbn [fs cwd emit log set_fs].
      rewrite <- app_assoc. split; [done|]. split; [done|].
      split; [by apply dirs_kept_insert_file|]. right. eexists _, None. done.
  - do 3 eexists. split; [reflexivity|]. cbn [fs cwd emit log].
    rewrite <- app_assoc. split; [done|]. split; [done|]. split; [apply dirs_kept_refl|].
    right. eexists _, (Some e). done.
Qed.

Lemma pushd_generate_spec args out catp w :
  normalize (cwd w) = cwd w -> is_dir_at (fs w) (cwd w) = true ->
  exists r w' evs,
    pushd catp (_generate_db_core args out) w = (r, w') /\
    log w' = log w ++ evs /\ cwd w' = cwd w /\
    (evs = [] \/
     evs = [EvChdir (locate (cwd w) catp); EvTetra3 None; EvChdir (cwd w)] \/
     exists c failed,
       evs = [EvChdir (locate (cwd w) catp); EvTetra3 None;
              EvGenerate (locate (cwd w) catp) c failed; EvChdir (cwd w)] /\
       r = match failed with Some e => Raise e | None => Ok tt end).
Proof.
  intros Hnorm Hdir. unfold pushd, bind at 1, Path_cwd. unfold bind at 1, chdir at 1.
  set (cat := locate (cwd w) catp).
  destruct (fs_get (fs w) cat) as [[|c]|].
  2,3: do 3 eexists; split; [reflexivity|]; rewrite app_nil_r; auto.
  unfold try_finally.
  destruct (generate_db_core_spec args out (emit (EvChdir cat) (set_cwd cat w)))
    as (r & w1 & evs & Hrun & Hlog & Hcwd & Hkept & Hevs).
  rewrite Hrun. unfold chdir. rewrite Hcwd. cbn [cwd emit set_cwd fs log] in *.
  unfold locate. cbn [p_abs p_parts]. rewrite Hnorm.
  apply Hkept in Hdir. unfold is_dir_at in Hdir.
  destruct (fs_get (fs w1) (cwd w)) as [[|c]|]; try done.
  do 3 eexists. split; [by destruct r|]. cbn [log emit set_cwd cwd].
  rewrite Hlog, <- !app_assoc. split; [reflexivity|]. split; [done|].
  right. destruct Hevs as [[_ ->]|(c & failed & -> & ->)]; [by left|right].
  by exists c, failed.
Qed.

Lemma resolved_frame s w w' :
  homes w' = homes w -> cwd w' = cwd w -> (resolved s w').1 = (resolved s w).1.
Proof.
  intros Hh Hc. unfold resolved, bind, expanduser, resolve. rewrite Hh.
  repeat case_match; simplify_eq; cbn; rewrite ?Hc; done.
Qed.

(** C3.  With a catalog directory given, in a world whose working directory
    is a canonical path to an existing directory, the generate-db command
    leaves the working directory as it found it on every path, the ones
    through an exception included.  The log of the run splits in three:
    a part without directory change or library call, a scoped part, and
    again a part without any.  The scoped part is empty (the command failed
    before the generation), or it is the change to the catalog directory,
    the library calls and nothing else, the generator being called with the
    catalog directory as working directory, and the change back; the change
    back is there also when the generator raises. *)
Theorem working_directory_restored
    (args : gen_args) (w : World) (d : string) (catp : Path) :
  if_set (catalog_dir args) = Some d ->
  (resolved d w).1 = Ok catp ->
  world_ok w ->
  exists r w' before scoped after,
    cmd_generate_db args w = (r, w') /\
    log w' = log w ++ before ++ scoped ++ after /\
    cwd w' = cwd w /\
    scope_trace before = [] /\ scope_trace after = [] /\
    (scoped = [] \/
     scoped = [EvChdir (locate (cwd w) catp); EvTetra3 None; EvChdir (cwd w)] \/
     exists c failed,
       scoped = [EvChdir (locate (cwd w) catp); EvTetra3 None;
                 EvGenerate (locate (cwd w) catp) c failed; EvChdir (cwd w)] /\
       r = match failed with Some e => Raise e | None => Ok tt end).
Proof.
  intros Hset Hres [Hnorm Hdir]. unfold cmd_generate_db. unfold bind at 1.
  destruct (resolved (output args) w) as [[out|e] w0] eqn:Hout;
    apply resolved_spec in Hout as ->.
  2: { exists (Raise e), w, [], [], []. rewrite !app_nil_r. auto 10. }
  unfold bind at 1, mkdir_p at 1.
  destruct (mkdir_from (fs w) [] (locate (cwd w) (parent out))) as [f|e] eqn:Hmk.
  2: { exists (Raise e), w, [], [], []. rewrite !app_nil_r. auto 10. }
  apply mkdir_from_spec in Hmk as (Hkeep & _ & _).
  assert (Hdir' : is_dir_at f (cwd w) = true).
  { unfold is_dir_at, fs_get in *. destruct (cwd w) as [|x k]; [done|].
    destruct (fs w !! (x :: k)) as [[|c]|] eqn:Hk; try done. by rewrite (Hkeep _ Hk). }
  rewrite Hset. unfold bind at 1. unfold bind at 1.
  set (w1 := emit _ (set_fs f w)).
  pose proof (resolved_frame d w w1 eq_refl eq_refl) as Hsame. rewrite Hres in Hsame.
  destruct (resolved d w1) as [r0 w1'] eqn:Hcat. apply resolved_spec in Hcat as ->.
  simpl in Hsame. subst r0. unfold ret at 1. unfold bind at 1.
  destruct (ensure_catalog_available_frame (star_catalog args) (Some catp) w1)
    as (evs1 & Hw2 & Hscope1).
  destruct (ensure_catalog_available (star_catalog args) (Some catp) w1) as [[[]|e] w2];
    simpl in Hw2; subst w2 w1; collect_emits.
  2: { exists (Raise e). eexists.
       exists ([EvMkdir (locate (cwd w) (parent out))] ++ evs1), [], [].
       split; [reflexivity|]. cbn [log emits set_fs cwd].
       rewrite !app_nil_r. split; [reflexivity|]. split; [done|].
       rewrite scope_trace_app, Hscope1. auto. }
  unfold bind at 1, now_iso at 1. do 6 (unfold bind at 1; unfold print at 1). collect_emits.
  set (pre := _ ++ _ ++ _).
  assert (Hpre : scope_trace pre = []).
  { subst pre. rewrite !scope_trace_app, Hscope1. done. }
  clearbody pre.
  destruct (pushd_generate_spec args out catp (emits pre (set_fs f w)) Hnorm Hdir')
    as (r & w3 & evs & Hrun & Hlog & Hcwd & Hevs).
  cbn [cwd emits set_fs log] in *.
  unfold bind. rewrite Hrun.
  destruct r as [[]|e].
  - unfold print. exists (Ok tt). eexists. exists pre, evs. eexists.
    split; [reflexivity|]. cbn [log emit cwd].
    rewrite Hlog, <- !app_assoc. split; [reflexivity|]. auto.
  - exists (Raise e), w3, pre, evs, []. split; [reflexivity|].
    rewrite Hlog, <- !app_assoc, app_nil_r. auto.
Qed.

End Properties.

(** * The statements at work on the concrete world *)

Lemma unsupported_catalog_rejected_before_probe_witness :
  ensure_catalog_available "gaia_dr3" (Some Example.cat) Example.world =
    (Raise (SystemExit exit_unsupported_catalog),
     emit (EvPrint [Txt ("ERROR: Unsupported star_catalog '" +:+ "gaia_dr3"
                         +:+ "'. Use one of: hip_main, tyc_main, bsc5")]) Example.world)
  /\ exit_unsupported_catalog = 2%Z
  /\ (exit_unsupported_catalog ∉ [exit_ok; exit_catalog_missing; exit_database_missing;
                                   exit_no_images; exit_interrupted])
  /\ probed (log (ensure_catalog_available "gaia_dr3" (Some Example.cat) Example.world).2)
     = probed (log Example.world).
Proof.
  apply (unsupported_catalog_rejected_before_probe "gaia_dr3" (Some Example.cat) Example.world);
    by_evaluation.
Defined.

(** The catalog directory and the working directory both hold
    [hip_main.dat]: only the catalog directory is probed. *)
Lemma catalog_search_first_match_witness :
  exists w',
    ensure_catalog_available "hip_main" (Some Example.cat) Example.world = (Ok tt, w') /\
    log w' = [EvExists ["cat"; "hip_main.dat"]].
Proof.
  destruct (catalog_search_first_match "hip_main" "hip_main.dat" (Some Example.cat)
              Example.world) as (r & w' & Hrun & _ & _ & Hcase); [by_evaluation|].
  vm_compute in Hcase. destruct Hcase as [-> Hlog].
  exists w'. split; [exact Hrun | exact Hlog].
Defined.

Lemma directory_expansion_sorted_whitelist_witness :
  exists imgs w',
    expand_one "/data" Example.world = (Ok imgs, w') /\
    StronglySorted path_le imgs /\ NoDup imgs /\
    (forall n n', path_le (child (mkPath true ["data"]) n) (child (mkPath true ["data"]) n')
                  <-> String.leb n n' = true) /\
    forall q, q ∈ imgs <->
      exists name, q = child (mkPath true ["data"]) name /\
                   name ∈ listdir Example.files ["data"] /\
                   exists e, e ∈ image_exts /\ ends_with e name = true.
Proof.
  apply (directory_expansion_sorted_whitelist "/data" (mkPath true ["data"]) Example.world);
    vm_compute; reflexivity.
Defined.

(** A directory and one of its own files, both given as arguments: the file
    is expanded twice. *)
Lemma expansion_not_deduplicated :
  exists imgs,
    (expand_images ["/data"; "/data/a.jpg"] [] Example.world).1 = Ok imgs /\
    ~ NoDup imgs.
Proof.
  eexists. split; [vm_compute; reflexivity|]. by_evaluation.
Defined.

Lemma expansion_concatenates_arguments_witness :
  exists chunks,
    [mkPath true ["data"; "a.jpg"]; mkPath true ["data"; "b.png"];
     mkPath true ["data"; "c.fits"]; mkPath true ["data"; "a.jpg"]] = mjoin chunks /\
    Forall2 (fun p chunk => (expand_one p Example.world).1 = Ok chunk /\ NoDup chunk)
            ["/data"; "/data/a.jpg"] chunks.
Proof.
  apply (expansion_concatenates_arguments ["/data"; "/data/a.jpg"] Example.world).
  vm_compute. reflexivity.
Defined.

Lemma run_succeeded {A} (p : result A * World) (dflt : A) :
  match p.1 with Ok _ => true | Raise _ => false end = true ->
  p = (Ok (match p.1 with Ok a => a | Raise _ => dflt end), p.2).
Proof. destruct p as [[a|e] w]; simpl; [done|discriminate]. Qed.

Lemma prepared_ok (l : Tetra3Lib) (dflt : @t3_handle l) :
  match (Example.prepared l).1 with Ok _ => true | Raise _ => false end = true ->
  @solve_setup l Example.solve_data Example.world =
    (Ok (Example.prepared_setup l dflt), (Example.prepared l).2).
Proof. intros H. apply (run_succeeded (Example.prepared l) _ H). Qed.

(** Three images, the second of which the solver cannot read: the process
    still ends with status 0 after three solver calls. *)
Lemma solver_errors_are_isolated_witness :
  exists w2 evs,
    @exit_status Example.lib (Solve Example.solve_data) Example.world = (exit_ok, w2) /\
    log w2 = log (Example.prepared Example.lib).2 ++ evs /\
    sc_image <$> (solved evs).*1 = ["/data/a.jpg"; "/data/b.png"; "/data/c.fits"].
Proof.
  destruct (@solver_errors_are_isolated Example.lib Example.solve_data Example.world
              (Example.prepared_setup Example.lib tt) (Example.prepared Example.lib).2)
    as (w2 & evs & Hexit & _ & Hlog & _ & Himgs & _).
  - apply prepared_ok. vm_compute. reflexivity.
  - intros c w e. simpl. unfold Example.solver.
    destruct (String.eqb _ _); [by intros [= <-]|]. by destruct (String.eqb _ _).
  - exists w2, evs. split; [exact Hexit|]. split; [exact Hlog|]. exact Himgs.
Defined.

(** The same three images without CSV logging: the solver raises on the
    second, the run ends with status 0, and no row is written for it, nor
    for any other image. *)
Lemma solver_error_without_csv_leaves_no_row :
  (@exit_status Example.lib (Solve Example.solve_console) Example.world).1 = exit_ok /\
  (solved (log (@exit_status Example.lib (Solve Example.solve_console) Example.world).2)).*2
    !! 1%nat = Some (Raise (Exception "ValueError" "cannot identify image file")) /\
  written (log (@exit_status Example.lib (Solve Example.solve_console) Example.world).2) = [] /\
  dom (fs (@exit_status Example.lib (Solve Example.solve_console) Example.world).2)
    = dom Example.files.
Proof.
  split; [vm_compute; reflexivity|]. split; [vm_compute; reflexivity|].
  split; [vm_compute; reflexivity|]. apply (bool_decide_unpack _). vm_compute. exact I.
Defined.

(** The solver is interrupted on the second image: the handle is closed all
    the same. *)
Lemma csv_opened_first_closed_always_witness :
  exists r w2 rows,
    @cmd_solve Example.interrupted_lib Example.solve_data Example.world = (r, w2) /\
    fds w2 !! 3%nat = None /\
    fs w2 !! ["out"; "r.csv"] = Some (File (csv_header :: rows)).
Proof.
  destruct (@csv_opened_first_closed_always Example.interrupted_lib Example.solve_data
              Example.world (Example.prepared_setup Example.interrupted_lib tt)
              (Example.prepared Example.interrupted_lib).2 3%nat Example.csv_path)
    as (_ & _ & _ & _ & r & w2 & evs & rows & completed & Hrun & _ & Hclosed & _ & Hfile & _).
  - apply prepared_ok. vm_compute. reflexivity.
  - vm_compute. reflexivity.
  - exists r, w2, rows. split; [exact Hrun|]. split; [exact Hclosed|]. exact Hfile.
Defined.

Lemma failed_rows_keep_solver_fields_witness :
  exists r w2 rows,
    @cmd_solve Example.lib Example.solve_data Example.world = (r, w2) /\
    fs w2 !! ["out"; "r.csv"] = Some (File (csv_header :: rows)).
Proof.
  destruct (@failed_rows_keep_solver_fields Example.lib Example.solve_data
              Example.world (Example.prepared_setup Example.lib tt)
              (Example.prepared Example.lib).2 3%nat Example.csv_path)
    as (r & w2 & evs & rows & Hrun & _ & Hfile & _).
  - apply prepared_ok. vm_compute. reflexivity.
  - vm_compute. reflexivity.
  - exists r, w2, rows. split; [exact Hrun|exact Hfile].
Defined.

(** The solver reports no match for [c.fits] and a right ascension with it:
    the row keeps the right ascension. *)
Lemma failed_row_carries_position :
  exists rows,
    fs (@exit_status Example.lib (Solve Example.solve_data) Example.world).2
      !! ["out"; "r.csv"] = Some (File rows) /\
    rows !! 3%nat = Some [VStr "/data/c.fits"; VBool false; VFloat 10.5;
                          VStr ""; VStr ""; VStr ""] /\
    cell_empty (VFloat 10.5) = false.
Proof.
  eexists. split; [vm_compute; reflexivity|]. split; reflexivity.
Defined.

(** [/out/r.csv] exists with two stale rows. *)
Lemma csv_truncated_after_parents_created_witness :
  fs (Example.prepared Example.lib).2 !! ["out"; "r.csv"] = Some (File [csv_header]) /\
  exists r w2 rows,
    @cmd_solve Example.lib Example.solve_data Example.world = (r, w2) /\
    fs w2 !! ["out"; "r.csv"] = Some (File (csv_header :: rows)).
Proof.
  destruct (@csv_truncated_after_parents_created Example.lib Example.solve_data
              Example.world (Example.prepared_setup Example.lib tt)
              (Example.prepared Example.lib).2 3%nat Example.csv_path Example.stale)
    as (_ & _ & Hheader & r & w2 & evs & rows & completed & Hrun & _ & Hfile & _).
  - apply prepared_ok. vm_compute. reflexivity.
  - vm_compute. reflexivity.
  - vm_compute. reflexivity.
  - split; [exact Hheader|]. exists r, w2, rows. split; [exact Hrun|exact Hfile].
Defined.

(** An empty directory and an existing database *)
Lemma no_images_aborts_before_database_load_witness :
  exists w' evs,
    @cmd_solve Example.lib Example.solve_empty Example.world
      = (Raise (SystemExit exit_no_images), w') /\
    @exit_status Example.lib (Solve Example.solve_empty) Example.world = (exit_no_images, w') /\
    log w' = log Example.world ++ evs /\
    printed evs = [[Txt "ERROR: No images to solve."]] /\
    forall load, EvTetra3 load ∉ evs.
Proof.
  destruct (@no_images_aborts_before_database_load Example.lib Example.solve_empty
              Example.world (mkPath true ["db.npz"]))
    as (w' & evs & Hcmd & Hexit & _ & _ & Hlog & Hpr & Hload).
  - vm_compute. reflexivity.
  - by_evaluation.
  - vm_compute. reflexivity.
  - exists w', evs. auto.
Defined.

(** The same empty directory, the database missing: the run ends on the
    database error, with another status. *)
Lemma empty_expansion_database_missing :
  (expand_images (images Example.solve_empty_no_database) [] Example.world).1 = Ok [] /\
  (@exit_status Example.lib (Solve Example.solve_empty_no_database) Example.world).1
    = exit_database_missing /\
  exit_database_missing <> exit_no_images /\
  printed (log (@exit_status Example.lib (Solve Example.solve_empty_no_database)
                  Example.world).2)
    = [[Txt "ERROR: Database file not found: /missing.npz"];
       [Txt "Generate it first with the 'generate-db' command."]].
Proof.
  split; [vm_compute; reflexivity|]. split; [vm_compute; reflexivity|].
  split; [discriminate|]. vm_compute. reflexivity.
Defined.

(** The generator is interrupted while the catalog directory is the working
    directory. *)
Lemma working_directory_restored_witness :
  exists r w' before scoped after,
    @cmd_generate_db Example.interrupted_lib Example.generate Example.world = (r, w') /\
    log w' = log Example.world ++ before ++ scoped ++ after /\
    cwd w' = ["home"; "u"] /\
    scope_trace before = [] /\ scope_trace after = [] /\
    (scoped = [] \/
     scoped = [EvChdir ["cat"]; EvTetra3 None; EvChdir ["home"; "u"]] \/
     exists c failed,
       scoped = [EvChdir ["cat"]; EvTetra3 None;
                 EvGenerate ["cat"] c failed; EvChdir ["home"; "u"]] /\
       r = match failed with Some e => Raise e | None => Ok tt end).
Proof.
  apply (@working_directory_restored Example.interrupted_lib Example.generate
           Example.world "/cat" Example.cat).
  - reflexivity.
  - vm_compute. reflexivity.
  - split; [reflexivity | vm_compute; reflexivity].
Defined.

(** * Further properties

    The context manager on its own, the two commands from end to end, the
    statuses of the process. *)

Ltac as_emits :=
  repeat match goal with
         | |- context [emit ?e ?x] => change (emit e x) with (emits [e] x)
         end;
  rewrite ?emits_emits.

Section More.
Context `{lib : Tetra3Lib}.

(** ** The context manager *)

(** X1.  [pushd] (lines 31-38) around any body whatever.  When the directory
    to enter exists and the directory the process started from is still
    there once the body is over, the body runs with the new directory as
    working directory, [pushd] ends the way the body ended, with the body's
    value or the body's exception of any kind, and the working directory is
    again the one before the call, also when the body has itself moved
    somewhere else. *)
Theorem pushd_restores_for_any_body {A} (new_dir : Path) (body : M A)
    (w w1 : World) (r : result A) :
  normalize (cwd w) = cwd w ->
  is_dir_at (fs w) (locate (cwd w) new_dir) = true ->
  body (emit (EvChdir (locate (cwd w) new_dir)) (set_cwd (locate (cwd w) new_dir) w)) = (r, w1) ->
  is_dir_at (fs w1) (cwd w) = true ->
  pushd new_dir body w = (r, emit (EvChdir (cwd w)) (set_cwd (cwd w) w1)).
Proof.
  intros Hnorm Hnew Hbody Hprev.
  unfold is_dir_at in *. unfold pushd, bind, Path_cwd, chdir at 1.
  destruct (fs_get (fs w) (locate (cwd w) new_dir)) as [[|c]|]; try done.
  unfold try_finally. rewrite Hbody. unfold chdir, locate. cbn [p_abs p_parts].
  rewrite Hnorm. by destruct (fs_get (fs w1) (cwd w)) as [[|c]|].
Qed.

(** X2.  [pushd] to a path that is not a directory: [os.chdir] raises
    ([FileNotFoundError], or [NotADirectoryError] for a file), the body is
    not run, and the world, working directory and log included, is exactly
    as before the call. *)
Theorem pushd_skips_body_when_directory_is_unreachable {A} (new_dir : Path) (body : M A)
    (w : World) :
  is_dir_at (fs w) (locate (cwd w) new_dir) = false ->
  exists kind,
    pushd new_dir body w = (Raise (Exception kind (path_str new_dir)), w) /\
    (kind = "FileNotFoundError" \/ kind = "NotADirectoryError").
Proof.
  intros Hnew. unfold is_dir_at in *. unfold pushd, bind, Path_cwd, chdir.
  destruct (fs_get (fs w) (locate (cwd w) new_dir)) as [[|c]|]; try done; eauto.
Qed.


(** ** The generate-db command from end to end *)

Lemma resolved_fst s w : resolved s w = ((resolved s w).1, w).
Proof. destruct (resolved s w) as [r w1] eqn:H. apply resolved_spec in H as ->. done. Qed.

Lemma cmd_generate_db_unfold args w :
  cmd_generate_db args w =
    match (resolved (output args) w).1 with
    | Raise e => (Raise e, w)
    | Ok out =>
        match mkdir_from (fs w) [] (locate (cwd w) (parent out)) with
        | Raise e => (Raise e, w)
        | Ok f =>
            let w1 := emit (EvMkdir (locate (cwd w) (parent out))) (set_fs f w) in
            match match if_set (catalog_dir args) with
                  | Some s => match (resolved s w).1 with
                              | Ok d => Ok (Some d)
                              | Raise e => Raise e
                              end
                  | None => Ok None
                  end with
            | Raise e => (Raise e, w1)
            | Ok cd =>
                match ensure_catalog_available (star_catalog args) cd w1 with
                | (Raise e, w2) => (Raise e, w2)
                | (Ok _, w2) =>
                    match match cd with
                          | Some d => pushd d (_generate_db_core args out)
                          | None => _generate_db_core args out
                          end (emits (EvPrint <$> generate_banner args (clock w2) cd out) w2) with
                    | (Raise e, w3) => (Raise e, w3)
                    | (Ok _, w3) =>
                        (Ok tt, emit (EvPrint [Txt ("[OK] Database created: "
                                                    +:+ path_str out)]) w3)
                    end
                end
            end
        end
    end.
Proof.
  unfold cmd_generate_db. unfold bind at 1.
  destruct (resolved (output args) w) as [[out|e] w0] eqn:Hres;
    apply resolved_spec in Hres as ->; cbn [fst]; [|done].
  unfold bind at 1, mkdir_p at 1. cbv zeta.
  destruct (mkdir_from (fs w) [] (locate (cwd w) (parent out))) as [f|e]; [|done].
  set (w1 := emit _ (set_fs f w)).
  unfold bind at 1.
  assert (Hcd : match if_set (catalog_dir args) with
                | Some s => d <- resolved s;; ret (Some d)
                | None => ret None
                end w1 =
                (match if_set (catalog_dir args) with
                 | Some s => match (resolved s w).1 with
                             | Ok d => Ok (Some d)
                             | Raise e => Raise e
                             end
                 | None => Ok None
                 end, w1)).
  { destruct (if_set (catalog_dir args)) as [s|]; [|done].
    unfold bind. rewrite (resolved_fst s w1), (resolved_frame s w w1 eq_refl eq_refl).
    by destruct ((resolved s w).1). }
  rewrite Hcd. clear Hcd.
  destruct (match if_set (catalog_dir args) with Some s => _ | None => _ end) as [cd|e]; [|done].
  unfold bind at 1.
  destruct (ensure_catalog_available (star_catalog args) cd w1) as [[[]|e] w2]; [|done].
  unfold bind at 1, now_iso at 1. do 6 (unfold bind at 1; unfold print at 1).
  unfold generate_banner. cbn [fmap list_fmap]. as_emits.
  unfold bind at 1. cbn [app].
  match goal with |- context [?m (emits ?l w2)] => destruct (m (emits l w2)) as [[[]|e] w3] end; done.
Qed.

Lemma ensure_catalog_available_cases name cd w :
  exists evs,
    (ensure_catalog_available name cd w).2 = emits evs w /\ scope_trace evs = [] /\
    match (ensure_catalog_available name cd w).1 with
    | Ok _ =>
        printed evs = [] /\
        exists filename d,
          assoc name required = Some filename /\
          d ∈ match cd with Some d => [d] | None => [] end ++ [mkPath true (cwd w)] /\
          is_Some (fs_get (fs w) (locate (cwd w) (joinpath d filename)))
    | Raise e =>
        e = SystemExit exit_unsupported_catalog /\ assoc name required = None /\
        evs = [EvPrint [Txt ("ERROR: Unsupported star_catalog '" +:+ name
                             +:+ "'. Use one of: hip_main, tyc_main, bsc5")]]
        \/ e = SystemExit exit_catalog_missing /\
           exists filename,
             assoc name required = Some filename /\
             forall d, d ∈ match cd with Some d => [d] | None => [] end ++ [mkPath true (cwd w)] ->
                       fs_get (fs w) (locate (cwd w) (joinpath d filename)) = None
    end.
Proof.
  unfold ensure_catalog_available.
  destruct (assoc name required) as [filename|].
  2: { unfold bind, print, sys_exit, raise. cbn [fst snd]. as_emits.
       eexists. split; [reflexivity|]. split; [done|]. left. done. }
  unfold print_hint.
  destruct cd as [d|]; cbn [app probe];
    unfold bind, exists_, ret, print, sys_exit, raise, Path_cwd; cbn [fs cwd emit].
  all: repeat match goal with
       | |- context [bool_decide ?P] => destruct (bool_decide P) eqn:?
       end.
  all: repeat match goal with
       | |- context [String.eqb ?a ?b] => destruct (String.eqb a b)
       end.
  all: unfold bind, print; cbn [fst snd]; as_emits.
  all: eexists; (split; [reflexivity|]); (split; [done|]).
  all: repeat match goal with
       | H : bool_decide _ = true |- _ => apply bool_decide_eq_true in H
       | H : bool_decide _ = false |- _ =>
           apply bool_decide_eq_false in H; rewrite <- eq_None_not_Some in H
       end.
  all: try (right; split; [reflexivity|]; exists filename; split; [reflexivity|];
            intros d0 Hd0; rewrite ?elem_of_cons, elem_of_nil in Hd0;
            by destruct Hd0 as [->|[->|[]]] || by destruct Hd0 as [->|[]]).
  all: split; [done|]; exists filename.
  - exists d. split; [done|]. split; [apply list_elem_of_here|done].
  - exists (mkPath true (cwd w)). split; [done|].
    split; [apply list_elem_of_further, list_elem_of_here|done].
  - exists (mkPath true (cwd w)). split; [done|]. split; [apply list_elem_of_here|done].
Qed.

(** ** Paths and their strings *)

Lemma split_on_no_sep c s : c ∉ list_ascii_of_string s -> split_on c s = [s].
Proof.
  induction s as [|a s IH]; intros Hc; [done|]. simpl in *.
  apply not_elem_of_cons in Hc as [Hne Hc].
  destruct (Ascii.eqb_spec a c) as [->|_]; [done|]. by rewrite IH.
Qed.

Lemma split_on_app c x rest :
  c ∉ list_ascii_of_string x -> split_on c (x +:+ String c rest) = x :: split_on c rest.
Proof.
  induction x as [|a x IH]; intros Hc; simpl in *.
  - by rewrite Ascii.eqb_refl.
  - apply not_elem_of_cons in Hc as [Hne Hc].
    destruct (Ascii.eqb_spec a c) as [->|_]; [done|]. by rewrite IH.
Qed.

Lemma split_on_join l :
  l <> [] -> Forall (fun x => "/"%char ∉ list_ascii_of_string x) l ->
  split_on "/" (join "/" l) = l.
Proof.
  induction l as [|x l IH]; intros Hne Hall; [done|].
  apply Forall_cons in Hall as [Hx Hl].
  destruct l as [|y l]; [by apply split_on_no_sep|].
  change (join "/" (x :: y :: l)) with (x +:+ String "/" (join "/" (y :: l))).
  rewrite split_on_app by done. by rewrite IH.
Qed.

Lemma split_on_components c s x : x ∈ split_on c s -> c ∉ list_ascii_of_string x.
Proof.
  revert x. induction s as [|a s IH]; intros x Hx; simpl in Hx.
  - apply list_elem_of_singleton in Hx as ->. apply not_elem_of_nil.
  - destruct (Ascii.eqb_spec a c) as [->|Hne].
    + apply elem_of_cons in Hx as [->|Hx]; [apply not_elem_of_nil|by apply IH].
    + destruct (split_on c s) as [|y r] eqn:Hs.
      * apply list_elem_of_singleton in Hx as ->. simpl.
        apply not_elem_of_cons. split; [done|apply not_elem_of_nil].
      * apply elem_of_cons in Hx as [->|Hx].
        -- simpl. apply not_elem_of_cons. split; [done|]. apply IH, list_elem_of_here.
        -- apply IH. by apply list_elem_of_further.
Qed.

Lemma Path_of_parts_ok s : Forall name_ok (p_parts (Path_of s)).
Proof.
  apply Forall_forall. intros x Hx. unfold Path_of in Hx. cbn [p_parts] in Hx.
  apply list_elem_of_filter in Hx as [[H1 H2] Hx].
  split; [done|]. split; [done|]. by eapply split_on_components.
Qed.

Lemma filter_all {X} (P : X -> Prop) `{!forall x, Decision (P x)} (l : list X) :
  Forall P l -> filter P l = l.
Proof.
  induction 1 as [|x l Hx Hl IH]; [done|]. by rewrite filter_cons_True, IH.
Qed.

Lemma Path_of_path_str l :
  Forall name_ok l -> Path_of (path_str (mkPath true l)) = mkPath true l.
Proof.
  intros Hl. unfold path_str, Path_of. cbn [p_abs p_parts].
  change ("/" +:+ join "/" l) with (String "/" (join "/" l)).
  cbn [starts_with_slash split_on]. rewrite Ascii.eqb_refl. f_equal.
  destruct l as [|x l].
  - by vm_compute.
  - rewrite split_on_join; [|done|].
    + rewrite filter_cons_False by (intros [? _]; done).
      apply filter_all. eapply Forall_impl; [exact Hl|]. by intros c (? & ? & _).
    + eapply Forall_impl; [exact Hl|]. by intros c (? & ? & ?).
Qed.

Lemma normalize_foldl (P : string -> Prop) l : forall acc,
  Forall P acc -> Forall P l ->
  Forall P (foldl (fun acc c => if decide (c = "..") then tail acc else c :: acc) acc l).
Proof.
  induction l as [|c l IH]; intros acc Hacc Hl; [done|].
  apply Forall_cons in Hl as [Hc Hl]. simpl. apply IH; [|done].
  case_decide; [|by constructor]. destruct acc; [done|]. by apply Forall_cons in Hacc as [_ ?].
Qed.

Lemma normalize_Forall (P : string -> Prop) l : Forall P l -> Forall P (normalize l).
Proof. intros Hl. unfold normalize. apply Forall_reverse. by apply normalize_foldl. Qed.

Lemma normalize_no_dotdot_foldl l : forall acc,
  Forall (fun c => c <> "..") acc ->
  Forall (fun c => c <> "..")
         (foldl (fun acc c => if decide (c = "..") then tail acc else c :: acc) acc l).
Proof.
  induction l as [|c l IH]; intros acc Hacc; [done|].
  simpl. apply IH. case_decide; [|by constructor].
  destruct acc; [done|]. by apply Forall_cons in Hacc as [_ ?].
Qed.

Lemma normalize_no_dotdot l : Forall (fun c => c <> "..") (normalize l).
Proof. unfold normalize. apply Forall_reverse. by apply normalize_no_dotdot_foldl. Qed.

Lemma normalize_id_foldl l : forall acc,
  Forall (fun c => c <> "..") l ->
  foldl (fun acc c => if decide (c = "..") then tail acc else c :: acc) acc l
  = reverse l ++ acc.
Proof.
  induction l as [|c l IH]; intros acc Hl; [done|].
  apply Forall_cons in Hl as [Hc Hl]. simpl. rewrite decide_False by done.
  rewrite IH by done. by rewrite reverse_cons, <- app_assoc.
Qed.

Lemma normalize_id l : Forall (fun c => c <> "..") l -> normalize l = l.
Proof.
  intros Hl. unfold normalize. rewrite normalize_id_foldl by done.
  by rewrite app_nil_r, reverse_involutive.
Qed.

(** What [Path(s).expanduser().resolve()] returns is canonical. *)
Lemma resolved_canonical s w out :
  names_ok w -> (resolved s w).1 = Ok out ->
  p_abs out = true /\ Forall name_ok (p_parts out) /\ Forall (fun c => c <> "..") (p_parts out).
Proof.
  intros [Hcwd Hhomes] Hres. unfold resolved, bind in Hres.
  pose proof (Path_of_parts_ok s) as Hparts.
  assert (Hexp : forall p, (expanduser (Path_of s) w).1 = Ok p ->
                 Forall name_ok (if p_abs p then p_parts p else cwd w ++ p_parts p)).
  { intros p. unfold expanduser.
    destruct (p_abs (Path_of s)) eqn:Habs.
    - intros [= <-]. by rewrite Habs.
    - destruct (p_parts (Path_of s)) as [|c rest] eqn:Hp.
      + intros [= <-]. rewrite Habs, Hp. by rewrite app_nil_r.
      + destruct c as [|a user].
        * intros [= <-]. rewrite Habs, Hp. by apply Forall_app.
        * destruct (Ascii.eqb_spec a "~") as [->|Hne].
          -- destruct (homes w !! user) as [h|] eqn:Hh; [|done].
             intros [= <-]. cbn [p_abs p_parts]. apply Forall_app. split.
             ++ by apply (Hhomes user h).
             ++ by apply Forall_cons in Hparts as [_ ?].
          -- assert (Hsame : forall X (x y : X),
                       match a with "~"%char => x | _ => y end = y).
             { intros X x y. destruct a as [[] [] [] [] [] [] [] []]; try done. }
             rewrite Hsame. intros [= <-]. rewrite Habs, Hp. by apply Forall_app. }
  pose proof (expanduser_state (Path_of s) w) as Hs.
  destruct (expanduser (Path_of s) w) as [[p|e] w1]; simpl in Hs; subst w1; [|done].
  unfold resolve in Hres. cbn in Hres. injection Hres as <-. cbn [p_abs p_parts].
  split; [done|]. unfold locate. split; [|apply normalize_no_dotdot].
  apply normalize_Forall. by apply Hexp.
Qed.

(** [str] of a canonical path denotes the same location from everywhere. *)
Lemma path_str_denotes out wd :
  p_abs out = true -> Forall name_ok (p_parts out) -> Forall (fun c => c <> "..") (p_parts out) ->
  Path_of (path_str out) = out /\ locate wd (Path_of (path_str out)) = p_parts out.
Proof.
  destruct out as [a l]. cbn [p_abs p_parts]. intros -> Hok Hdd.
  rewrite Path_of_path_str by done. split; [done|].
  unfold locate. cbn [p_abs p_parts]. by apply normalize_id.
Qed.

(** ** The generation stage *)

Lemma pushd_run {A} (d : Path) (body : M A) w :
  pushd d body w =
    match fs_get (fs w) (locate (cwd w) d) with
    | Some Dir =>
        match body (emit (EvChdir (locate (cwd w) d)) (set_cwd (locate (cwd w) d) w)) with
        | (r, w1) =>
            match fs_get (fs w1) (normalize (cwd w)) with
            | Some Dir =>
                (r, emit (EvChdir (normalize (cwd w))) (set_cwd (normalize (cwd w)) w1))
            | Some (File _) =>
                (Raise (Exception "NotADirectoryError" (path_str (mkPath true (cwd w)))), w1)
            | None =>
                (Raise (Exception "FileNotFoundError" (path_str (mkPath true (cwd w)))), w1)
            end
        end
    | Some (File _) => (Raise (Exception "NotADirectoryError" (path_str d)), w)
    | None => (Raise (Exception "FileNotFoundError" (path_str d)), w)
    end.
Proof.
  unfold pushd, bind, Path_cwd, chdir at 1.
  destruct (fs_get (fs w) (locate (cwd w) d)) as [[|c]|]; try done.
  unfold try_finally. destruct (body _) as [r w1].
  unfold chdir, locate. cbn [p_abs p_parts].
  by destruct (fs_get (fs w1) (normalize (cwd w))) as [[|c]|].
Qed.

Lemma fs_get_insert_is_Some f loc v k :
  is_Some (fs_get f k) -> is_Some (fs_get (<[loc := v]> f) k).
Proof.
  destruct k as [|x k]; [done|]. cbn [fs_get]. rewrite lookup_insert.
  case_decide; [by eexists|done].
Qed.

(** The call of lines 105-112, with the values the namespace holds *)
Lemma generate_db_core_run args out w :
  exists r w' evs,
    _generate_db_core args out w = (r, w') /\
    log w' = log w ++ evs /\ cwd w' = cwd w /\
    (forall k, is_Some (fs_get (fs w) k) -> is_Some (fs_get (fs w') k)) /\
    (forall k, is_dir_at (fs w) k = true -> is_dir_at (fs w') k = true) /\
    ((exists e, r = Raise e /\ evs = [EvTetra3 None]) \/
     exists failed,
       evs = [EvTetra3 None;
              EvGenerate (cwd w)
                (mkGenCall (min_fov args) (max_fov args) (star_catalog args)
                           (star_max_magnitude args) (path_str out)) failed] /\
       r = match failed with Some e => Raise e | None => Ok tt end).
Proof.
  unfold _generate_db_core, bind, new_Tetra3.
  destruct (Tetra3 None w) as [t3|e].
  2: { do 3 eexists. split; [reflexivity|]. cbn. do 4 (split; [done|]). left. eauto. }
  unfold call_generate_database. cbn [fs cwd emit log].
  destruct (generate_database t3 _ _) as [content|e].
  - destruct (is_dir_at (fs w) _) eqn:Hd.
    + do 3 eexists. split; [reflexivity|]. cbn [fs cwd emit log].
      rewrite <- app_assoc. do 4 (split; [done|]). right. by eexists (Some _).
    + do 3 eexists. split; [reflexivity|]. cbn [fs cwd emit log set_fs].
      rewrite <- app_assoc. do 2 (split; [done|]).
      split; [intros k; apply fs_get_insert_is_Some|].
      split; [by apply dirs_kept_insert_file|]. right. by exists None.
  - do 3 eexists. split; [reflexivity|]. cbn [fs cwd emit log].
    rewrite <- app_assoc. do 4 (split; [done|]). right. by eexists (Some _).
Qed.

Lemma resolved_raises s w e : (resolved s w).1 = Raise e -> is_Exception e = true.
Proof.
  unfold resolved, bind, expanduser, resolve. repeat case_match; simplify_eq; cbn; try done.
  all: by intros [= <-].
Qed.

Lemma mkdir_from_raises todo : forall f base e,
  mkdir_from f base todo = Raise e -> is_Exception e = true.
Proof.
  induction todo as [|c todo IH]; intros f base e; simpl; [done|].
  destruct (f !! (base ++ [c])) as [[|content]|]; eauto. by intros [= <-].
Qed.

Lemma scope_trace_prints (lines : list (list piece)) : scope_trace (EvPrint <$> lines) = [].
Proof. induction lines; [done|]. done. Qed.

Lemma in_scope_trace e evs :
  e ∈ evs ->
  match e with EvChdir _ | EvTetra3 _ | EvGenerate _ _ _ => e ∈ scope_trace evs | _ => True end.
Proof.
  intros Hin. destruct e; try done; apply list_elem_of_omap; eexists; (split; [exact Hin|done]).
Qed.

(** X4.  generate-db without a catalog directory ([--catalog-dir] absent or
    empty, line 85): the else branch of lines 98-99 runs the generation in
    place.  On every path the working directory is never changed, not even
    for a time: the log holds no [chdir]; the library is constructed at most
    once, and the generator, when it is called, is called once, from the
    directory of the invocation. *)
Theorem generate_db_without_catalog_dir_stays_put (args : gen_args) (w : World) :
  if_set (catalog_dir args) = None ->
  exists r w' evs,
    cmd_generate_db args w = (r, w') /\
    log w' = log w ++ evs /\ cwd w' = cwd w /\
    (forall loc, EvChdir loc ∉ evs) /\
    (scope_trace evs = [] \/ scope_trace evs = [EvTetra3 None] \/
     exists c failed,
       scope_trace evs = [EvTetra3 None; EvGenerate (cwd w) c failed] /\
       r = match failed with Some e => Raise e | None => Ok tt end).
Proof.
  intros Hset.
  assert (Hmain : exists r w' evs,
    cmd_generate_db args w = (r, w') /\
    log w' = log w ++ evs /\ cwd w' = cwd w /\
    (scope_trace evs = [] \/ scope_trace evs = [EvTetra3 None] \/
     exists c failed,
       scope_trace evs = [EvTetra3 None; EvGenerate (cwd w) c failed] /\
       r = match failed with Some e => Raise e | None => Ok tt end)).
  { rewrite cmd_generate_db_unfold, Hset.
    destruct ((resolved (output args) w).1) as [out|e].
    2: { exists (Raise e), w, []. rewrite app_nil_r. auto. }
    destruct (mkdir_from (fs w) [] (locate (cwd w) (parent out))) as [f|e].
    2: { exists (Raise e), w, []. rewrite app_nil_r. auto. }
    cbv zeta. set (w1 := emit _ (set_fs f w)).
    destruct (ensure_catalog_available_cases (star_catalog args) None w1)
      as (evs1 & Hw2 & Hscope1 & _).
    destruct (ensure_catalog_available (star_catalog args) None w1) as [[[]|e] w2];
      simpl in Hw2; subst w2 w1; as_emits.
    2: { do 3 eexists. split; [reflexivity|]. cbn [log emits set_fs cwd].
         split; [reflexivity|]. split; [done|]. left.
         by rewrite scope_trace_app, Hscope1. }
    cbn [clock emits set_fs].
    set (pre := _ ++ _ ++ _).
    assert (Hpre : scope_trace pre = []).
    { subst pre. by rewrite !scope_trace_app, Hscope1, scope_trace_prints. }
    clearbody pre.
    destruct (generate_db_core_run args out (emits pre (set_fs f w)))
      as (r & w3 & evs & Hrun & Hlog & Hcwd & _ & _ & Hevs).
    rewrite Hrun. cbn [log emits set_fs cwd] in *.
    assert (Hshape : scope_trace (pre ++ evs) = [EvTetra3 None] \/
       exists c failed,
         scope_trace (pre ++ evs) = [EvTetra3 None; EvGenerate (cwd w) c failed] /\
         r = match failed with Some e => Raise e | None => Ok tt end).
    { rewrite scope_trace_app, Hpre.
      destruct Hevs as [(e & -> & ->)|(failed & -> & ->)]; [by left|right; eauto]. }
    destruct r as [[]|e].
    - do 3 eexists. split; [reflexivity|]. cbn [log emit cwd]. rewrite Hlog, <- !app_assoc.
      split; [reflexivity|]. split; [done|]. right.
      rewrite app_assoc, scope_trace_app. cbn. by rewrite app_nil_r.
    - do 3 eexists. split; [reflexivity|]. rewrite Hlog, <- !app_assoc.
      split; [reflexivity|]. split; [done|]. by right. }
  destruct Hmain as (r & w' & evs & Hrun & Hlog & Hcwd & Hshape).
  exists r, w', evs. do 3 (split; [done|]). split; [|done].
  intros loc Hin. apply in_scope_trace in Hin.
  destruct Hshape as [H|[H|(c & failed & H & _)]]; rewrite H in Hin;
    repeat (apply elem_of_cons in Hin as [Hin|Hin]; [done|]); by apply elem_of_nil in Hin.
Qed.

(** X5.  generate-db with a catalog name outside the table never reaches
    the library and never returns normally.  Unless the preparation of the
    paths raised an [Exception] (lines 82-85), it leaves with [SystemExit]
    of status 2; and since the parent directory of the output is created at
    line 83, before the catalog is looked at on line 86, that directory and
    its ancestors exist after the failed run: the log is the [mkdir] and the
    error line, nothing else. *)
Theorem generate_db_unsupported_catalog_after_mkdir (args : gen_args) (w : World) :
  star_catalog args <> "hip_main" -> star_catalog args <> "tyc_main" ->
  star_catalog args <> "bsc5" ->
  exists r w' evs,
    cmd_generate_db args w = (r, w') /\
    log w' = log w ++ evs /\ cwd w' = cwd w /\ scope_trace evs = [] /\
    match r with
    | Ok _ => False
    | Raise (SystemExit n) =>
        n = exit_unsupported_catalog /\
        exists out,
          (resolved (output args) w).1 = Ok out /\
          evs = [EvMkdir (locate (cwd w) (parent out));
                 EvPrint [Txt ("ERROR: Unsupported star_catalog '" +:+ star_catalog args
                               +:+ "'. Use one of: hip_main, tyc_main, bsc5")]] /\
          forall q, q <> [] -> q `prefix_of` locate (cwd w) (parent out) ->
                    fs w' !! q = Some Dir
    | Raise e => is_Exception e = true
    end.
Proof.
  intros H1 H2 H3. pose proof (assoc_unsupported _ H1 H2 H3) as Hnone.
  rewrite cmd_generate_db_unfold.
  destruct ((resolved (output args) w).1) as [out|e] eqn:Hout.
  2: { exists (Raise e), w, []. rewrite app_nil_r. do 4 (split; [done|]).
       apply resolved_raises in Hout. by destruct e. }
  destruct (mkdir_from (fs w) [] (locate (cwd w) (parent out))) as [f|e] eqn:Hmk.
  2: { exists (Raise e), w, []. rewrite app_nil_r. do 4 (split; [done|]).
       apply mkdir_from_raises in Hmk. by destruct e. }
  cbv zeta. set (w1 := emit _ (set_fs f w)).
  destruct (if_set (catalog_dir args)) as [s|].
  - destruct ((resolved s w).1) as [d|e] eqn:Hd.
    2: { exists (Raise e), w1, [EvMkdir (locate (cwd w) (parent out))].
         do 4 (split; [done|]). apply resolved_raises in Hd. by destruct e. }
    destruct (ensure_catalog_available_cases (star_catalog args) (Some d) w1)
      as (evs1 & Hw2 & Hscope1 & Hcase).
    destruct (ensure_catalog_available (star_catalog args) (Some d) w1) as [[[]|e] w2];
      cbn [fst snd] in Hw2, Hcase; subst w2.
    { destruct Hcase as (_ & ? & ? & ? & _). congruence. }
    destruct Hcase as [(-> & _ & ->)|[_ (? & ? & _)]]; [|congruence].
    subst w1. as_emits. do 3 eexists. split; [reflexivity|]. cbn [log emits set_fs cwd fs].
    do 3 (split; [done|]). split; [done|]. exists out. do 2 (split; [done|]).
    apply mkdir_from_spec in Hmk as (_ & _ & Hdirs).
    intros q Hq Hp. apply Hdirs; [apply prefix_nil|done..].
  - destruct (ensure_catalog_available_cases (star_catalog args) None w1)
      as (evs1 & Hw2 & Hscope1 & Hcase).
    destruct (ensure_catalog_available (star_catalog args) None w1) as [[[]|e] w2];
      cbn [fst snd] in Hw2, Hcase; subst w2.
    { destruct Hcase as (_ & ? & ? & ? & _). congruence. }
    destruct Hcase as [(-> & _ & ->)|[_ (? & ? & _)]]; [|congruence].
    subst w1. as_emits. do 3 eexists. split; [reflexivity|]. cbn [log emits set_fs cwd fs].
    do 3 (split; [done|]). split; [done|]. exists out. do 2 (split; [done|]).
    apply mkdir_from_spec in Hmk as (_ & _ & Hdirs).
    intros q Hq Hp. apply Hdirs; [apply prefix_nil|done..].
Qed.

(** Lines 95-99: the generation, inside [pushd] when a catalog directory is
    given. *)
Lemma generation_stage_run args out cd w :
  exists r w' evs,
    match cd with
    | Some d => pushd d (_generate_db_core args out)
    | None => _generate_db_core args out
    end w = (r, w') /\
    log w' = log w ++ evs /\
    (forall k, is_Some (fs_get (fs w) k) -> is_Some (fs_get (fs w') k)) /\
    (forall at_cwd c failed, EvGenerate at_cwd c failed ∈ evs ->
       c = mkGenCall (min_fov args) (max_fov args) (star_catalog args)
                     (star_max_magnitude args) (path_str out)) /\
    (r = Ok tt ->
       evs = match cd with
             | Some d =>
                 [EvChdir (locate (cwd w) d); EvTetra3 None;
                  EvGenerate (locate (cwd w) d)
                    (mkGenCall (min_fov args) (max_fov args) (star_catalog args)
                               (star_max_magnitude args) (path_str out)) None;
                  EvChdir (normalize (cwd w))]
             | None =>
                 [EvTetra3 None;
                  EvGenerate (cwd w)
                    (mkGenCall (min_fov args) (max_fov args) (star_catalog args)
                               (star_max_magnitude args) (path_str out)) None]
             end).
Proof.
  destruct cd as [d|].
  - rewrite pushd_run.
    destruct (fs_get (fs w) (locate (cwd w) d)) as [[|c0]|].
    2,3: do 3 eexists; split; [reflexivity|]; rewrite app_nil_r;
         do 2 (split; [done|]); split; [by intros ? ? ? ?%elem_of_nil|done].
    destruct (generate_db_core_run args out
                (emit (EvChdir (locate (cwd w) d)) (set_cwd (locate (cwd w) d) w)))
      as (r & w1 & evs & Hrun & Hlog & Hcwd & Hsome & _ & Hevs).
    rewrite Hrun. cbn [log emit set_cwd cwd fs] in *.
    assert (Hgen : forall at_cwd c failed,
              EvGenerate at_cwd c failed ∈ EvChdir (locate (cwd w) d) :: evs ++ [EvChdir (normalize (cwd w))] ->
              c = mkGenCall (min_fov args) (max_fov args) (star_catalog args)
                            (star_max_magnitude args) (path_str out)).
    { intros a c failed Hin. apply elem_of_cons in Hin as [?|Hin]; [done|].
      apply elem_of_app in Hin as [Hin|Hin].
      2: { by apply list_elem_of_singleton in Hin. }
      destruct Hevs as [(e & _ & ->)|(f0 & -> & _)].
      - by apply list_elem_of_singleton in Hin.
      - apply elem_of_cons in Hin as [?|Hin]; [done|].
        apply list_elem_of_singleton in Hin. by injection Hin as _ <- _. }
    destruct (fs_get (fs w1) (normalize (cwd w))) as [[|c0]|].
    + do 3 eexists. split; [reflexivity|]. cbn [log emit set_cwd fs].
      rewrite Hlog, <- !app_assoc. split; [reflexivity|]. split; [done|].
      split; [exact Hgen|]. intros ->.
      destruct Hevs as [(e & ? & _)|(failed & -> & Hr)]; [done|]. by destruct failed.
    + exists (Raise (Exception "NotADirectoryError" (path_str (mkPath true (cwd w))))), w1.
      eexists. split; [reflexivity|]. rewrite Hlog, <- !app_assoc.
      split; [reflexivity|]. split; [done|]. split; [|done].
      intros a c failed Hin. apply (Hgen a c failed).
      rewrite app_comm_cons. apply elem_of_app. by left.
    + exists (Raise (Exception "FileNotFoundError" (path_str (mkPath true (cwd w))))), w1.
      eexists. split; [reflexivity|]. rewrite Hlog, <- !app_assoc.
      split; [reflexivity|]. split; [done|]. split; [|done].
      intros a c failed Hin. apply (Hgen a c failed).
      rewrite app_comm_cons. apply elem_of_app. by left.
  - destruct (generate_db_core_run args out w)
      as (r & w1 & evs & Hrun & Hlog & Hcwd & Hsome & _ & Hevs).
    exists r, w1, evs. do 3 (split; [done|]). split.
    + intros a c failed Hin. destruct Hevs as [(e & _ & ->)|(f0 & -> & _)].
      * by apply list_elem_of_singleton in Hin.
      * apply elem_of_cons in Hin as [?|Hin]; [done|].
        apply list_elem_of_singleton in Hin. by injection Hin as _ <- _.
    + intros ->. destruct Hevs as [(e & ? & _)|(failed & -> & Hr)]; [done|]. by destruct failed.
Qed.

(** X6.  What a normal return of generate-db guarantees.  The catalog name is
    in the table and its file was seen in one of the search directories
    (and still exists at the end); after the six lines of the banner
    (lines 88-93) the library was constructed once with no database and the
    generator called once, without raising, with the numbers and the catalog
    name of the namespace unchanged and the resolved output path as
    [save_as], inside the change to the catalog directory and back when one
    was given; and the last thing the run did is print the [OK] line with
    that same path. *)
Theorem generate_db_success_postcondition (args : gen_args) (w w' : World) :
  cmd_generate_db args w = (Ok tt, w') ->
  exists out cd filename found before,
    (resolved (output args) w).1 = Ok out /\
    match if_set (catalog_dir args) with
    | Some s => exists d, (resolved s w).1 = Ok d /\ cd = Some d
    | None => cd = None
    end /\
    assoc (star_catalog args) required = Some filename /\
    found ∈ match cd with Some d => [d] | None => [] end ++ [mkPath true (cwd w)] /\
    is_Some (fs_get (fs w') (locate (cwd w) (joinpath found filename))) /\
    scope_trace before = [] /\
    log w' = log w ++ before
      ++ (EvPrint <$> generate_banner args (clock w) cd out)
      ++ match cd with
         | Some d =>
             [EvChdir (locate (cwd w) d); EvTetra3 None;
              EvGenerate (locate (cwd w) d)
                (mkGenCall (min_fov args) (max_fov args) (star_catalog args)
                           (star_max_magnitude args) (path_str out)) None;
              EvChdir (normalize (cwd w))]
         | None =>
             [EvTetra3 None;
              EvGenerate (cwd w)
                (mkGenCall (min_fov args) (max_fov args) (star_catalog args)
                           (star_max_magnitude args) (path_str out)) None]
         end
      ++ [EvPrint [Txt ("[OK] Database created: " +:+ path_str out)]].
Proof.
  rewrite cmd_generate_db_unfold.
  destruct ((resolved (output args) w).1) as [out|e] eqn:Hout; [|done].
  destruct (mkdir_from (fs w) [] (locate (cwd w) (parent out))) as [f|e] eqn:Hmk; [|done].
  cbv zeta. set (w1 := emit _ (set_fs f w)).
  set (cdr := match if_set (catalog_dir args) with Some s => _ | None => _ end).
  destruct cdr as [cd|e] eqn:Hcd; [|done].
  assert (Hcd' : match if_set (catalog_dir args) with
                 | Some s => exists d, (resolved s w).1 = Ok d /\ cd = Some d
                 | None => cd = None
                 end).
  { subst cdr. destruct (if_set (catalog_dir args)) as [s|]; [|congruence].
    destruct ((resolved s w).1) as [d|]; [|done]. exists d. split; congruence. }
  clear Hcd. clearbody cdr.
  destruct (ensure_catalog_available_cases (star_catalog args) cd w1)
    as (evs1 & Hw2 & Hscope1 & Hcase).
  destruct (ensure_catalog_available (star_catalog args) cd w1) as [[[]|e] w2];
    cbn [fst snd] in Hw2, Hcase; subst w2; [|done].
  destruct Hcase as (_ & filename & found & Hassoc & Hfound & Hsome).
  destruct (generation_stage_run args out cd
              (emits (EvPrint <$> generate_banner args (clock (emits evs1 w1)) cd out)
                     (emits evs1 w1)))
    as (r & w3 & evs & Hrun & Hlog & Hkeep & _ & Hok).
  rewrite Hrun. destruct r as [[]|e]; [|done]. intros [= <-].
  specialize (Hok eq_refl). subst w1. cbn [log emit emits set_fs cwd fs clock] in *.
  exists out, cd, filename, found, (EvMkdir (locate (cwd w) (parent out)) :: evs1).
  do 4 (split; [done|]). split; [by apply Hkeep|]. split; [exact Hscope1|].
  rewrite Hlog, Hok. cbn [app]. by rewrite <- !app_assoc.
Qed.

(** X7.  The output path is resolved at line 82, before any change of
    directory, and handed over as a string (line 111).  In a world whose
    working directory and home directories are made of proper names, that
    string reads back as the resolved path, and from whatever directory it
    is read it denotes one location: the one the [--output] argument names
    from the directory of the invocation.  So a relative [--output] is
    relative to where the command was started, not to the catalog
    directory in which the generator runs. *)
Theorem generator_is_told_an_absolute_output_path (args : gen_args) (w : World) :
  names_ok w ->
  exists r w' evs,
    cmd_generate_db args w = (r, w') /\
    log w' = log w ++ evs /\
    forall at_cwd c failed, EvGenerate at_cwd c failed ∈ evs ->
      exists out,
        (resolved (output args) w).1 = Ok out /\
        c = mkGenCall (min_fov args) (max_fov args) (star_catalog args)
                      (star_max_magnitude args) (path_str out) /\
        Path_of (gc_save_as c) = out /\
        forall wd, locate wd (Path_of (gc_save_as c)) = locate (cwd w) out.
Proof.
  intros Hnames. rewrite cmd_generate_db_unfold.
  destruct ((resolved (output args) w).1) as [out|e] eqn:Hout.
  2: { exists (Raise e), w, []. rewrite app_nil_r. do 2 (split; [done|]).
       by intros ? ? ? ?%elem_of_nil. }
  destruct (mkdir_from (fs w) [] (locate (cwd w) (parent out))) as [f|e] eqn:Hmk.
  2: { exists (Raise e), w, []. rewrite app_nil_r. do 2 (split; [done|]).
       by intros ? ? ? ?%elem_of_nil. }
  cbv zeta. set (w1 := emit _ (set_fs f w)).
  set (cdr := match if_set (catalog_dir args) with Some s => _ | None => _ end).
  clearbody cdr. destruct cdr as [cd|e].
  2: { exists (Raise e), w1, [EvMkdir (locate (cwd w) (parent out))].
       do 2 (split; [done|]). intros ? ? ? Hin. by apply list_elem_of_singleton in Hin. }
  destruct (ensure_catalog_available_cases (star_catalog args) cd w1)
    as (evs1 & Hw2 & Hscope1 & _).
  assert (Hno : forall pre at_cwd c failed,
            scope_trace pre = [] -> EvGenerate at_cwd c failed ∉ pre).
  { intros pre a c failed Hpre Hin. apply in_scope_trace in Hin.
    rewrite Hpre in Hin. by apply elem_of_nil in Hin. }
  destruct (ensure_catalog_available (star_catalog args) cd w1) as [[[]|e] w2];
    cbn [fst snd] in Hw2; subst w2.
  2: { subst w1. as_emits. do 3 eexists. split; [reflexivity|]. split; [reflexivity|].
       intros a c failed Hin. exfalso. revert Hin. apply Hno.
       by rewrite scope_trace_app, Hscope1. }
  destruct (generation_stage_run args out cd
              (emits (EvPrint <$> generate_banner args (clock (emits evs1 w1)) cd out)
                     (emits evs1 w1)))
    as (r & w3 & evs & Hrun & Hlog & _ & Hgen & _).
  rewrite Hrun. subst w1. cbn [log emit emits set_fs cwd fs clock] in *.
  set (pre := [EvMkdir (locate (cwd w) (parent out))] ++ evs1
              ++ (EvPrint <$> generate_banner args (clock w) cd out)).
  assert (Hpre : scope_trace pre = []).
  { subst pre. by rewrite !scope_trace_app, Hscope1, scope_trace_prints. }
  assert (Hall : forall at_cwd c failed post,
            scope_trace post = [] -> EvGenerate at_cwd c failed ∈ pre ++ evs ++ post ->
            exists out0,
              (Ok out : result Path) = Ok out0 /\
              c = mkGenCall (min_fov args) (max_fov args) (star_catalog args)
                            (star_max_magnitude args) (path_str out0) /\
              Path_of (gc_save_as c) = out0 /\
              forall wd, locate wd (Path_of (gc_save_as c)) = locate (cwd w) out0).
  { intros a c failed post Hpost Hin.
    apply elem_of_app in Hin as [Hin|Hin]; [by apply Hno in Hin|].
    apply elem_of_app in Hin as [Hin|Hin]; [|by apply Hno in Hin].
    apply Hgen in Hin as ->. exists out. split; [done|]. split; [done|]. cbn [gc_save_as].
    destruct (resolved_canonical _ _ _ Hnames Hout) as (Habs & Hok & Hdd).
    destruct (path_str_denotes out (cwd w) Habs Hok Hdd) as [Hrt Hloc].
    split; [done|]. intros wd.
    destruct (path_str_denotes out wd Habs Hok Hdd) as [_ ->].
    rewrite <- Hloc. by rewrite Hrt. }
  destruct r as [[]|e].
  - do 3 eexists. split; [reflexivity|]. cbn [log emit].
    rewrite Hlog. split.
    { instantiate (1 := pre ++ evs ++ [EvPrint [Txt ("[OK] Database created: " +:+ path_str out)]]).
      subst pre. by rewrite <- !app_assoc. }
    intros a c failed Hin. by eapply Hall; [|exact Hin].
  - do 3 eexists. split; [reflexivity|]. rewrite Hlog. split.
    { instantiate (1 := pre ++ evs ++ []). subst pre. by rewrite app_nil_r, <- !app_assoc. }
    intros a c failed Hin. by eapply Hall; [|exact Hin].
Qed.

Lemma mkdir_from_noop todo : forall f base,
  (forall q, base `prefix_of` q -> q <> base -> q `prefix_of` base ++ todo ->
             f !! q = Some Dir) ->
  mkdir_from f base todo = Ok f.
Proof.
  induction todo as [|c todo IH]; intros f base Hdirs; [done|].
  simpl. rewrite (Hdirs (base ++ [c])).
  - apply IH. intros q Hp Hne Hq. apply Hdirs.
    + etrans; [|exact Hp]. by apply prefix_app_r.
    + intros ->. apply Hne. apply (anti_symm prefix); [by apply prefix_app_r|done].
    + by rewrite <- app_assoc in Hq.
  - by apply prefix_app_r.
  - intros H. apply (f_equal length) in H. rewrite length_app in H. simpl in H. lia.
  - apply prefix_app, prefix_cons, prefix_nil.
Qed.

(** X8.  generate-db with a catalog directory that is not a directory,
    while the catalog file lies in the directory of the invocation and the
    output directory exists already.  The catalog check passes, because it
    falls back on the working directory (lines 56-63); the banner is
    printed; then [pushd] (line 96) fails on its [os.chdir]: the command
    ends with that [FileNotFoundError] or [NotADirectoryError], uncaught, so
    with status 1 and not with the catalog-missing status; the library was
    never called, the filesystem and the working directory are
    unchanged. *)
Theorem generate_db_with_missing_catalog_dir_fails_on_chdir
    (args : gen_args) (w : World) (d filename : string) (catp out : Path) :
  if_set (catalog_dir args) = Some d ->
  (resolved d w).1 = Ok catp ->
  (resolved (output args) w).1 = Ok out ->
  (forall q, q <> [] -> q `prefix_of` locate (cwd w) (parent out) -> fs w !! q = Some Dir) ->
  is_dir_at (fs w) (locate (cwd w) catp) = false ->
  assoc (star_catalog args) required = Some filename ->
  is_Some (fs_get (fs w) (locate (cwd w) (joinpath (mkPath true (cwd w)) filename))) ->
  exists kind w' probes,
    cmd_generate_db args w = (Raise (Exception kind (path_str catp)), w') /\
    (kind = "FileNotFoundError" \/ kind = "NotADirectoryError") /\
    (exit_status (GenerateDb args) w).1 = 1%Z /\
    log w' = log w ++ EvMkdir (locate (cwd w) (parent out)) :: probes
               ++ (EvPrint <$> generate_banner args (clock w) (Some catp) out) /\
    scope_trace probes = [] /\ printed probes = [] /\
    fs w' = fs w /\ cwd w' = cwd w.
Proof.
  intros Hset Hcat Hout Hdirs Hnodir Hassoc Hhere.
  assert (Hrun : exists kind w' probes,
    cmd_generate_db args w = (Raise (Exception kind (path_str catp)), w') /\
    (kind = "FileNotFoundError" \/ kind = "NotADirectoryError") /\
    log w' = log w ++ EvMkdir (locate (cwd w) (parent out)) :: probes
               ++ (EvPrint <$> generate_banner args (clock w) (Some catp) out) /\
    scope_trace probes = [] /\ printed probes = [] /\
    fs w' = fs w /\ cwd w' = cwd w).
  { rewrite cmd_generate_db_unfold, Hout, Hset, Hcat.
    rewrite (mkdir_from_noop (locate (cwd w) (parent out)) (fs w) []).
    2: { intros q _ Hne Hq. apply Hdirs; [done|exact Hq]. }
    cbv zeta. set (w1 := emit _ (set_fs (fs w) w)).
    destruct (ensure_catalog_available_cases (star_catalog args) (Some catp) w1)
      as (evs1 & Hw2 & Hscope1 & Hcase).
    destruct (ensure_catalog_available (star_catalog args) (Some catp) w1) as [[[]|e] w2] eqn:Hens;
      cbn [fst snd] in Hw2, Hcase; subst w2.
    2: { exfalso. destruct Hcase as [(_ & Hnone & _)|(_ & f0 & Hf0 & Hall)]; [congruence|].
         assert (f0 = filename) as -> by congruence.
         specialize (Hall (mkPath true (cwd w))). subst w1. cbn [cwd emit set_fs fs] in Hall.
         rewrite Hall in Hhere; [by destruct Hhere|].
         apply list_elem_of_further, list_elem_of_here. }
    destruct Hcase as (Hpr1 & _).
    rewrite pushd_run. subst w1. cbn [fs cwd emits emit set_fs clock].
    unfold is_dir_at in Hnodir.
    destruct (fs_get (fs w) (locate (cwd w) catp)) as [[|c0]|]; [done| |].
    all: eexists _, _, evs1; split; [reflexivity|]; split; [by auto|].
    all: cbn [log emits emit set_fs fs cwd]; rewrite <- !app_assoc.
    all: split; [reflexivity|]; done. }
  destruct Hrun as (kind & w' & probes & Hrun & Hkind & Hrest).
  exists kind, w', probes. do 2 (split; [done|]). split; [|done].
  unfold exit_status, main. cbn [func]. by rewrite Hrun.
Qed.

(** ** The extraction dictionary *)

(** X9.  [parse_extract_dict] (lines 115-123).  The dictionary holds an
    entry for exactly those of [min_sum], [max_axis_ratio], [min_distance]
    that are not [None], with the value of the namespace ([min_sum] and
    [min_distance] as integers, [max_axis_ratio] as a float), no key twice,
    in that order; a value of zero is an entry like any other, since the
    test is [is not None]; and the dictionary is empty exactly when all
    three are [None]. *)
Theorem parse_extract_dict_holds_what_is_set (args : solve_args) :
  NoDup (parse_extract_dict args).*1 /\
  (parse_extract_dict args).*1 `sublist_of` ["min_sum"; "max_axis_ratio"; "min_distance"] /\
  (forall k v, (k, v) ∈ parse_extract_dict args <->
       k = "min_sum" /\ (exists n, min_sum args = Some n /\ v = VInt n)
    \/ k = "max_axis_ratio" /\ (exists x, max_axis_ratio args = Some x /\ v = VFloat x)
    \/ k = "min_distance" /\ (exists n, min_distance args = Some n /\ v = VInt n)) /\
  (parse_extract_dict args = [] <->
     min_sum args = None /\ max_axis_ratio args = None /\ min_distance args = None).
Proof.
  unfold parse_extract_dict.
  destruct (min_sum args) as [a|], (max_axis_ratio args) as [b|], (min_distance args) as [c|];
    cbn [app fmap list_fmap fst].
  all: split; [by_evaluation|].
  all: split; [repeat first [apply sublist_nil | apply sublist_skip | apply sublist_cons]|].
  all: split; [|split; [by intros ?|by intros (? & ? & ?)]].
  all: intros k v; rewrite ?elem_of_cons, elem_of_nil; split.
  all: try (intros H; repeat destruct H as [H|H]; try done; injection H as -> ->; eauto 10).
  all: intros [(-> & n & Hn & ->)|[(-> & n & Hn & ->)|(-> & n & Hn & ->)]];
    try done; injection Hn as ->; auto.
Qed.

(** ** The solve command from end to end *)

Lemma solve_preflight_unfold args w :
  solve_preflight args w =
    match (resolved (database args) w).1 with
    | Raise e => (Raise e, w)
    | Ok db =>
        let w1 := emit (EvExists (locate (cwd w) db)) w in
        if bool_decide (is_Some (fs_get (fs w) (locate (cwd w) db))) then
          match expand_images (images args) [] w1 with
          | (Raise e, w2) => (Raise e, w2)
          | (Ok [], w2) =>
              (Raise (SystemExit exit_no_images),
               emit (EvPrint [Txt "ERROR: No images to solve."]) w2)
          | (Ok imgs, w2) =>
              let w3 := emit (EvPrint [Txt ("[" +:+ clock w2 +:+ "] Loading database: "
                                            +:+ path_str db)]) w2 in
              match Tetra3 (Some (path_str db)) w3 with
              | Raise e => (Raise e, emit (EvTetra3 (Some (path_str db))) w3)
              | Ok t3 =>
                  (Ok (imgs, t3, parse_extract_dict args),
                   emits ([EvTetra3 (Some (path_str db));
                           EvPrint [Txt "FOV estimate: "; Val (VFloat (fov_estimate args));
                                    Txt " deg  |  FOV max error: ";
                                    Val (VFloat (fov_max_error args)); Txt " deg"]]
                          ++ match parse_extract_dict args with
                             | [] => []
                             | d => [EvPrint [Txt "extract_dict: "; DictRepr d]]
                             end) w3)
              end
          end
        else
          (Raise (SystemExit exit_database_missing),
           emits [EvPrint [Txt ("ERROR: Database file not found: " +:+ path_str db)];
                  EvPrint [Txt "Generate it first with the 'generate-db' command."]] w1)
    end.
Proof.
  unfold solve_preflight. unfold bind at 1.
  destruct (resolved (database args) w) as [[db|e] w0] eqn:Hres;
    apply resolved_spec in Hres as ->; cbn [fst]; [|done].
  unfold bind at 1, exists_ at 1. cbv zeta.
  destruct (bool_decide _).
  2: { unfold bind, print, sys_exit, raise. by as_emits. }
  unfold bind at 1, ret at 1. unfold bind at 1.
  destruct (expand_images (images args) [] _) as [[imgs|e] w2]; [|done].
  destruct imgs as [|img imgs].
  { unfold bind, print, sys_exit, raise. done. }
  unfold bind at 1, ret at 1. unfold bind at 1, now_iso at 1. unfold bind at 1, print at 1.
  unfold bind at 1, new_Tetra3 at 1.
  destruct (Tetra3 _ _) as [t3|e]; [|done].
  unfold bind at 1, print at 1.
  destruct (parse_extract_dict args); unfold bind, ret, print; by as_emits.
Qed.

Lemma mkdir_from_keeps todo : forall f base f' k v,
  mkdir_from f base todo = Ok f' -> f !! k = Some v -> f' !! k = Some v.
Proof.
  induction todo as [|c todo IH]; intros f base f' k v; simpl; [by intros [= <-]|].
  destruct (f !! (base ++ [c])) as [[|content]|] eqn:Hhere; [by eauto|done|].
  intros Hrec Hk. eapply IH; [exact Hrec|].
  rewrite lookup_insert_ne; [done|]. congruence.
Qed.

Lemma open_csv_run args w :
  exists r w' evs,
    open_csv args w = (r, w') /\ log w' = log w ++ evs /\ cwd w' = cwd w /\
    solved evs = [] /\
    match r with
    | Ok None => if_set (csv args) = None /\ w' = w
    | Ok (Some _) => is_Some (if_set (csv args))
    | Raise e => is_Exception e = true /\ is_Some (if_set (csv args)) /\ fds w' = fds w /\
                 forall k c, fs w' !! k = Some (File c) <-> fs w !! k = Some (File c)
    end.
Proof.
  unfold open_csv. destruct (if_set (csv args)) as [s0|].
  2: { exists (Ok None), w, []. by rewrite app_nil_r. }
  unfold bind at 1. destruct (resolved s0 w) as [[pth|e] w1] eqn:Hres;
    pose proof (resolved_spec _ _ _ _ Hres) as ->.
  2: { exists (Raise e), w, []. rewrite app_nil_r. do 4 (split; [done|]).
       split; [|by eauto]. eapply (resolved_raises s0 w). by rewrite Hres. }
  unfold bind at 1, mkdir_p at 1.
  destruct (mkdir_from (fs w) [] (locate (cwd w) (parent pth))) as [f|e] eqn:Hmk.
  2: { exists (Raise e), w, []. rewrite app_nil_r. do 4 (split; [done|]).
       split; [|by eauto]. by apply mkdir_from_raises in Hmk. }
  pose proof (fun k v => mkdir_from_keeps _ _ _ _ k v Hmk) as Hkeeps.
  apply mkdir_from_spec in Hmk as (_ & Hfiles & _).
  assert (Hiff : forall k c, f !! k = Some (File c) <-> fs w !! k = Some (File c))
    by (intros k c; split; [apply Hfiles|apply Hkeeps]).
  unfold bind at 1, open_w. cbn [fs cwd emit set_fs fds next_fd].
  destruct (fs_get f (locate (cwd w) pth)) as [[|c0]|] eqn:Hat.
  { do 3 eexists. split; [reflexivity|]. cbn [log emit set_fs cwd fs fds].
    split; [reflexivity|]. do 2 (split; [done|]). split; [done|]. eauto. }
  all: destruct (fs_get f (removelast (locate (cwd w) pth))) as [[|c1]|].
  all: try (do 3 eexists; split; [reflexivity|]; cbn [log emit set_fs cwd fs fds];
            split; [reflexivity|]; do 2 (split; [done|]); split; [done|]; by eauto).
  all: unfold bind, writerow; cbn [fs cwd emit set_fs set_fds fds next_fd log].
  all: rewrite !lookup_insert_eq.
  all: do 3 eexists; split; [reflexivity|]; cbn [log emit set_fs set_fds cwd fs fds].
  all: rewrite <- !app_assoc; split; [reflexivity|]; split; [done|]; split; [done|]; by eauto.
Qed.

Lemma solve_preflight_ok args w imgs t3 ed w1 :
  solve_preflight args w = (Ok (imgs, t3, ed), w1) ->
  ed = parse_extract_dict args /\
  (expand_images (images args) [] w).1 = Ok imgs /\ imgs <> [] /\
  exists db pre,
    (resolved (database args) w).1 = Ok db /\
    is_Some (fs_get (fs w) (locate (cwd w) db)) /\
    Tetra3 (Some (path_str db)) (emits pre w) = Ok t3 /\
    exists post, w1 = emits (pre ++ EvTetra3 (Some (path_str db)) :: post) w /\
                 scope_trace pre = [] /\ scope_trace post = [] /\
                 solved pre = [] /\ solved post = [].
Proof.
  rewrite solve_preflight_unfold.
  destruct ((resolved (database args) w).1) as [db|e]; [|done].
  cbv zeta. destruct (bool_decide _) eqn:Hex; [|done]. apply bool_decide_eq_true in Hex.
  change (emit ?e w) with (emits [e] w).
  pose proof (expand_images_emits (images args) [] [EvExists (locate (cwd w) db)] w) as Hsame.
  destruct (expand_images_spec (images args) [] (emits [EvExists (locate (cwd w) db)] w))
    as (evs & Hw & Hsol & Hscope & _).
  destruct (expand_images (images args) [] (emits [EvExists (locate (cwd w) db)] w))
    as [[l|e] w2]; [|done]. cbn [fst snd] in Hw, Hsame. subst w2.
  destruct l as [|img l]; [done|].
  rewrite emits_emits, emit_emits.
  destruct (Tetra3 _ _) as [t|e] eqn:Ht; [|done].
  rewrite emits_emits. intros [= <- <- <- <-].
  split; [done|]. split; [done|]. split; [done|].
  exists db. eexists. split; [done|]. split; [done|]. split; [exact Ht|].
  eexists. split; [reflexivity|].
  rewrite !scope_trace_app, !solved_app, Hscope, Hsol.
  split; [done|]. split; [by destruct (parse_extract_dict args)|].
  split; [done|]. by destruct (parse_extract_dict args).
Qed.

Lemma solve_setup_fields args w s w1 :
  solve_setup args w = (Ok s, w1) ->
  s_extract_dict s = parse_extract_dict args /\
  (expand_images (images args) [] w).1 = Ok (s_images s) /\ s_images s <> [] /\
  exists db pre,
    (resolved (database args) w).1 = Ok db /\
    is_Some (fs_get (fs w) (locate (cwd w) db)) /\
    Tetra3 (Some (path_str db)) (emits pre w) = Ok (s_t3 s).
Proof.
  unfold solve_setup, bind at 1.
  destruct (solve_preflight args w) as [[[[imgs t3] ed]|e] w0] eqn:Hpre; [|done].
  apply solve_preflight_ok in Hpre as (-> & Himgs & Hne & db & pre & Hdb & Hex & Ht & _).
  unfold bind. destruct (open_csv args w0) as [[c|e] w2]; [|done].
  unfold ret. intros [= <- <-]. cbn [s_images s_t3 s_extract_dict fst snd]. eauto 10.
Qed.

(** A run of [cmd_solve], cut at the start of the loop *)
Lemma cmd_solve_run args w :
  exists r w' evs,
    cmd_solve args w = (r, w') /\ log w' = log w ++ evs /\ cwd w' = cwd w /\
    ((* the preparation failed *)
     (exists e, r = Raise e /\ (solve_setup args w).1 = Raise e /\ solved evs = [] /\
                fds w' = fds w /\
                (forall k c, fs w' !! k = Some (File c) <-> fs w !! k = Some (File c)) /\
                (if_set (csv args) = None -> fs w' = fs w))
     \/
     (* the loop ran *)
     exists s w1 pre loop rows,
       solve_setup args w = (Ok s, w1) /\ log w1 = log w ++ pre /\ solved pre = [] /\
       evs = pre ++ loop /\
       loop_trace args s (s_images s) (solved loop) rows r /\
       match s_csv s with
       | Some (fd, pth) =>
           fds w' !! fd = None /\
           fs w' !! locate (cwd w) pth = Some (File (csv_header :: rows)) /\
           printed loop = mjoin (console_lines <$> solved loop)
                          ++ [[Txt (nl +:+ "[OK] Results saved to CSV: " +:+ path_str pth)]] /\
           exists loop', loop = loop' ++ [EvClose fd;
                           EvPrint [Txt (nl +:+ "[OK] Results saved to CSV: " +:+ path_str pth)]]
       | None => fs w' = fs w /\ fds w' = fds w /\
                 printed loop = mjoin (console_lines <$> solved loop)
       end).
Proof.
  destruct (solve_setup args w) as [[s|e] w1] eqn:Hsetup.
  - destruct (solve_setup_ready args w s w1 Hsetup) as (w0 & pre & -> & Hpre & Hopen & Hcwd & Hready).
    destruct (solve_batch_spec args s w1 _ Hready)
      as (r & w2 & evs & rows & Hrun & Hlog & Htr & Hcwd2 & Hend).
    destruct (open_csv_run args (emits pre w)) as (r0 & w1' & evs0 & Hrun0 & Hlog0 & _ & Hsol0 & Hcase).
    rewrite Hopen in Hrun0. injection Hrun0 as <- <-. cbn [log emits] in Hlog0.
    exists r, w2, ((pre ++ evs0) ++ evs).
    rewrite (cmd_solve_after_setup _ _ _ _ Hsetup).
    split; [done|]. split; [by rewrite Hlog, Hlog0, <- !app_assoc|].
    split; [by rewrite Hcwd2|]. right.
    exists s, w1, (pre ++ evs0), evs, rows.
    split; [done|]. split; [by rewrite Hlog0, <- app_assoc|].
    split; [by rewrite solved_app, Hpre, Hsol0|]. split; [done|]. split; [done|].
    destruct (s_csv s) as [[fd pth]|].
    + by rewrite <- Hcwd.
    + destruct Hcase as [_ Hsame]. destruct Hend as (Hfs & Hfds & Hpr).
      rewrite Hfs, Hfds, Hsame. done.
  - assert (Hcmd : cmd_solve args w = (Raise e, w1)).
    { unfold cmd_solve, bind. by rewrite Hsetup. }
    unfold solve_setup, bind at 1 in Hsetup.
    destruct (solve_preflight args w) as [[pre|e0] w0] eqn:Hpre.
    + apply solve_preflight_frame in Hpre as (evs & -> & Hs).
      destruct (open_csv_run args (emits evs w))
        as (r0 & w1' & evs0 & Hrun0 & Hlog0 & Hcwd0 & Hsol0 & Hcase).
      unfold bind in Hsetup. rewrite Hrun0 in Hsetup.
      destruct r0 as [c|e1]; [done|]. injection Hsetup as -> ->.
      exists (Raise e), w1, (evs ++ evs0). split; [done|].
      cbn [log emits cwd fs fds] in *. split; [by rewrite Hlog0, <- app_assoc|].
      split; [done|]. left. exists e. split; [done|]. split; [done|].
      split; [by rewrite solved_app, Hs, Hsol0|].
      destruct Hcase as (_ & Hsome & Hfds & Hfiles). do 2 (split; [done|]).
      intros Hnone. rewrite Hnone in Hsome. by destruct Hsome.
    + injection Hsetup as -> ->. apply solve_preflight_frame in Hpre as (evs & -> & Hs).
      exists (Raise e), (emits evs w), evs. split; [done|]. split; [done|]. split; [done|].
      left. exists e. do 5 (split; [done|]). done.
Qed.

(** X10.  The solve command with a database path that does not exist
    (lines 127-131): one existence probe, the two error lines, then
    [SystemExit] with status 4, which is the status of the process.  Nothing
    else has happened: no image argument was looked at, the library was not
    touched, the filesystem is unchanged. *)
Theorem missing_database_stops_solve_at_once (args : solve_args) (w : World) (db : Path) :
  (resolved (database args) w).1 = Ok db ->
  fs_get (fs w) (locate (cwd w) db) = None ->
  cmd_solve args w =
    (Raise (SystemExit exit_database_missing),
     emits [EvExists (locate (cwd w) db);
            EvPrint [Txt ("ERROR: Database file not found: " +:+ path_str db)];
            EvPrint [Txt "Generate it first with the 'generate-db' command."]] w)
  /\ (exit_status (Solve args) w).1 = exit_database_missing
  /\ exit_database_missing = 4%Z.
Proof.
  intros Hdb Hnone.
  assert (Hcmd : cmd_solve args w =
    (Raise (SystemExit exit_database_missing),
     emits [EvExists (locate (cwd w) db);
            EvPrint [Txt ("ERROR: Database file not found: " +:+ path_str db)];
            EvPrint [Txt "Generate it first with the 'generate-db' command."]] w)).
  { unfold cmd_solve, solve_setup, bind. rewrite solve_preflight_unfold, Hdb. cbv zeta.
    rewrite bool_decide_eq_false_2; [by as_emits|].
    rewrite Hnone. by intros [? ?]. }
  split; [done|]. split; [|done]. by rewrite exit_status_solve, Hcmd.
Qed.

(** X11.  Without [--csv] (absent or empty) the solve command is read-only:
    however it ends, and whatever the solver returns or raises, the
    filesystem, the open files and the working directory are what they were
    before. *)
Theorem solve_without_csv_writes_nothing (args : solve_args) (w : World) :
  if_set (csv args) = None ->
  exists r w' evs,
    cmd_solve args w = (r, w') /\ log w' = log w ++ evs /\
    fs w' = fs w /\ fds w' = fds w /\ cwd w' = cwd w.
Proof.
  intros Hcsv.
  destruct (cmd_solve_run args w) as (r & w' & evs & Hrun & Hlog & Hcwd & Hcase).
  exists r, w', evs. do 2 (split; [done|]).
  destruct Hcase as [(e & _ & _ & _ & Hfds & _ & Hfs)
                    |(s & w1 & pre & loop & rows & Hsetup & _ & _ & _ & _ & Hend)].
  - by rewrite Hfs.
  - assert (s_csv s = None) as Hnone.
    { unfold solve_setup, bind in Hsetup.
      destruct (solve_preflight args w) as [[p|e] w0]; [|done].
      destruct (open_csv_run args w0) as (r0 & w2 & evs0 & Hrun0 & _ & _ & _ & Hc).
      rewrite Hrun0 in Hsetup. destruct r0 as [[c|]|e]; [| |done].
      + rewrite Hcsv in Hc. by destruct Hc.
      + unfold ret in Hsetup. by injection Hsetup as <- _. }
    rewrite Hnone in Hend. by destruct Hend as (-> & -> & _).
Qed.

Lemma loop_trace_nonempty args s imgs calls rows r :
  loop_trace args s imgs calls rows r -> imgs <> [] -> calls <> [].
Proof. by destruct 1. Qed.

Lemma loop_trace_calls args s imgs calls rows r :
  loop_trace args s imgs calls rows r ->
  forall call, call ∈ calls -> exists img, img ∈ imgs /\ call.1 = call_for args s img.
Proof.
  induction 1 as [|img imgs res calls rows r w Hw Htr IH
                  |img imgs kind msg calls rows r w Hw Htr IH
                  |img imgs e w Hw He]; intros call Hin.
  - by apply elem_of_nil in Hin.
  - apply elem_of_cons in Hin as [->|Hin].
    + exists img. split; [apply list_elem_of_here|done].
    + destruct (IH call Hin) as (i & ? & ?). exists i. split; [by apply list_elem_of_further|done].
  - apply elem_of_cons in Hin as [->|Hin].
    + exists img. split; [apply list_elem_of_here|done].
    + destruct (IH call Hin) as (i & ? & ?). exists i. split; [by apply list_elem_of_further|done].
  - apply list_elem_of_singleton in Hin as ->.
    exists img. split; [apply list_elem_of_here|done].
Qed.

(** X12.  The CSV file is opened only once the database check, the image
    expansion and the loading of the database have gone through (lines
    127-158), and after that the loop always reaches the solver, the
    expansion being non-empty.  Hence a run that made no solver call has
    failed, has left no file handle open and has changed no file: every file
    has the content it had, and an older CSV at the given path is neither
    truncated nor created. *)
Theorem solve_changes_no_file_before_the_first_solver_call (args : solve_args) (w : World) :
  exists r w' evs,
    cmd_solve args w = (r, w') /\ log w' = log w ++ evs /\
    (solved evs = [] ->
       (exists e, r = Raise e) /\ fds w' = fds w /\
       forall k c, fs w' !! k = Some (File c) <-> fs w !! k = Some (File c)).
Proof.
  destruct (cmd_solve_run args w) as (r & w' & evs & Hrun & Hlog & Hcwd & Hcase).
  exists r, w', evs. do 2 (split; [done|]). intros Hnone.
  destruct Hcase as [(e & -> & _ & _ & Hfds & Hfiles & _)
                    |(s & w1 & pre & loop & rows & Hsetup & _ & Hpre & -> & Htr & _)].
  - eauto.
  - exfalso. rewrite solved_app, Hpre in Hnone. cbn in Hnone.
    apply solve_setup_fields in Hsetup as (_ & _ & Hne & _).
    by eapply loop_trace_nonempty.
Qed.

(** X13.  Every call of the solver that a run of the solve command makes
    (lines 169-174) carries the same parameters: the [fov_estimate] and
    [fov_max_error] of the namespace, and as [extract_dict] the dictionary of
    [parse_extract_dict], or [None] when that dictionary is empty; the image
    it is given is the string of one of the expanded image paths. *)
Theorem solver_gets_the_command_line_parameters (args : solve_args) (w : World) :
  exists r w' evs,
    cmd_solve args w = (r, w') /\ log w' = log w ++ evs /\
    forall c out, (c, out) ∈ solved evs ->
      sc_fov_estimate c = fov_estimate args /\
      sc_fov_max_error c = fov_max_error args /\
      sc_extract_dict c = match parse_extract_dict args with [] => None | d => Some d end /\
      exists imgs img,
        (expand_images (images args) [] w).1 = Ok imgs /\ img ∈ imgs /\
        sc_image c = path_str img.
Proof.
  destruct (cmd_solve_run args w) as (r & w' & evs & Hrun & Hlog & Hcwd & Hcase).
  exists r, w', evs. do 2 (split; [done|]). intros c out Hin.
  destruct Hcase as [(e & _ & _ & Hnone & _)
                    |(s & w1 & pre & loop & rows & Hsetup & _ & Hpre & -> & Htr & _)].
  - rewrite Hnone in Hin. by apply elem_of_nil in Hin.
  - rewrite solved_app, Hpre in Hin. cbn in Hin.
    destruct (loop_trace_calls _ _ _ _ _ _ Htr _ Hin) as (img & Himg & Hc).
    cbn [fst] in Hc. subst c.
    apply solve_setup_fields in Hsetup as (Hed & Himgs & _).
    unfold call_for. cbn [sc_fov_estimate sc_fov_max_error sc_extract_dict sc_image].
    rewrite Hed. do 3 (split; [done|]). eauto.
Qed.

(** X14.  With CSV logging, what the loop prints and what it writes tell
    the same story (lines 167-193).  Every data row has the six columns of
    the header: the image as it was printed after [Solving:], a boolean, and
    four values.  When the boolean is [True] the console line of that image
    is the [SUCCESS] line showing the same four values in the same order;
    when it is [False] the console line is [FAILED] for a response of the
    solver, and the error line for an exception. *)
Theorem csv_rows_agree_with_console
    (args : solve_args) (w : World) (s : setup) (w1 : World) (fd : nat) (pth : Path) :
  solve_setup args w = (Ok s, w1) ->
  s_csv s = Some (fd, pth) ->
  exists r w' evs rows,
    cmd_solve args w = (r, w') /\ log w' = log w1 ++ evs /\
    fs w' !! locate (cwd w) pth = Some (File (csv_header :: rows)) /\
    Forall (fun row => length row = length csv_header) rows /\
    printed evs = mjoin (console_lines <$> solved evs)
                  ++ [[Txt (nl +:+ "[OK] Results saved to CSV: " +:+ path_str pth)]] /\
    forall i call row,
      solved evs !! i = Some call -> rows !! i = Some row ->
      exists b ra dec rot fov,
        row = [VStr (sc_image call.1); VBool b; ra; dec; rot; fov] /\
        console_lines call =
          [Txt (nl +:+ "Solving: " +:+ sc_image call.1)] ::
          if b then [[Txt "  SUCCESS  RA="; Val ra; Txt "  DEC="; Val dec;
                      Txt "  ROT="; Val rot; Txt "  FOV="; Val fov]]
          else match call.2 with
               | Ok _ => [[Txt "  FAILED"]]
               | Raise (Exception _ msg) => [[Txt ("  ERROR during solve: " +:+ msg)]]
               | Raise _ => []
               end.
Proof.
  intros Hsetup Hcsv.
  destruct (solve_setup_ready args w s w1 Hsetup) as (w0 & pre & _ & _ & _ & Hcwd & Hready).
  destruct (solve_batch_spec args s w1 _ Hready)
    as (r & w2 & evs & rows & Hrun & Hlog & Htr & _ & Hend).
  rewrite Hcsv, Hcwd in Hend. destruct Hend as (_ & Hcontent & Hpr & _).
  destruct (loop_trace_rows _ _ _ _ _ _ Htr) as (completed & Hrows & Hr).
  exists r, w2, evs, rows. rewrite (cmd_solve_after_setup _ _ _ _ Hsetup).
  do 3 (split; [done|]). split.
  { eapply Forall2_Forall_r; [exact Hrows|]. apply Forall_forall. intros call _ row Hrow.
    unfold row_logged in Hrow. by destruct (call.2); subst row. }
  split; [done|].
  intros i call row Hcall Hrow.
  assert (Hi : completed !! i = Some call).
  { destruct r as [[]|e]; [by destruct Hr as [<- _]|].
    destruct Hr as (_ & [c Hc] & _). rewrite Hc in Hcall.
    apply lookup_app_Some in Hcall as [?|[Hge Hc']]; [done|].
    apply Forall2_length in Hrows. apply lookup_lt_Some in Hrow. lia. }
  pose proof (Forall2_lookup_lr _ _ _ _ _ _ Hrows Hi Hrow) as Hlogged.
  unfold row_logged in Hlogged. unfold console_lines.
  destruct (call.2) as [res|e]; subst row.
  - unfold result_row. do 5 eexists. split; [reflexivity|].
    by destruct (truthy (dict_get res "success" (VBool false))).
  - unfold error_row. do 5 eexists. split; [reflexivity|]. done.
Qed.

(** X15.  A [KeyboardInterrupt] out of the solver during a run with CSV
    logging.  It is not caught by the loop (line 175 catches [Exception]
    only); the [finally] of lines 195-198 closes the file and prints the
    saved-line; then [main] (lines 242-244) prints [Interrupted.] and the
    process ends with status 130.  These are the last three events, in that
    order; the file holds the header and one row for each image completed
    before the interrupted one, which has no row. *)
Theorem interrupted_solve_closes_csv_then_reports
    (args : solve_args) (w : World) (s : setup) (w1 : World) (fd : nat) (pth : Path) :
  solve_setup args w = (Ok s, w1) ->
  s_csv s = Some (fd, pth) ->
  (cmd_solve args w).1 = Raise KeyboardInterrupt ->
  exists w' evs rows completed c,
    exit_status (Solve args) w = (exit_interrupted, w') /\ exit_interrupted = 130%Z /\
    log w' = log w1 ++ evs
             ++ [EvClose fd;
                 EvPrint [Txt (nl +:+ "[OK] Results saved to CSV: " +:+ path_str pth)];
                 EvPrint [Txt (nl +:+ "Interrupted.")]] /\
    solved evs = completed ++ [(c, Raise KeyboardInterrupt)] /\
    c.(sc_image) ∈ path_str <$> s_images s /\
    Forall2 row_logged completed rows /\
    fds w' !! fd = None /\
    fs w' !! locate (cwd w) pth = Some (File (csv_header :: rows)).
Proof.
  intros Hsetup Hcsv Hint.
  destruct (solve_setup_ready args w s w1 Hsetup) as (w0 & pre & _ & _ & _ & Hcwd & Hready).
  destruct (solve_batch_spec args s w1 _ Hready)
    as (r & w2 & evs & rows & Hrun & Hlog & Htr & _ & Hend).
  rewrite Hcsv, Hcwd in Hend. destruct Hend as (Hclosed & Hcontent & _ & evs' & ->).
  rewrite (cmd_solve_after_setup _ _ _ _ Hsetup), Hrun in Hint. cbn [fst] in Hint. subst r.
  destruct (loop_trace_rows _ _ _ _ _ _ Htr) as (completed & Hrows & _ & [c Hc] & _).
  rewrite exit_status_solve, (cmd_solve_after_setup _ _ _ _ Hsetup), Hrun.
  rewrite solved_app in Hc. cbn in Hc. rewrite app_nil_r in Hc.
  rewrite solved_app in Htr. cbn in Htr. rewrite app_nil_r in Htr.
  eexists. exists evs', rows, completed, c. split; [reflexivity|]. split; [done|].
  cbn [log emit fds fs]. rewrite Hlog, <- !app_assoc. split; [done|].
  split; [done|]. split; [|done].
  destruct (loop_trace_calls _ _ _ _ _ _ Htr (c, Raise KeyboardInterrupt)) as (img & Himg & Himg').
  { rewrite Hc. apply elem_of_app. right. apply list_elem_of_here. }
  cbn [fst] in Himg'. subst c. cbn [call_for sc_image].
  apply list_elem_of_fmap. eauto.
Qed.

Lemma sorted_nil l : sorted l = [] <-> l = [].
Proof.
  unfold sorted. split; [|by intros ->].
  intros H. apply Permutation_nil_r. rewrite <- H. by rewrite merge_sort_Permutation.
Qed.

(** An argument that expands to nothing is a directory without any
    whitelisted entry. *)
Lemma expand_one_empty p w :
  (expand_one p w).1 = Ok [] <->
  exists pth,
    (expanduser (Path_of p) w).1 = Ok pth /\
    is_dir_at (fs w) (locate (cwd w) pth) = true /\
    forall name e, name ∈ listdir (fs w) (locate (cwd w) pth) -> e ∈ image_exts ->
                   ends_with e name = false.
Proof.
  destruct ((expanduser (Path_of p) w).1) as [pth|e] eqn:He.
  2: { rewrite (expand_one_raise p e w He). split; [done|]. by intros (? & ? & _). }
  rewrite (expand_one_spec p pth w He).
  destruct (is_dir_at (fs w) (locate (cwd w) pth)) eqn:Hd; cbn [fst].
  2: { split; [done|]. intros (q & [= <-] & Hq & _). congruence. }
  assert (Hmem : forall q, q ∈ mjoin ((fun e => glob_entries (fs w) (cwd w) pth e) <$> image_exts)
            <-> exists name e, q = child pth name /\ name ∈ listdir (fs w) (locate (cwd w) pth)
                               /\ e ∈ image_exts /\ ends_with e name = true).
  { intros q. rewrite list_elem_of_join. split.
    - intros (chunk & Hq & Hc). apply list_elem_of_fmap in Hc as (e & -> & Hin).
      apply glob_entries_spec in Hq as (_ & n & -> & Hn & Hend). eauto 10.
    - intros (n & e & -> & Hn & Hin & Hend).
      exists (glob_entries (fs w) (cwd w) pth e). split.
      + apply glob_entries_spec. eauto.
      + apply list_elem_of_fmap. eauto. }
  set (l := mjoin _) in *. clearbody l. split.
  - intros Hnil. injection Hnil as Hnil. apply (proj1 (sorted_nil l)) in Hnil. subst l.
    exists pth. do 2 (split; [done|]).
    intros name e Hname He'. destruct (ends_with e name) eqn:Hend; [|done]. exfalso.
    eapply elem_of_nil, Hmem. eauto 10.
  - intros (q & Hq & _ & Hnone). injection Hq as <-. f_equal. apply sorted_nil.
    destruct l as [|x l]; [done|]. exfalso.
    destruct (proj1 (Hmem x)) as (name & e & _ & Hname & He' & Hend); [apply list_elem_of_here|].
    rewrite (Hnone name e Hname He') in Hend. done.
Qed.

Lemma mjoin_nil {X} (chunks : list (list X)) : mjoin chunks = [] <-> Forall (fun c => c = []) chunks.
Proof.
  induction chunks as [|c chunks IH]; [done|]. simpl. split.
  - intros H. apply app_eq_nil in H as [-> H]. constructor; [done|]. by apply IH.
  - intros H. apply Forall_cons in H as [-> H]. by apply IH.
Qed.


(** ** What the solve command leaves alone *)

Lemma only_at_refl loc w : only_at loc w w.
Proof. by split. Qed.

Lemma only_at_trans loc w1 w2 w3 : only_at loc w1 w2 -> only_at loc w2 w3 -> only_at loc w1 w3.
Proof.
  intros [F1 H1] [F2 H2]. split; [congruence|]. intros k Hk. by rewrite H2, H1.
Qed.

Lemma only_at_writerow loc fd r w :
  fds w !! fd = Some loc -> only_at loc w (writerow fd r w).2.
Proof.
  intros Hfd. unfold writerow. rewrite Hfd. cbn [snd]. split; [done|].
  intros k Hk. cbn [fs emit set_fs].
  destruct (fs w !! loc) as [[|c]|]; [done| |done]. by rewrite lookup_insert_ne.
Qed.

Lemma solve_one_only_at args s img fd pth loc w :
  s_csv s = Some (fd, pth) -> fds w !! fd = Some loc ->
  only_at loc w (solve_one args s img w).2.
Proof.
  intros Hcsv Hfd. unfold solve_one, bind at 1, print at 1.
  unfold bind at 1, try_except, bind at 1, call_solve_from_image.
  rewrite Hcsv. set (w1 := emit _ w).
  assert (Hrow : forall (w2 : World) (r0 : row),
            only_at loc w w2 -> only_at loc w (writerow fd r0 w2).2).
  { intros w2 r0 H12. eapply only_at_trans; [exact H12|].
    apply only_at_writerow. destruct H12 as [-> _]. done. }
  destruct (solve_from_image (s_t3 s) (call_for args s img) w1) as [res|e].
  - unfold ret at 1. unfold bind at 1.
    destruct (truthy (dict_get res "success" (VBool false))); unfold print at 1; apply Hrow;
      by split.
  - destruct e as [kind msg| | |]; try (by split).
    unfold bind at 1, print at 1. unfold bind at 1. unfold bind at 1.
    pose proof (Hrow (emit (EvPrint [Txt ("  ERROR during solve: " +:+ msg)])
                       (emit (EvSolve (call_for args s img) (Raise (Exception kind msg))) w1))
                     (error_row (path_str img))) as H.
    destruct (writerow fd (error_row (path_str img)) _) as [[[]|e] w3]; cbn [snd] in *;
      apply H; by split.
Qed.

Lemma solve_loop_only_at args s fd pth loc imgs : forall w,
  s_csv s = Some (fd, pth) -> fds w !! fd = Some loc ->
  only_at loc w (solve_loop args s imgs w).2.
Proof.
  induction imgs as [|img imgs IH]; intros w Hcsv Hfd; [apply only_at_refl|].
  cbn [solve_loop]. unfold bind.
  pose proof (solve_one_only_at args s img fd pth loc w Hcsv Hfd) as H1.
  destruct (solve_one args s img w) as [[[]|e] w1]; cbn [snd] in *; [|done].
  eapply only_at_trans; [exact H1|]. apply IH; [done|]. destruct H1 as [-> _]. done.
Qed.

Lemma solve_batch_frame args s fd pth loc w :
  s_csv s = Some (fd, pth) -> fds w !! fd = Some loc ->
  forall k, k <> loc -> fs (solve_batch args s w).2 !! k = fs w !! k.
Proof.
  intros Hcsv Hfd k Hk. unfold solve_batch, try_finally.
  pose proof (solve_loop_only_at args s fd pth loc (s_images s) w Hcsv Hfd) as [_ H1].
  destruct (solve_loop args s (s_images s) w) as [r w1]. cbn [snd] in H1.
  rewrite Hcsv. unfold bind, close, print. cbn [snd fs emit set_fds]. by apply H1.
Qed.

Lemma open_csv_frame args w fd pth w1 :
  open_csv args w = (Ok (Some (fd, pth)), w1) ->
  (exists s0, if_set (csv args) = Some s0 /\ (resolved s0 w).1 = Ok pth) /\
  forall k c, k <> locate (cwd w) pth ->
              (fs w1 !! k = Some (File c) <-> fs w !! k = Some (File c)).
Proof.
  unfold open_csv. destruct (if_set (csv args)) as [s0|]; [|done].
  unfold bind at 1. destruct (resolved s0 w) as [[p|e] w0] eqn:Hres;
    pose proof (resolved_spec _ _ _ _ Hres) as ->; [|done].
  unfold bind at 1, mkdir_p at 1.
  destruct (mkdir_from (fs w) [] (locate (cwd w) (parent p))) as [f|e] eqn:Hmk; [|done].
  pose proof (fun k v => mkdir_from_keeps _ _ _ _ k v Hmk) as Hkeeps.
  apply mkdir_from_spec in Hmk as (_ & Hfiles & _).
  unfold bind at 1, open_w. cbn [fs cwd emit set_fs fds next_fd].
  destruct (fs_get f (locate (cwd w) p)) as [[|c0]|]; [done| |].
  all: destruct (fs_get f (removelast (locate (cwd w) p))) as [[|c1]|]; try done.
  all: unfold bind, writerow; cbn [fs cwd emit set_fs set_fds fds next_fd log].
  all: rewrite !lookup_insert_eq; intros [= <- <- <-]; cbn [fs cwd emit set_fs set_fds].
  all: split; [exists s0; split; [done|]; by rewrite Hres|].
  all: intros k c Hk; rewrite !lookup_insert_ne by done; split; [apply Hfiles|apply Hkeeps].
Qed.

(** X17.  The solve command writes to one file only.  Whatever the
    arguments, the solver and the way the run ends, a location other than
    the resolved [--csv] path holds a file with some content after the run
    exactly when it held that file with that content before: no other file
    is created, removed, truncated or written.  (Directories can appear:
    the missing ancestors of the CSV path, line 157.) *)
Theorem solve_changes_no_file_but_the_csv (args : solve_args) (w : World) :
  exists r w',
    cmd_solve args w = (r, w') /\
    forall k c,
      (forall s0 pth, if_set (csv args) = Some s0 -> (resolved s0 w).1 = Ok pth ->
                      k <> locate (cwd w) pth) ->
      (fs w' !! k = Some (File c) <-> fs w !! k = Some (File c)).
Proof.
  destruct (solve_setup args w) as [[s|e] w1] eqn:Hsetup.
  2: { destruct (cmd_solve_run args w) as (r & w' & evs & Hrun & _ & _ & Hcase).
       exists r, w'. split; [done|]. intros k c _.
       destruct Hcase as [(e0 & _ & _ & _ & _ & Hfiles & _)|(s & w2 & _ & _ & _ & Hs & _)];
         [apply Hfiles|congruence]. }
  rewrite (cmd_solve_after_setup _ _ _ _ Hsetup).
  destruct (solve_setup_ready args w s w1 Hsetup) as (w0 & pre & -> & _ & Hopen & Hcwd & Hready).
  exists (solve_batch args s w1).1, (solve_batch args s w1).2.
  split; [by destruct (solve_batch args s w1)|]. intros k c Hk.
  destruct (s_csv s) as [[fd pth]|] eqn:Hcsv.
  - apply open_csv_frame in Hopen as [(s0 & Hs0 & Hres) Hframe].
    cbn [cwd emits fs] in *.
    rewrite (resolved_frame s0 w (emits pre w) eq_refl eq_refl) in Hres.
    specialize (Hk s0 pth Hs0 Hres).
    unfold csv_ready in Hready. rewrite Hcsv, Hcwd in Hready. destruct Hready as [Hfd _].
    rewrite (solve_batch_frame args s fd pth _ w1 Hcsv Hfd k Hk). by apply Hframe.
  - destruct (open_csv_run args (emits pre w)) as (r0 & w2 & evs0 & Hrun0 & _ & _ & _ & Hcase).
    rewrite Hopen in Hrun0. injection Hrun0 as <- <-. destruct Hcase as [_ ->].
    destruct (solve_batch_spec args s (emits pre w) [csv_header]) as (r & w2 & evs & rows & Hrun & _ & _ & _ & Hend).
    { unfold csv_ready. by rewrite Hcsv. }
    rewrite Hcsv in Hend. rewrite Hrun. cbn [snd]. destruct Hend as (-> & _). done.
Qed.


End More.

(** ** Ways out of the commands *)

Section Effects.
Context `{lib : Tetra3Lib}.
Variable codes : list Z.

Lemma leaves_by_ret {A} (a : A) : leaves_by codes (ret a).
Proof. by intros w. Qed.

Lemma leaves_by_bind {A B} (m : M A) (k : A -> M B) :
  leaves_by codes m -> (forall a, leaves_by codes (k a)) -> leaves_by codes (bind m k).
Proof.
  intros Hm Hk w. unfold bind. specialize (Hm w).
  destruct (m w) as [[a|e] w1]; cbn in *; [apply Hk|exact Hm].
Qed.

Lemma leaves_by_sys_exit {A} n : n ∈ codes -> leaves_by codes (@sys_exit A n).
Proof. by intros Hn w. Qed.

Lemma leaves_by_try_finally {A} (body : M A) (fin : M unit) :
  leaves_by codes body -> leaves_by codes fin -> leaves_by codes (try_finally body fin).
Proof.
  intros Hb Hf w. unfold try_finally. specialize (Hb w).
  destruct (body w) as [r w1]. specialize (Hf w1).
  destruct (fin w1) as [[[]|e] w2]; cbn in *; done.
Qed.

Lemma leaves_by_try_except {A} (body : M A) (handler : string -> string -> M A) :
  leaves_by codes body -> (forall kind msg, leaves_by codes (handler kind msg)) ->
  leaves_by codes (try_except body handler).
Proof.
  intros Hb Hh w. unfold try_except. specialize (Hb w).
  destruct (body w) as [[a|[kind msg| | |]] w1]; cbn in *; try done. apply Hh.
Qed.

Lemma leaves_by_print line : leaves_by codes (print line).
Proof. by intros w. Qed.

Lemma leaves_by_Path_cwd : leaves_by codes Path_cwd.
Proof. by intros w. Qed.

Lemma leaves_by_now_iso : leaves_by codes now_iso.
Proof. by intros w. Qed.

Lemma leaves_by_exists p : leaves_by codes (exists_ p).
Proof. by intros w. Qed.

Lemma leaves_by_is_dir p : leaves_by codes (is_dir p).
Proof. by intros w. Qed.

Lemma leaves_by_glob p ext : leaves_by codes (glob p ext).
Proof. by intros w. Qed.

Lemma leaves_by_expanduser p : leaves_by codes (expanduser p).
Proof. intros w. unfold expanduser. by repeat case_match. Qed.

Lemma leaves_by_resolve p : leaves_by codes (resolve p).
Proof. by intros w. Qed.

Lemma leaves_by_resolved s : leaves_by codes (resolved s).
Proof.
  apply leaves_by_bind; [apply leaves_by_expanduser|]. intros p. apply leaves_by_resolve.
Qed.

Lemma leaves_by_mkdir_p p : leaves_by codes (mkdir_p p).
Proof.
  intros w. unfold mkdir_p. cbv zeta.
  destruct (mkdir_from _ _ _) as [f|e] eqn:Hmk; [done|].
  apply mkdir_from_raises in Hmk. by destruct e.
Qed.

Lemma leaves_by_chdir p : leaves_by codes (chdir p).
Proof. intros w. unfold chdir. cbv zeta. by repeat case_match. Qed.

Lemma leaves_by_open_w p : leaves_by codes (open_w p).
Proof. intros w. unfold open_w. cbv zeta. by repeat case_match. Qed.

Lemma leaves_by_writerow fd r : leaves_by codes (writerow fd r).
Proof. intros w. unfold writerow. by repeat case_match. Qed.

Lemma leaves_by_close fd : leaves_by codes (close fd).
Proof. by intros w. Qed.

Lemma leaves_by_pushd {A} d (body : M A) : leaves_by codes body -> leaves_by codes (pushd d body).
Proof.
  intros Hb. unfold pushd. apply leaves_by_bind; [apply leaves_by_Path_cwd|]. intros prev.
  apply leaves_by_bind; [apply leaves_by_chdir|]. intros _.
  apply leaves_by_try_finally; [done|apply leaves_by_chdir].
Qed.

Lemma leaves_by_probe dirs filename : leaves_by codes (probe dirs filename).
Proof.
  induction dirs as [|d dirs IH]; [apply leaves_by_ret|].
  cbn [probe]. apply leaves_by_bind; [apply leaves_by_exists|].
  intros []; [apply leaves_by_ret|done].
Qed.

Lemma leaves_by_glob_all pth exts : leaves_by codes (glob_all pth exts).
Proof.
  induction exts as [|e exts IH]; [apply leaves_by_ret|].
  cbn [glob_all]. apply leaves_by_bind; [apply leaves_by_glob|]. intros a.
  apply leaves_by_bind; [done|]. intros b. apply leaves_by_ret.
Qed.

Lemma leaves_by_expand_one p : leaves_by codes (expand_one p).
Proof.
  unfold expand_one. apply leaves_by_bind; [apply leaves_by_expanduser|]. intros pth.
  apply leaves_by_bind; [apply leaves_by_is_dir|]. intros []; [|apply leaves_by_ret].
  apply leaves_by_bind; [apply leaves_by_glob_all|]. intros l. apply leaves_by_ret.
Qed.

Lemma leaves_by_expand_images args : forall acc, leaves_by codes (expand_images args acc).
Proof.
  induction args as [|p args IH]; intros acc; [apply leaves_by_ret|].
  cbn [expand_images]. apply leaves_by_bind; [apply leaves_by_expand_one|]. intros l. apply IH.
Qed.

Hypothesis Hlib : raises_only_exceptions.

Lemma leaves_by_new_Tetra3 o : leaves_by codes (new_Tetra3 o).
Proof.
  intros w. unfold new_Tetra3. cbn [fst]. destruct (Tetra3 o w) as [t|e] eqn:Ht; [done|].
  destruct Hlib as (H1 & _ & _). apply H1 in Ht. by destruct e.
Qed.

Lemma leaves_by_call_generate_database t3 c : leaves_by codes (call_generate_database t3 c).
Proof.
  intros w. unfold call_generate_database.
  destruct (generate_database t3 c w) as [content|e] eqn:Hg.
  - by destruct (is_dir_at _ _).
  - destruct Hlib as (_ & H2 & _). apply H2 in Hg. by destruct e.
Qed.

Lemma leaves_by_call_solve_from_image t3 c : leaves_by codes (call_solve_from_image t3 c).
Proof.
  intros w. unfold call_solve_from_image. cbn [fst].
  destruct (solve_from_image t3 c w) as [res|e] eqn:Hs; [done|].
  destruct Hlib as (_ & _ & H3). apply H3 in Hs. by destruct e.
Qed.

Lemma leaves_by_generate_db_core args out : leaves_by codes (_generate_db_core args out).
Proof.
  unfold _generate_db_core. apply leaves_by_bind; [apply leaves_by_new_Tetra3|].
  intros t3. apply leaves_by_call_generate_database.
Qed.

Lemma leaves_by_solve_one args s img : leaves_by codes (solve_one args s img).
Proof.
  unfold solve_one. apply leaves_by_bind; [apply leaves_by_print|]. intros _.
  apply leaves_by_bind.
  - apply leaves_by_try_except.
    + apply leaves_by_bind; [apply leaves_by_call_solve_from_image|]. intros res.
      apply leaves_by_ret.
    + intros kind msg. apply leaves_by_bind; [apply leaves_by_print|]. intros _.
      apply leaves_by_bind; [|intros _; apply leaves_by_ret].
      destruct (s_csv s) as [[fd ?]|]; [apply leaves_by_writerow|apply leaves_by_ret].
  - intros [res|]; [|apply leaves_by_ret].
    apply leaves_by_bind.
    + destruct (truthy _); apply leaves_by_print.
    + intros _. destruct (s_csv s) as [[fd ?]|]; [apply leaves_by_writerow|apply leaves_by_ret].
Qed.

Lemma leaves_by_solve_loop args s imgs : leaves_by codes (solve_loop args s imgs).
Proof.
  induction imgs as [|img imgs IH]; [apply leaves_by_ret|].
  cbn [solve_loop]. apply leaves_by_bind; [apply leaves_by_solve_one|]. by intros _.
Qed.

Lemma leaves_by_solve_batch args s : leaves_by codes (solve_batch args s).
Proof.
  unfold solve_batch. apply leaves_by_try_finally; [apply leaves_by_solve_loop|].
  destruct (s_csv s) as [[fd pth]|]; [|apply leaves_by_ret].
  apply leaves_by_bind; [apply leaves_by_close|]. intros _. apply leaves_by_print.
Qed.

End Effects.

Section Statuses.
Context `{lib : Tetra3Lib}.
Hypothesis Hlib : raises_only_exceptions.

Lemma leaves_by_ensure_catalog_available name cd :
  leaves_by [exit_unsupported_catalog; exit_catalog_missing] (ensure_catalog_available name cd).
Proof.
  unfold ensure_catalog_available. destruct (assoc name required) as [filename|].
  - apply leaves_by_bind; [apply leaves_by_Path_cwd|]. intros here.
    apply leaves_by_bind; [apply leaves_by_probe|]. intros []; [apply leaves_by_ret|].
    apply leaves_by_bind.
    { destruct cd; [apply leaves_by_ret|].
      apply leaves_by_bind; [apply leaves_by_Path_cwd|]. intros c. apply leaves_by_ret. }
    intros where_. apply leaves_by_bind; [apply leaves_by_print|]. intros _.
    apply leaves_by_bind.
    { unfold print_hint. repeat case_match;
        repeat (apply leaves_by_bind; [|intros _]); apply leaves_by_print. }
    intros _. apply leaves_by_sys_exit. by_evaluation.
  - apply leaves_by_bind; [apply leaves_by_print|]. intros _.
    apply leaves_by_sys_exit. by_evaluation.
Qed.

Lemma leaves_by_cmd_generate_db args :
  leaves_by [exit_unsupported_catalog; exit_catalog_missing] (cmd_generate_db args).
Proof.
  unfold cmd_generate_db.
  apply leaves_by_bind; [apply leaves_by_resolved|]. intros out_path.
  apply leaves_by_bind; [apply leaves_by_mkdir_p|]. intros _.
  apply leaves_by_bind.
  { destruct (if_set (catalog_dir args)); [|apply leaves_by_ret].
    apply leaves_by_bind; [apply leaves_by_resolved|]. intros d. apply leaves_by_ret. }
  intros cd. apply leaves_by_bind; [apply leaves_by_ensure_catalog_available|]. intros _.
  apply leaves_by_bind; [apply leaves_by_now_iso|]. intros t.
  do 6 (apply leaves_by_bind; [apply leaves_by_print|]; intros _).
  apply leaves_by_bind; [|intros _; apply leaves_by_print].
  destruct cd; [apply leaves_by_pushd|]; by apply leaves_by_generate_db_core.
Qed.

Lemma leaves_by_cmd_solve args :
  leaves_by [exit_database_missing; exit_no_images] (cmd_solve args).
Proof.
  unfold cmd_solve. apply leaves_by_bind; [|intros s; by apply leaves_by_solve_batch].
  unfold solve_setup. apply leaves_by_bind.
  - unfold solve_preflight.
    apply leaves_by_bind; [apply leaves_by_resolved|]. intros db_path.
    apply leaves_by_bind; [apply leaves_by_exists|]. intros ex.
    apply leaves_by_bind.
    { destruct ex; [apply leaves_by_ret|].
      do 2 (apply leaves_by_bind; [apply leaves_by_print|]; intros _).
      apply leaves_by_sys_exit. by_evaluation. }
    intros _. apply leaves_by_bind; [apply leaves_by_expand_images|]. intros imgs.
    apply leaves_by_bind.
    { destruct imgs; [|apply leaves_by_ret].
      apply leaves_by_bind; [apply leaves_by_print|]. intros _.
      apply leaves_by_sys_exit. by_evaluation. }
    intros _. apply leaves_by_bind; [apply leaves_by_now_iso|]. intros t.
    apply leaves_by_bind; [apply leaves_by_print|]. intros _.
    apply leaves_by_bind; [by apply leaves_by_new_Tetra3|]. intros t3.
    apply leaves_by_bind; [apply leaves_by_print|]. intros _.
    apply leaves_by_bind; [|intros _; apply leaves_by_ret].
    destruct (parse_extract_dict args); [apply leaves_by_ret|apply leaves_by_print].
  - intros pre. apply leaves_by_bind; [|intros c; apply leaves_by_ret].
    unfold open_csv. destruct (if_set (csv args)); [|apply leaves_by_ret].
    apply leaves_by_bind; [apply leaves_by_resolved|]. intros csv_path.
    apply leaves_by_bind; [apply leaves_by_mkdir_p|]. intros _.
    apply leaves_by_bind; [apply leaves_by_open_w|]. intros csv_file.
    apply leaves_by_bind; [apply leaves_by_writerow|]. intros _. apply leaves_by_ret.
Qed.


End Statuses.

(** ** On the concrete world *)

Lemma run_returned (p : result unit * World) :
  match p.1 with Ok _ => true | Raise _ => false end = true -> p = (Ok tt, p.2).
Proof. destruct p as [[[]|e] w]; simpl; [done|discriminate]. Qed.

Lemma pushd_restores_for_any_body_witness :
  (pushd Example.cat Cases.wanders Example.world).1 = Raise (SystemExit 7) /\
  cwd (pushd Example.cat Cases.wanders Example.world).2 = ["home"; "u"].
Proof.
  rewrite (pushd_restores_for_any_body Example.cat Cases.wanders Example.world
             (Cases.wanders (emit (EvChdir ["cat"]) (set_cwd ["cat"] Example.world))).2
             (Cases.wanders (emit (EvChdir ["cat"]) (set_cwd ["cat"] Example.world))).1).
  - split; [vm_compute; reflexivity|reflexivity].
  - reflexivity.
  - vm_compute. reflexivity.
  - apply surjective_pairing.
  - vm_compute. reflexivity.
Defined.

Lemma example_lib_raises_only_exceptions : @raises_only_exceptions Example.lib.
Proof.
  split; [done|]. split; [done|]. intros t c w e. simpl. unfold Example.solver.
  destruct (String.eqb _ _); [by intros [= <-]|]. by destruct (String.eqb _ _).
Qed.

Lemma pushd_skips_body_when_directory_is_unreachable_witness :
  exists kind,
    pushd (mkPath true ["nowhere"]) Cases.wanders Example.world
      = (Raise (Exception kind "/nowhere"), Example.world).
Proof.
  destruct (pushd_skips_body_when_directory_is_unreachable
              (mkPath true ["nowhere"]) Cases.wanders Example.world) as (kind & Hrun & _).
  - vm_compute. reflexivity.
  - exists kind. exact Hrun.
Defined.


Lemma generate_db_without_catalog_dir_stays_put_witness :
  exists r w' evs,
    @cmd_generate_db Example.lib Cases.generate_here Example.world = (r, w') /\
    log w' = log Example.world ++ evs /\ cwd w' = ["home"; "u"] /\
    forall loc, EvChdir loc ∉ evs.
Proof.
  destruct (@generate_db_without_catalog_dir_stays_put Example.lib Cases.generate_here
              Example.world) as (r & w' & evs & Hrun & Hlog & Hcwd & Hno & _).
  - reflexivity.
  - exists r, w', evs. auto.
Defined.

Lemma generate_db_unsupported_catalog_after_mkdir_witness :
  exists w',
    @cmd_generate_db Example.lib Cases.generate_unsupported Example.world
      = (Raise (SystemExit exit_unsupported_catalog), w') /\
    fs w' !! ["new"] = Some Dir /\ fs w' !! ["new"; "dir"] = Some Dir.
Proof.
  destruct (@generate_db_unsupported_catalog_after_mkdir Example.lib Cases.generate_unsupported
              Example.world) as (r & w' & evs & Hrun & _ & _ & _ & Hcase); [done..|].
  assert (Hr : r = (@cmd_generate_db Example.lib Cases.generate_unsupported Example.world).1)
    by (by rewrite Hrun).
  vm_compute in Hr. subst r. destruct Hcase as (_ & out & Hout & _ & Hdirs).
  vm_compute in Hout. injection Hout as <-.
  exists w'. split; [exact Hrun|].
  split; apply Hdirs; try done; by_evaluation.
Defined.

Lemma generate_db_success_postcondition_witness :
  exists before,
    scope_trace before = [] /\
    log (@cmd_generate_db Example.lib Example.generate Example.world).2 =
      before
      ++ (EvPrint <$> @generate_banner Example.generate "2024-03-01T21:15:00"
                        (Some Example.cat) (mkPath true ["out"; "db.npz"]))
      ++ [EvChdir ["cat"]; EvTetra3 None;
          EvGenerate ["cat"] (mkGenCall 30 36 "hip_main" 8 "/out/db.npz") None;
          EvChdir ["home"; "u"]]
      ++ [EvPrint [Txt "[OK] Database created: /out/db.npz"]].
Proof.
  destruct (@generate_db_success_postcondition Example.lib Example.generate Example.world
              (@cmd_generate_db Example.lib Example.generate Example.world).2)
    as (out & cd & filename & found & before & Hout & Hcd & _ & _ & _ & Hscope & Hlog).
  - apply run_returned. vm_compute. reflexivity.
  - vm_compute in Hout. injection Hout as <-.
    destruct Hcd as (d & Hd & ->). vm_compute in Hd. injection Hd as <-.
    exists before. split; [exact Hscope|]. exact Hlog.
Defined.

(** The generator runs in [/cat] and is told [/home/u/out/db.npz]. *)
Lemma generator_is_told_an_absolute_output_path_witness :
  exists r w' evs,
    @cmd_generate_db Example.lib Cases.generate_relative Example.world = (r, w') /\
    log w' = log Example.world ++ evs /\
    forall at_cwd c failed, EvGenerate at_cwd c failed ∈ evs ->
      gc_save_as c = "/home/u/out/db.npz" /\
      forall wd, locate wd (Path_of (gc_save_as c)) = ["home"; "u"; "out"; "db.npz"].
Proof.
  destruct (@generator_is_told_an_absolute_output_path Example.lib Cases.generate_relative
              Example.world) as (r & w' & evs & Hrun & Hlog & Hgen).
  - by_evaluation.
  - exists r, w', evs. do 2 (split; [done|]). intros a c failed Hin.
    destruct (Hgen a c failed Hin) as (out & Hout & -> & _ & Hloc).
    vm_compute in Hout. injection Hout as <-. split; [reflexivity|exact Hloc].
Defined.

Lemma generate_db_with_missing_catalog_dir_fails_on_chdir_witness :
  exists kind w',
    @cmd_generate_db Example.lib Cases.generate_nowhere Example.world
      = (Raise (Exception kind "/nocat"), w') /\
    (@exit_status Example.lib (GenerateDb Cases.generate_nowhere) Example.world).1 = 1%Z /\
    fs w' = Example.files /\ cwd w' = ["home"; "u"].
Proof.
  destruct (@generate_db_with_missing_catalog_dir_fails_on_chdir Example.lib
              Cases.generate_nowhere Example.world "/nocat" "hip_main.dat"
              (mkPath true ["nocat"]) (mkPath true ["out"; "db.npz"]))
    as (kind & w' & probes & Hrun & _ & Hexit & _ & _ & _ & Hfs & Hcwd).
  - reflexivity.
  - vm_compute. reflexivity.
  - vm_compute. reflexivity.
  - intros q Hne Hq. change (locate _ _) with ["out"] in Hq.
    destruct q as [|x q]; [done|]. destruct Hq as [k Hk].
    injection Hk as <- Hk. symmetry in Hk. apply app_eq_nil in Hk as [-> _].
    vm_compute. reflexivity.
  - vm_compute. reflexivity.
  - reflexivity.
  - by_evaluation.
  - exists kind, w'. auto.
Defined.

Lemma missing_database_stops_solve_at_once_witness :
  @cmd_solve Example.lib Example.solve_empty_no_database Example.world =
    (Raise (SystemExit exit_database_missing),
     emits [EvExists ["missing.npz"];
            EvPrint [Txt "ERROR: Database file not found: /missing.npz"];
            EvPrint [Txt "Generate it first with the 'generate-db' command."]] Example.world).
Proof.
  apply (@missing_database_stops_solve_at_once Example.lib Example.solve_empty_no_database
           Example.world (mkPath true ["missing.npz"])).
  - vm_compute. reflexivity.
  - vm_compute. reflexivity.
Defined.

Lemma solve_without_csv_writes_nothing_witness :
  exists r w' evs,
    @cmd_solve Example.lib Example.solve_console Example.world = (r, w') /\
    log w' = log Example.world ++ evs /\
    fs w' = Example.files /\ fds w' = ∅ /\ cwd w' = ["home"; "u"].
Proof.
  apply (@solve_without_csv_writes_nothing Example.lib Example.solve_console Example.world).
  reflexivity.
Defined.

Lemma csv_rows_agree_with_console_witness :
  exists r w' rows,
    @cmd_solve Example.lib Example.solve_data Example.world = (r, w') /\
    fs w' !! ["out"; "r.csv"] = Some (File (csv_header :: rows)) /\
    Forall (fun row => length row = 6%nat) rows.
Proof.
  destruct (@csv_rows_agree_with_console Example.lib Example.solve_data Example.world
              (Example.prepared_setup Example.lib tt) (Example.prepared Example.lib).2
              3%nat Example.csv_path)
    as (r & w' & evs & rows & Hrun & _ & Hfile & Hwidth & _).
  - apply prepared_ok. vm_compute. reflexivity.
  - vm_compute. reflexivity.
  - exists r, w', rows. split; [exact Hrun|]. split; [exact Hfile|exact Hwidth].
Defined.

Lemma interrupted_solve_closes_csv_then_reports_witness :
  exists w' evs rows,
    @exit_status Example.interrupted_lib (Solve Example.solve_data) Example.world
      = (130%Z, w') /\
    log w' = log (Example.prepared Example.interrupted_lib).2 ++ evs
             ++ [EvClose 3%nat;
                 EvPrint [Txt (nl +:+ "[OK] Results saved to CSV: /out/r.csv")];
                 EvPrint [Txt (nl +:+ "Interrupted.")]] /\
    fds w' !! 3%nat = None /\
    fs w' !! ["out"; "r.csv"] = Some (File (csv_header :: rows)).
Proof.
  destruct (@interrupted_solve_closes_csv_then_reports Example.interrupted_lib
              Example.solve_data Example.world
              (Example.prepared_setup Example.interrupted_lib tt)
              (Example.prepared Example.interrupted_lib).2 3%nat Example.csv_path)
    as (w' & evs & rows & completed & c & Hexit & _ & Hlog & _ & _ & _ & Hclosed & Hfile).
  - apply prepared_ok. vm_compute. reflexivity.
  - vm_compute. reflexivity.
  - vm_compute. reflexivity.
  - exists w', evs, rows. split; [exact Hexit|]. split; [exact Hlog|].
    split; [exact Hclosed|exact Hfile].
Defined.


